(** * Verificador masivo de la conjetura de Goldbach

    A shallow embedding of [verificador_goldbach.py] (segmented sieve, batch
    verifier, checkpoint load and save, driver loop) and of the flat sieve of
    [test_verificacion_rapida.py], with the properties of the design document
    stated and settled against it.

    Conventions of the embedding.
    - Python integers are [Z]; [//] and [%] are [Z.div] and [Z.modulo]
      (both floor, sign of the divisor), [int(math.sqrt n)] is [Z.sqrt n]
      (so it is below [2^52], where the float square root rounds to the
      integer one; the properties of the sieves over all limits carry
      that bound).
    - A Python list used as an array is a [list]; an index assignment out of
      range raises [IndexError], written as [None] in the option monad.
    - The two module-level dictionaries of the prime cache are [gmap]s.
    - Wall-clock readings are integers (clock ticks) supplied from outside. *)

From stdpp Require Import gmap strings list sorting.
From Stdlib Require Import ZArith Zdivisibility Lia.

Open Scope Z_scope.

(** ** Python building blocks *)

Module Py.

(** [n] values from [a] on in steps of [s]. *)
Fixpoint contar_desde (n : nat) (a s : Z) : list Z :=
  match n with
  | O => []
  | S n' => a :: contar_desde n' (a + s) s
  end.

(** [range(a, b, s)] for a positive step [s]: the values [a + k * s] below
    [b], of which there are [ceil((b - a) / s)]. *)
Definition range (a b s : Z) : list Z :=
  contar_desde (Z.to_nat ((b - a + s - 1) / s)) a s.

(** Position designated by index [i] in a list of length [len]: negative
    indices count from the end, anything else is out of range. *)
Definition posicion (len : nat) (i : Z) : option nat :=
  let n := Z.of_nat len in
  if bool_decide (0 ≤ i < n) then Some (Z.to_nat i)
  else if bool_decide (- n ≤ i < 0) then Some (Z.to_nat (n + i))
  else None.

(** [l[i]] *)
Definition leer {A} (l : list A) (i : Z) : option A :=
  k ← posicion (length l) i; l !! k.

(** [l[i] = v] *)
Definition asignar {A} (l : list A) (i : Z) (v : A) : option (list A) :=
  k ← posicion (length l) i; Some (<[k := v]> l).

(** [for x in xs: s = cuerpo(s, x)], stopping at the first exception. *)
Fixpoint para {S A} (xs : list A) (cuerpo : S → A → option S) (s : S)
  : option S :=
  match xs with
  | [] => Some s
  | x :: xs' => s' ← cuerpo s x; para xs' cuerpo s'
  end.

(** [[base + i for i in indices if arr[i]]] *)
Fixpoint seleccionar (arr : list bool) (base : Z) (indices : list Z)
  : option (list Z) :=
  match indices with
  | [] => Some []
  | i :: indices' =>
      b ← leer arr i;
      r ← seleccionar arr base indices';
      Some (if b : bool then (base + i) :: r else r)
  end.

End Py.

(** ** Sieves *)

(** [for j in range(desde, hasta, paso): arr[j - base] = False] *)
Definition tachar (arr : list bool) (desde hasta paso base : Z)
  : option (list bool) :=
  Py.para (Py.range desde hasta paso)
          (λ a j, Py.asignar a (j - base) false) arr.

(** The classic sieve loop shared by both sieves: an array of [tam] flags,
    entries 0 and 1 cleared, then for [i] in [range(2, raiz + 1)] the
    multiples of every surviving [i] struck from [i*i] on. *)
Definition criba_clasica (tam raiz : Z) : option (list bool) :=
  let es_primo := replicate (Z.to_nat tam) true in
  es_primo ← Py.asignar es_primo 0 false;
  es_primo ← Py.asignar es_primo 1 false;
  Py.para (Py.range 2 (raiz + 1) 1)
          (λ es_primo i,
             b ← Py.leer es_primo i;
             if b : bool then tachar es_primo (i * i) tam i 0
             else Some es_primo)
          es_primo.

(** [test_verificacion_rapida.criba_eratostenes_simple] *)
Definition criba_eratostenes_simple (limite : Z) : option (list Z) :=
  if bool_decide (limite < 2) then Some []
  else
    es_primo ← criba_clasica (limite + 1) (Z.sqrt limite);
    Py.seleccionar es_primo 0 (Py.range 0 (limite + 1) 1).

(** First multiple of [p] struck in the segment starting at [inicio]. *)
Definition primer_multiplo (inicio p : Z) : Z :=
  let m := ((inicio + p - 1) / p) * p in
  let m := if bool_decide (m < inicio) then m + p else m in
  if bool_decide (m = p) then m + p else m.

(** One segment [[inicio, fin)] of phase 2: the surviving numbers. *)
Definition cribar_segmento (primos_pequeños : list Z) (inicio fin : Z)
  : option (list Z) :=
  let segmento := replicate (Z.to_nat (fin - inicio)) true in
  segmento ← Py.para primos_pequeños
                (λ seg p, tachar seg (primer_multiplo inicio p) fin p inicio)
                segmento;
  Py.seleccionar segmento inicio
                 (Py.range 0 (Z.of_nat (length segmento)) 1).

(** [verificador_goldbach.criba_eratostenes_segmentada] *)
Definition criba_eratostenes_segmentada (limite : Z) : option (list Z) :=
  if bool_decide (limite < 2) then Some []
  else
    let sqrt_limite := Z.sqrt limite + 1 in
    es_primo_pequeño ← criba_clasica sqrt_limite (Z.sqrt sqrt_limite);
    primos_pequeños ←
      Py.seleccionar es_primo_pequeño 0 (Py.range 0 sqrt_limite 1);
    if bool_decide (limite ≤ sqrt_limite) then
      Some (filter (λ p, p ≤ limite) primos_pequeños)
    else
      let tamaño_segmento := Z.min sqrt_limite (10 ^ 6) in
      Py.para (Py.range sqrt_limite (limite + 1) tamaño_segmento)
              (λ primos inicio,
                 let fin := Z.min (inicio + tamaño_segmento) (limite + 1) in
                 nuevos ← cribar_segmento primos_pequeños inicio fin;
                 Some (primos ++ nuevos))
              primos_pequeños.

(** ** Prime cache *)

(** The module-level dictionaries [_cache_primos] and [_cache_set_primos]. *)
Record cache := {
  _cache_primos : gmap Z (list Z);
  _cache_set_primos : gmap Z (gset Z)
}.

Definition cache_vacio : cache :=
  {| _cache_primos := ∅; _cache_set_primos := ∅ |}.

(** [obtener_primos_hasta]: the sieve runs only when [n] is not yet a key;
    an exception of the sieve or a missing key ([KeyError]) is [None]. *)
Definition obtener_primos_hasta (c : cache) (n : Z)
  : option (list Z * gset Z * cache) :=
  c' ← (if bool_decide (is_Some (_cache_primos c !! n)) then Some c
        else
          primos ← criba_eratostenes_segmentada n;
          Some {| _cache_primos := <[n := primos]> (_cache_primos c);
                  _cache_set_primos :=
                    <[n := list_to_set primos]> (_cache_set_primos c) |});
  primos ← _cache_primos c' !! n;
  set_primos ← _cache_set_primos c' !! n;
  Some (primos, set_primos, c').

(** ** Batch verifier *)

(** [float('inf')] or an integer. *)
Inductive cota := Inf | Fin (z : Z).

Definition cota_min (c : cota) (r : Z) : cota :=
  match c with
  | Inf => Fin r
  | Fin z => Fin (Z.min z r)
  end.

(** The dictionary [resultados] returned for one batch. *)
Record resultados := {
  rango : Z * Z;
  verificados : Z;
  cumple : Z;
  no_cumple : list Z;
  min_representaciones : cota;
  max_representaciones : Z;
  tiempo : Z
}.

(** The inner loop over [primos], with its [break]; [representaciones] is
    the running count. *)
Fixpoint contar_representaciones (primos : list Z) (set_primos : gset Z)
    (n representaciones : Z) : Z :=
  match primos with
  | [] => representaciones
  | p :: resto =>
      if bool_decide (p > n / 2) then representaciones
      else
        let q := n - p in
        contar_representaciones resto set_primos n
          (if bool_decide (q ∈ set_primos) then representaciones + 1
           else representaciones)
  end.

(** One iteration of the loop over [n]. *)
Definition verificar_numero (primos : list Z) (set_primos : gset Z)
    (r : resultados) (n : Z) : resultados :=
  let representaciones := contar_representaciones primos set_primos n 0 in
  if bool_decide (representaciones > 0) then
    {| rango := rango r;
       verificados := verificados r + 1;
       cumple := cumple r + 1;
       no_cumple := no_cumple r;
       min_representaciones :=
         cota_min (min_representaciones r) representaciones;
       max_representaciones :=
         Z.max (max_representaciones r) representaciones;
       tiempo := tiempo r |}
  else
    {| rango := rango r;
       verificados := verificados r + 1;
       cumple := cumple r;
       no_cumple := no_cumple r ++ [n];
       min_representaciones := min_representaciones r;
       max_representaciones := max_representaciones r;
       tiempo := tiempo r |}.

(** [if n_inicio % 2 != 0: n_inicio += 1] *)
Definition asegurar_par (n_inicio : Z) : Z :=
  if bool_decide (n_inicio `mod` 2 ≠ 0) then n_inicio + 1 else n_inicio.

(** The numbers the loop of a batch goes through:
    [range(n_inicio, n_fin + 1, 2)] after the start has been made even. *)
Definition numeros_del_lote (args : Z * Z * bool) : list Z :=
  let '(n_inicio, n_fin, _) := args in
  Py.range (asegurar_par n_inicio) (n_fin + 1) 2.

Definition resultados_iniciales (n_inicio n_fin : Z) : resultados :=
  {| rango := (n_inicio, n_fin);
     verificados := 0;
     cumple := 0;
     no_cumple := [];
     min_representaciones := Inf;
     max_representaciones := 0;
     tiempo := 0 |}.

Definition con_tiempo (r : resultados) (t : Z) : resultados :=
  {| rango := rango r;
     verificados := verificados r;
     cumple := cumple r;
     no_cumple := no_cumple r;
     min_representaciones := min_representaciones r;
     max_representaciones := max_representaciones r;
     tiempo := t |}.

(** The body of the verifier once the primes are at hand. *)
Definition verificar_con_primos (primos : list Z) (set_primos : gset Z)
    (args : Z * Z * bool) : resultados :=
  let '(n_inicio, n_fin, _) := args in
  foldl (verificar_numero primos set_primos)
        (resultados_iniciales (asegurar_par n_inicio) n_fin)
        (numeros_del_lote args).

(** [verificar_goldbach_rango]: [c] is the prime cache of the process that
    runs it, [t0] and [t1] the two readings of [time.time()]. *)
Definition verificar_goldbach_rango (c : cache) (t0 t1 : Z)
    (args : Z * Z * bool) : option (resultados * cache) :=
  let max_primo_necesario := args.1.2 in
  '(primos, set_primos, c') ← obtener_primos_hasta c max_primo_necesario;
  Some (con_tiempo (verificar_con_primos primos set_primos args) (t1 - t0),
        c').

(** ** Checkpoint store *)

(** The operating parameters of [CONFIG] that the core reads. *)
Record Config := {
  n_inicial : Z;
  n_final : Z;
  num_cores : Z;
  tamaño_batch : Z;
  intervalo_guardado : Z
}.

(** [CONFIG] as shipped, on a machine with [cpus] processors. *)
Definition CONFIG (cpus : Z) : Config :=
  {| n_inicial := 6;
     n_final := 10 ^ 6;
     num_cores := Z.max 1 (cpus - 1);
     tamaño_batch := 10000;
     intervalo_guardado := 3600 |}.

(** Values that [json.load] can yield. A float is kept as a tick count. *)
#[warnings="-register-all"]
Inductive valor :=
  | VNone
  | VBool (b : bool)
  | VInt (z : Z)
  | VFloat (t : Z)
  | VStr (s : string)
  | VList (l : list valor)
  | VDict (d : gmap string valor).

(** What the driver finds at [archivo_progreso]: no file, a file that
    cannot be opened, a file that [json.load] rejects, or the loaded value. *)
Inductive archivo :=
  | Ausente
  | Ilegible
  | Corrupto
  | Contenido (v : valor).

(** The progress dictionary with the six keys the program writes. *)
Record Progreso := {
  ultimo_n_verificado : Z;
  total_verificados : Z;
  total_cumple : Z;
  contraejemplos : list Z;
  tiempo_total : Z;
  inicio_sesion : string
}.

Definition valor_de_progreso (p : Progreso) : valor :=
  VDict (<["ultimo_n_verificado" := VInt (ultimo_n_verificado p)]>
        (<["total_verificados" := VInt (total_verificados p)]>
        (<["total_cumple" := VInt (total_cumple p)]>
        (<["contraejemplos" := VList (VInt <$> contraejemplos p)]>
        (<["tiempo_total" := VFloat (tiempo_total p)]>
        (<["inicio_sesion" := VStr (inicio_sesion p)]> ∅)))))).

Definition entero (v : valor) : option Z :=
  match v with VInt z => Some z | _ => None end.

Definition numero (v : valor) : option Z :=
  match v with VInt z | VFloat z => Some z | _ => None end.

Definition cadena (v : valor) : option string :=
  match v with VStr s => Some s | _ => None end.

Definition lista_de_enteros (v : valor) : option (list Z) :=
  match v with VList l => mapM entero l | _ => None end.

(** [v[k]] for a string key: [KeyError] or [TypeError] is [None]. *)
Definition subindice (v : valor) (k : string) : option valor :=
  match v with VDict d => d !! k | _ => None end.

(** The view of a loaded value as the record the driver works on: a
    dictionary holding the six keys with the types the driver uses them at. *)
Definition como_progreso (v : valor) : option Progreso :=
  u ← subindice v "ultimo_n_verificado" ≫= entero;
  tv ← subindice v "total_verificados" ≫= entero;
  tc ← subindice v "total_cumple" ≫= entero;
  ce ← subindice v "contraejemplos" ≫= lista_de_enteros;
  tt ← subindice v "tiempo_total" ≫= numero;
  i ← subindice v "inicio_sesion" ≫= cadena;
  Some {| ultimo_n_verificado := u; total_verificados := tv;
          total_cumple := tc; contraejemplos := ce; tiempo_total := tt;
          inicio_sesion := i |}.

(** Whether [f"{v:,}"] formats: numbers do, everything else raises. *)
Definition admite_formato_miles (v : valor) : bool :=
  match v with VInt _ | VFloat _ | VBool _ => true | _ => false end.

Section Persistencia.

Variable cfg : Config.

(** The dictionary returned when nothing was loaded; [ahora] is
    [datetime.now().isoformat()]. *)
Definition progreso_por_defecto (ahora : string) : Progreso :=
  {| ultimo_n_verificado := n_inicial cfg - 2;
     total_verificados := 0;
     total_cumple := 0;
     contraejemplos := [];
     tiempo_total := 0;
     inicio_sesion := ahora |}.

(** The body of the [try] of [cargar_progreso]: open, [json.load], and the
    log line that formats [progreso['ultimo_n_verificado']]; [None] when any
    of them raises. *)
Definition intento_de_carga (a : archivo) : option valor :=
  match a with
  | Ausente | Ilegible | Corrupto => None
  | Contenido progreso =>
      u ← subindice progreso "ultimo_n_verificado";
      if admite_formato_miles u then Some progreso else None
  end.

(** [cargar_progreso] *)
Definition cargar_progreso (a : archivo) (ahora : string) : valor :=
  match a with
  | Ausente => valor_de_progreso (progreso_por_defecto ahora)
  | _ =>
      match intento_de_carga a with
      | Some progreso => progreso
      | None => valor_de_progreso (progreso_por_defecto ahora)
      end
  end.

(** [guardar_progreso], when the write succeeds. *)
Definition guardar_progreso (progreso : Progreso) : archivo :=
  Contenido (valor_de_progreso progreso).

End Persistencia.

(** ** Driver *)

(** What happens to [pool.map] in a round: it returns, the user interrupts
    it ([KeyboardInterrupt]), or it raises (a worker died). *)
Inductive suceso := Normal | Interrupcion | Fallo.

#[global] Instance suceso_eq_dec : EqDecision suceso.
Proof. solve_decision. Defined.

(** Everything the driver takes as given: the clocks, in whole seconds,
    what happens to [pool.map], and how the float arithmetic of a report
    comes out. *)
Record Mundo := {
  reloj_inicial : Z;                    (* [time.time()] before the pool *)
  reloj_ronda : nat → Z;                (* [time.time()] after round [k] *)
  cronometro : Z * Z * bool → Z * Z;    (* both readings inside a worker *)
  suceso_ronda : nat → suceso;
  estimacion : Progreso → bool          (* speed and time left come out *)
}.

(** ** The progress report

    [generar_reporte] returns a text that the driver only logs; what the
    driver's control flow depends on is whether the call raises. Times are
    whole seconds. *)

(** [a / b] on two integers, as far as it raises: [ZeroDivisionError] for
    a zero divisor, [OverflowError] when the quotient, rounded to the
    nearest float, is beyond the largest one, which is from
    [2^1024 - 2^970] on in magnitude. *)
Definition division_real (a b : Z) : option unit :=
  if bool_decide (b = 0) then None
  else if bool_decide (Z.abs a >= (2 ^ 1024 - 2 ^ 970) * Z.abs b) then None
  else Some ().

(** [timedelta(seconds=s)] for an integer [s], as far as it raises:
    [OverflowError] unless the days, [s // 86400], are within 999999999
    of zero. *)
Definition timedelta (s : Z) : option unit :=
  if bool_decide (-999999999 ≤ s `div` 86400 ≤ 999999999) then Some ()
  else None.

(** [generar_reporte]: [None] when it raises. The percentage is a quotient
    of integers and the elapsed time a [timedelta]; the speed and the time
    left, computed when time and numbers have been counted, are float
    arithmetic followed by a [timedelta], and [estimacion] says whether
    they come out. Nothing else in the function raises. *)
Definition generar_reporte (cfg : Config) (mundo : Mundo)
    (progreso : Progreso) : option unit :=
  let n_actual := ultimo_n_verificado progreso in
  _ ← (if bool_decide (n_final cfg > n_inicial cfg)
       then division_real (n_actual - n_inicial cfg)
                          (n_final cfg - n_inicial cfg)
       else Some ());
  let tiempo_transcurrido := tiempo_total progreso in
  _ ← timedelta tiempo_transcurrido;
  if bool_decide (tiempo_transcurrido > 0)
     && bool_decide (total_verificados progreso > 0)
  then (if estimacion mundo progreso then Some () else None)
  else Some ().

Inductive estado := YaCompletada | Completada | Interrumpida | Fallida.

#[global] Instance estado_eq_dec : EqDecision estado.
Proof. solve_decision. Defined.

(** A run of the driver: how it ended, the progress dictionary at that
    point, the dictionaries passed to [guardar_progreso] in order, the
    batches handed to [pool.map] in order, and whether the call ended by
    raising instead of returning the dictionary. *)
Record ejecucion := {
  estado_final : estado;
  progreso_final : Progreso;
  guardados : list Progreso;
  lotes : list (Z * Z * bool);
  lanza : bool
}.

Definition anteponer (bs : list (Z * Z * bool)) (gs : list Progreso)
    (e : ejecucion) : ejecucion :=
  {| estado_final := estado_final e;
     progreso_final := progreso_final e;
     guardados := gs ++ guardados e;
     lotes := bs ++ lotes e;
     lanza := lanza e |}.

(** The body of [for resultado in resultados]. *)
Definition consolidar (progreso : Progreso) (resultado : resultados)
  : Progreso :=
  {| ultimo_n_verificado := (rango resultado).2;
     total_verificados := total_verificados progreso + verificados resultado;
     total_cumple := total_cumple progreso + cumple resultado;
     contraejemplos := contraejemplos progreso ++ no_cumple resultado;
     tiempo_total := tiempo_total progreso + tiempo resultado;
     inicio_sesion := inicio_sesion progreso |}.

(** The numbers a list of batches goes through, in order. *)
Definition numeros_verificados (ls : list (Z * Z * bool)) : list Z :=
  ls ≫= numeros_del_lote.

Section Conductor.

Variable cfg : Config.
Variable mundo : Mundo.

(** [for _ in range(num_cores)]: the batches of one round and the value of
    [n_actual] after it. *)
Fixpoint preparar_batches (vueltas : nat) (n_actual : Z)
  : list (Z * Z * bool) * Z :=
  match vueltas with
  | O => ([], n_actual)
  | S vueltas' =>
      if bool_decide (n_actual > n_final cfg) then ([], n_actual)
      else
        let n_fin_batch :=
          Z.min (n_actual + tamaño_batch cfg - 1) (n_final cfg) in
        let '(batches, n_actual') :=
          preparar_batches vueltas' (n_fin_batch + 2) in
        ((n_actual, n_fin_batch, false) :: batches, n_actual')
  end.

(** The dispatch of the [while] loop alone (batches of all rounds), as it
    goes when no round is cut short. [fuel] bounds the number of rounds. *)
Fixpoint despacho (fuel : nat) (n_actual : Z)
  : option (list (Z * Z * bool)) :=
  if bool_decide (n_actual ≤ n_final cfg) then
    match fuel with
    | O => None
    | S fuel' =>
        let '(batches, n_actual') :=
          preparar_batches (Z.to_nat (num_cores cfg)) n_actual in
        match batches with
        | [] => Some []
        | _ => resto ← despacho fuel' n_actual'; Some (batches ++ resto)
        end
    end
  else Some [].

(** One task of [pool.map], in a worker whose cache holds nothing yet. *)
Definition tarea (args : Z * Z * bool) : option resultados :=
  let '(t0, t1) := cronometro mundo args in
  fst <$> verificar_goldbach_rango cache_vacio t0 t1 args.

(** The final [guardar_progreso] after the loop, and the final report,
    which is outside the [try]. *)
Definition cierre (progreso : Progreso) : ejecucion :=
  {| estado_final := Completada; progreso_final := progreso;
     guardados := [progreso]; lotes := [];
     lanza := bool_decide (generar_reporte cfg mundo progreso = None) |}.

(** Both [except] branches save and leave: the one for
    [KeyboardInterrupt] returns, the one for [Exception] raises again. *)
Definition corte (e : estado) (progreso : Progreso)
    (batches : list (Z * Z * bool)) : ejecucion :=
  {| estado_final := e; progreso_final := progreso;
     guardados := [progreso]; lotes := batches;
     lanza := bool_decide (e = Fallida) |}.

(** A periodic report that raises: the progress has just been saved, and
    the [except Exception] branch saves it again and raises again. *)
Definition corte_por_informe (progreso : Progreso)
    (batches : list (Z * Z * bool)) : ejecucion :=
  {| estado_final := Fallida; progreso_final := progreso;
     guardados := [progreso; progreso]; lotes := batches;
     lanza := true |}.

(** The [while n_actual <= n_final] loop. [None] only when [fuel] rounds
    were not enough. *)
Fixpoint bucle (fuel ronda : nat) (n_actual : Z) (progreso : Progreso)
    (ultimo_guardado : Z) : option ejecucion :=
  if bool_decide (n_actual ≤ n_final cfg) then
    match fuel with
    | O => None
    | S fuel' =>
        let '(batches, n_actual') :=
          preparar_batches (Z.to_nat (num_cores cfg)) n_actual in
        match batches with
        | [] => Some (cierre progreso)
        | _ =>
            match suceso_ronda mundo ronda with
            | Interrupcion => Some (corte Interrumpida progreso batches)
            | Fallo => Some (corte Fallida progreso batches)
            | Normal =>
                match mapM tarea batches with
                | None => Some (corte Fallida progreso batches)
                | Some resultados =>
                    let progreso' := foldl consolidar progreso resultados in
                    let tiempo_actual := reloj_ronda mundo ronda in
                    let guarda :=
                      bool_decide (tiempo_actual - ultimo_guardado
                                   >= intervalo_guardado cfg) in
                    if guarda
                       && bool_decide
                            (generar_reporte cfg mundo progreso' = None)
                    then Some (corte_por_informe progreso' batches)
                    else
                      e ← bucle fuel' (S ronda) n_actual' progreso'
                            (if guarda then tiempo_actual
                             else ultimo_guardado);
                      Some (anteponer batches
                              (if guarda then [progreso'] else []) e)
                end
            end
        end
    end
  else Some (cierre progreso).

(** [verificacion_masiva_goldbach] from the loaded dictionary on. The
    early return logs a report first, outside any [try]. A pool of fewer
    than one process raises inside the [try]. *)
Definition verificacion_desde (fuel : nat) (progreso : Progreso)
  : option ejecucion :=
  let n_inicio := asegurar_par (ultimo_n_verificado progreso + 2) in
  if bool_decide (n_inicio >= n_final cfg) then
    Some {| estado_final := YaCompletada; progreso_final := progreso;
            guardados := []; lotes := [];
            lanza := bool_decide (generar_reporte cfg mundo progreso = None) |}
  else if bool_decide (num_cores cfg < 1) then
    Some (corte Fallida progreso [])
  else bucle fuel 0 n_inicio progreso (reloj_inicial mundo).

(** [verificacion_masiva_goldbach], for a checkpoint that is absent or
    holds a well-typed progress dictionary. *)
Definition verificacion_masiva_goldbach (fuel : nat) (a : archivo)
    (ahora : string) : option ejecucion :=
  progreso ← como_progreso (cargar_progreso cfg a ahora);
  verificacion_desde fuel progreso.

End Conductor.

(** A world in which nothing goes wrong and every clock reads zero. *)
Definition mundo_tranquilo : Mundo :=
  {| reloj_inicial := 0;
     reloj_ronda := λ _, 0;
     cronometro := λ _, (0, 0);
     suceso_ronda := λ _, Normal;
     estimacion := λ _, true |}.

(** ** The quick test ([test_verificacion_rapida.py])

    A Python [set] of integers is modelled by the list of its members in
    the order in which iterating over it yields them; the language leaves
    that order open. *)

(** The [for p in set_primos] loop of [verificar_goldbach_numero], from the
    members [pendientes] still to come: the representations appended. *)
Fixpoint representaciones_desde (n : Z) (set_primos pendientes : list Z)
  : list (Z * Z) :=
  match pendientes with
  | [] => []
  | p :: resto =>
      if bool_decide (p > n `div` 2) then []
      else
        let q := n - p in
        if bool_decide (q ∈ set_primos) && bool_decide (q >= p)
        then (p, q) :: representaciones_desde n set_primos resto
        else representaciones_desde n set_primos resto
  end.

(** [verificar_goldbach_numero]; [None] is the [ValueError]. *)
Definition verificar_goldbach_numero (n : Z) (set_primos : list Z)
  : option (bool * list (Z * Z)) :=
  if bool_decide (n `mod` 2 ≠ 0) then None
  else
    let representaciones := representaciones_desde n set_primos set_primos in
    Some (bool_decide (Z.of_nat (length representaciones) > 0),
          representaciones).

Module Test.

(** The local variables of [test_rapido] that its loop updates. *)
Record cuenta := {
  total_verificados : Z;
  total_cumple : Z;
  contraejemplos : list Z;
  casos_ejemplo : list (Z * list (Z * Z))
}.

Definition cuenta_inicial : cuenta :=
  {| total_verificados := 0; total_cumple := 0; contraejemplos := [];
     casos_ejemplo := [] |}.

(** The body of [for n in range(6, n_max + 1, 2)]. *)
Definition paso (set_primos : list Z) (s : cuenta) (n : Z) : option cuenta :=
  '(cumple, representaciones) ← verificar_goldbach_numero n set_primos;
  if cumple : bool then
    Some {| total_verificados := total_verificados s + 1;
            total_cumple := total_cumple s + 1;
            contraejemplos := contraejemplos s;
            casos_ejemplo :=
              if bool_decide (length (casos_ejemplo s) < 5)%nat
              then casos_ejemplo s ++ [(n, take 3 representaciones)]
              else casos_ejemplo s |}
  else
    Some {| total_verificados := total_verificados s + 1;
            total_cumple := total_cumple s;
            contraejemplos := contraejemplos s ++ [n];
            casos_ejemplo := casos_ejemplo s |}.

(** [test_rapido]: the value returned and the counts it prints. [set_ l] is
    [set(l)], the members of [l] in the order the set yields them. *)
Definition test_rapido (set_ : list Z → list Z) : option (bool * cuenta) :=
  let n_max := 2000 in
  primos ← criba_eratostenes_simple n_max;
  let set_primos := set_ primos in
  s ← Py.para (Py.range 6 (n_max + 1) 2) (paso set_primos) cuenta_inicial;
  Some (bool_decide (contraejemplos s = []), s).

End Test.

(** ** The reset script ([reiniciar_verificacion.py]) *)

Definition archivos_a_eliminar : list string :=
  ["progreso_goldbach.json"; "log_goldbach.txt"; "resultados_test_1.txt";
   "resultados.txt"; "verificador_goldbach.txt"].

(** [CONFIG["archivo_progreso"]] *)
Definition archivo_progreso : string := "progreso_goldbach.json".

(** What a name of the working directory holds, as far as the programs can
    tell: something that cannot be opened, something [json.load] rejects,
    or a JSON value. *)
#[warnings="-register-all"]
Inductive entrada :=
  | NoSeAbre
  | NoEsJson
  | Json (v : valor).

(** The working directory: the names that exist in it. *)
Abbreviation directorio := (gmap string entrada).

(** What the driver finds at [nombre]. *)
Definition archivo_en (d : directorio) (nombre : string) : archivo :=
  match d !! nombre with
  | None => Ausente
  | Some NoSeAbre => Ilegible
  | Some NoEsJson => Corrupto
  | Some (Json v) => Contenido v
  end.

(** One turn of [for archivo in archivos_a_eliminar], on the directory and
    the counter [eliminados]; [se_elimina archivo] says whether
    [os.remove(archivo)] succeeds rather than raises. *)
Definition eliminar (se_elimina : string → bool) (s : directorio * Z)
    (archivo : string) : directorio * Z :=
  if bool_decide (is_Some (s.1 !! archivo)) then
    if se_elimina archivo then (delete archivo s.1, s.2 + 1)
    else s
  else s.

(** [reiniciar]: the directory it leaves and the count it reports, if it
    gets that far. [confirmado] is the outcome of
    [respuesta.strip().upper() == "SI"]. *)
Definition reiniciar (confirmado : bool) (se_elimina : string → bool)
    (d : directorio) : directorio * option Z :=
  if negb confirmado then (d, None)
  else
    let '(d', eliminados) :=
      foldl (eliminar se_elimina) (d, 0) archivos_a_eliminar in
    (d', Some eliminados).

(** ** Vocabulary of the properties

    Predicates and reference functions the statements below are written
    with, and the concrete configurations, checkpoints and worlds they are
    evaluated at. *)

(** Entry [k] of a flag array is set. *)
Definition marcado (a : list bool) (k : Z) : Prop :=
  0 ≤ k ∧ a !! Z.to_nat k = Some true.

#[local] Instance marcado_dec a k : Decision (marcado a k).
Proof. unfold marcado. apply _. Defined.

(** Trial division up to the square root. *)
Definition es_primo (n : Z) : bool :=
  bool_decide (2 ≤ n)
  && forallb (λ d, negb (bool_decide (n `mod` d = 0)))
             (Py.range 2 (Z.sqrt n + 1) 1).

(** The primes of [[a, b)] in ascending order. *)
Definition primos_en (a b : Z) : list Z :=
  filter (λ n, es_primo n = true) (Py.range a b 1).

#[local] Instance divide_decision (d n : Z) : Decision (d | n).
Proof.
  destruct (decide (d = 0)) as [->|Hd].
  - destruct (decide (n = 0)) as [->|Hn].
    + left. apply Z.divide_0_r.
    + right. intros H. by apply Z.divide_0_l in H.
  - destruct (decide (n `mod` d = 0)) as [Hm|Hm].
    + left. by apply Z.mod_divide.
    + right. intros H. by apply Z.mod_divide in H.
Defined.

(** Every entry of the cache is what the sieve returns for its key: the
    only writer of the cache is [obtener_primos_hasta]. *)
Definition cache_coherente (c : cache) : Prop :=
  ∀ n primos, _cache_primos c !! n = Some primos →
    criba_eratostenes_segmentada n = Some primos
    ∧ _cache_set_primos c !! n = Some (list_to_set primos).

(** The cache after a call for bound [n]. *)
Definition cache_con (c : cache) (n : Z) (primos : list Z) : cache :=
  if bool_decide (is_Some (_cache_primos c !! n)) then c
  else {| _cache_primos := <[n := primos]> (_cache_primos c);
          _cache_set_primos :=
            <[n := list_to_set primos]> (_cache_set_primos c) |}.

(** The smaller members [p] of the prime pairs [p + q = n], [p ≤ q]. *)
Definition pares_goldbach (n : Z) : list Z :=
  filter (λ p, es_primo (n - p) = true) (primos_en 0 (n / 2 + 1)).

(** Search for one prime pair by trial division, stopping at the first. *)
Fixpoint buscar_par (n : Z) (candidatos : list Z) : bool :=
  match candidatos with
  | [] => false
  | p :: resto =>
      if es_primo p then
        if es_primo (n - p) then true else buscar_par n resto
      else buscar_par n resto
  end.

Definition tiene_par (n : Z) : bool :=
  buscar_par n (Py.range 2 (n / 2 + 1) 1).

(** The end of the last batch of [ls], or [u] when there is none. *)
Definition ultimo_tras (u : Z) (ls : list (Z * Z * bool)) : Z :=
  foldl (λ _ l, l.1.2) u ls.

(** Whether [n] is one of the numbers batch [l] goes through. *)
Definition en_lote (n : Z) (l : Z * Z * bool) : bool :=
  bool_decide (l.1.1 ≤ n ≤ l.1.2 ∧ n `mod` 2 = 0).



(** A checkpoint that stands two below [n_final]. *)
Definition progreso_casi_final : Progreso :=
  {| ultimo_n_verificado := 10 ^ 6 - 2;
     total_verificados := 0;
     total_cumple := 0;
     contraejemplos := [];
     tiempo_total := 0;
     inicio_sesion := "2025-11-01T00:00:00" |}.

(** A checkpoint that stands two below [n_final], with an accumulated
    time of [10^14] seconds. *)
Definition progreso_desbordado : Progreso :=
  {| ultimo_n_verificado := 10 ^ 6 - 2;
     total_verificados := 499948;
     total_cumple := 499948;
     contraejemplos := [];
     tiempo_total := 10 ^ 14;
     inicio_sesion := "2025-11-01T00:00:00" |}.

(** A checkpoint at 998 and a range that goes on to 2000. *)
Definition progreso_998 : Progreso :=
  {| ultimo_n_verificado := 998;
     total_verificados := 497;
     total_cumple := 497;
     contraejemplos := [];
     tiempo_total := 12;
     inicio_sesion := "2025-11-01T00:00:00" |}.


(** The batches of a whole run with [CONFIG] as shipped, three cores. *)
Definition lotes_por_defecto : list (Z * Z * bool) :=
  Eval vm_compute in default [] (despacho (CONFIG 4) 34 6).

(** A world in which the user interrupts the second round. *)
Definition mundo_interrumpido : Mundo :=
  {| reloj_inicial := 0;
     reloj_ronda := λ _, 0;
     cronometro := λ _, (0, 0);
     suceso_ronda :=
       λ k, if bool_decide (k = 1%nat) then Interrupcion else Normal;
     estimacion := λ _, true |}.

(** ** Vocabulary of the further properties *)

(** [n] is the sum of two primes. *)
Definition descomponible (n : Z) : Prop :=
  ∃ p q, Z.prime p ∧ Z.prime q ∧ p + q = n.

(** The minimum and maximum kept by the loop of a batch, against the
    numbers [hechos] gone through: at infinity and 0 when none of them has
    a representation; otherwise both attained among them, the minimum
    positive, and the count of every one that has a representation between
    the two. *)
Definition extremos_de (primos : list Z) (set_primos : gset Z)
    (hechos : list Z) (r : resultados) : Prop :=
  let rep n := contar_representaciones primos set_primos n 0 in
  match min_representaciones r with
  | Inf =>
      max_representaciones r = 0 ∧ ∀ n, n ∈ hechos → ¬ rep n > 0
  | Fin m =>
      (∃ n, n ∈ hechos ∧ rep n = m ∧ m > 0)
      ∧ (∃ n, n ∈ hechos ∧ rep n = max_representaciones r)
      ∧ ∀ n, n ∈ hechos → rep n > 0 →
             m ≤ rep n ≤ max_representaciones r
  end.

(** The batches of the first [k] rounds from [n_actual] on, and the value
    of [n_actual] after them. *)
Fixpoint rondas (cfg : Config) (k : nat) (n_actual : Z)
  : list (Z * Z * bool) * Z :=
  match k with
  | O => ([], n_actual)
  | S k' =>
      let '(batches, n_actual') :=
        preparar_batches cfg (Z.to_nat (num_cores cfg)) n_actual in
      let '(resto, n_final') := rondas cfg k' n_actual' in
      (batches ++ resto, n_final')
  end.

(** The numbers of [l] that are not the sum of two primes. *)
Definition sin_pares (l : list Z) : list Z :=
  filter (λ n, pares_goldbach n = []) l.

(** What a task returns, in terms of the numbers of its batch. *)
Definition resultado_de (args : Z * Z * bool) (r : resultados) : Prop :=
  rango r = (asegurar_par args.1.1, args.1.2)
  ∧ verificados r = Z.of_nat (length (numeros_del_lote args))
  ∧ no_cumple r = sin_pares (numeros_del_lote args)
  ∧ cumple r + Z.of_nat (length (sin_pares (numeros_del_lote args)))
    = Z.of_nat (length (numeros_del_lote args)).

(** The progress after the batches [ls] have been merged into [p]. *)
Definition progreso_tras (p : Progreso) (ls : list (Z * Z * bool))
    (p' : Progreso) : Prop :=
  ultimo_n_verificado p' = ultimo_tras (ultimo_n_verificado p) ls
  ∧ total_verificados p'
    = total_verificados p + Z.of_nat (length (numeros_verificados ls))
  ∧ contraejemplos p'
    = contraejemplos p ++ sin_pares (numeros_verificados ls)
  ∧ total_cumple p'
      + Z.of_nat (length (sin_pares (numeros_verificados ls)))
    = total_cumple p + Z.of_nat (length (numeros_verificados ls))
  ∧ inicio_sesion p' = inicio_sesion p.

(** Where the loop can stand between rounds: on an even number, or two
    past [n_final] after a batch that ended there. *)
Definition entre_rondas (cfg : Config) (n : Z) : Prop :=
  n `mod` 2 = 0 ∨ n = n_final cfg + 2.

(** A small range with batches of odd size, on two cores. *)
Definition config_impar : Config :=
  {| n_inicial := 6;
     n_final := 60;
     num_cores := 2;
     tamaño_batch := 9;
     intervalo_guardado := 3600 |}.

(** A session that the user interrupts in its second round. *)
Definition sesion_interrumpida : ejecucion :=
  Eval vm_compute in
    default (corte Fallida (progreso_por_defecto config_impar "") [])
      (verificacion_desde config_impar mundo_interrumpido 20
         (progreso_por_defecto config_impar "")).

(** A range that ends on an even number which the fourth round reaches,
    a world in which the user interrupts that round, and three sessions:
    the interrupted one, the one that resumes from what it saved, and one
    that does the whole range at once. *)
Definition config_borde : Config :=
  {| n_inicial := 6;
     n_final := 66;
     num_cores := 2;
     tamaño_batch := 9;
     intervalo_guardado := 3600 |}.

Definition mundo_cortado : Mundo :=
  {| reloj_inicial := 0;
     reloj_ronda := λ _, 0;
     cronometro := λ _, (0, 0);
     suceso_ronda :=
       λ k, if bool_decide (k = 3%nat) then Interrupcion else Normal;
     estimacion := λ _, true |}.

Definition sesion_borde_interrumpida : ejecucion :=
  Eval vm_compute in
    default (corte Fallida (progreso_por_defecto config_borde "") [])
      (verificacion_desde config_borde mundo_cortado 20
         (progreso_por_defecto config_borde "")).

Definition sesion_borde_reanudada : ejecucion :=
  Eval vm_compute in
    default (corte Fallida (progreso_por_defecto config_borde "") [])
      (verificacion_desde config_borde mundo_tranquilo 20
         (progreso_final sesion_borde_interrumpida)).

Definition sesion_borde_unica : ejecucion :=
  Eval vm_compute in
    default (corte Fallida (progreso_por_defecto config_borde "") [])
      (verificacion_desde config_borde mundo_tranquilo 20
         (progreso_por_defecto config_borde "")).

(** A set that yields 1031 right after 7, and the other members in
    ascending order after it. *)
Definition conjunto_desordenado (l : list Z) : list Z :=
  [2; 3; 5; 7; 1031] ++ filter (λ x, x ∉ [2; 3; 5; 7; 1031]) l.

(** A configuration whose batch size is negative. *)
Definition config_retroceso : Config :=
  {| n_inicial := 6;
     n_final := 60;
     num_cores := 2;
     tamaño_batch := -1;
     intervalo_guardado := 3600 |}.

(** A small range with batches of even size, and a whole run of it. *)
Definition config_par : Config :=
  {| n_inicial := 6;
     n_final := 60;
     num_cores := 2;
     tamaño_batch := 10;
     intervalo_guardado := 3600 |}.

Definition sesion_par : ejecucion :=
  Eval vm_compute in
    default (corte Fallida (progreso_por_defecto config_par "") [])
      (verificacion_desde config_par mundo_tranquilo 20
         (progreso_por_defecto config_par "")).

(** * Properties

    ** Ranges, loops and arrays *)

Section Rangos.

Lemma contar_desde_fmap (n : nat) (a s : Z) :
  Py.contar_desde n a s = (λ k : nat, a + Z.of_nat k * s) <$> seq 0 n.
Proof.
  revert a. induction n as [|n IH]; intros a; [done|].
  simpl. f_equal; [lia|]. rewrite IH, <- fmap_S_seq, <- list_fmap_compose.
  apply list_fmap_ext. intros _ k _. simpl. lia.
Qed.

Lemma range_fmap (a b s : Z) :
  Py.range a b s
  = (λ k : nat, a + Z.of_nat k * s)
      <$> seq 0 (Z.to_nat ((b - a + s - 1) / s)).
Proof. apply contar_desde_fmap. Qed.

Lemma range_length a b s : length (Py.range a b s) = Z.to_nat ((b - a + s - 1) / s).
Proof. rewrite range_fmap. by rewrite length_fmap, length_seq. Qed.

Lemma range_lookup a b s (k : nat) x :
  Py.range a b s !! k = Some x → x = a + Z.of_nat k * s.
Proof.
  rewrite range_fmap, list_lookup_fmap.
  intros H. apply fmap_Some in H as (j & Hj & ->).
  apply lookup_seq in Hj as [-> _]. done.
Qed.

Lemma techo_lt (k d s : Z) : 0 < s → (k < (d + s - 1) / s ↔ k * s < d).
Proof.
  intros Hs. split; intros H.
  - assert (k + 1 ≤ (d + s - 1) / s) as H1 by lia.
    assert (s * (k + 1) ≤ d + s - 1); [|lia].
    etrans; [apply Z.mul_le_mono_nonneg_l; [lia|exact H1]|].
    apply Z.mul_div_le. lia.
  - apply Z.div_le_lower_bound with (a := d + s - 1) (b := s) (q := k + 1) in Hs as H2; lia.
Qed.

Lemma elem_of_range a b s x :
  0 < s → x ∈ Py.range a b s ↔ a ≤ x < b ∧ (x - a) `mod` s = 0.
Proof.
  intros Hs. rewrite range_fmap, list_elem_of_fmap. split.
  - intros (k & -> & Hk). apply elem_of_seq in Hk.
    assert (Z.of_nat k < (b - a + s - 1) / s) as Hlt by lia.
    apply techo_lt in Hlt; [|done].
    split; [nia|].
    replace (a + Z.of_nat k * s - a) with (Z.of_nat k * s) by lia.
    by apply Z.mod_mul; lia.
  - intros [[Ha Hb] Hm].
    apply Z.mod_divide in Hm as [q Hq]; [|lia].
    assert (0 ≤ q) by nia.
    exists (Z.to_nat q). split; [lia|].
    apply elem_of_seq. split; [lia|].
    assert (q < (b - a + s - 1) / s); [|lia].
    apply techo_lt; [done|lia].
Qed.

End Rangos.

Lemma range_vacio a b s : 0 < s → b ≤ a → Py.range a b s = [].
Proof.
  intros Hs Hba. apply length_zero_iff_nil. rewrite range_length.
  assert ((b - a + s - 1) / s ≤ 0); [|lia].
  assert ((b - a + s - 1) / s < 1); [|lia].
  apply Z.div_lt_upper_bound; lia.
Qed.

Lemma range_cons a b s :
  0 < s → a < b → Py.range a b s = a :: Py.range (a + s) b s.
Proof.
  intros Hs Hab. rewrite !range_fmap.
  replace (b - a + s - 1) with ((b - (a + s) + s - 1) + 1 * s) by lia.
  rewrite Z.div_add by lia.
  assert (0 ≤ (b - (a + s) + s - 1) / s) by (apply Z.div_pos; lia).
  rewrite Z2Nat.inj_add by lia. change (Z.to_nat 1) with 1%nat.
  rewrite Nat.add_comm. simpl. f_equal; [lia|].
  rewrite <- fmap_S_seq, <- list_fmap_compose.
  apply list_fmap_ext. intros _ k _. simpl. lia.
Qed.

Lemma range_app a b c : a ≤ b ≤ c → Py.range a c 1 = Py.range a b 1 ++ Py.range b c 1.
Proof.
  intros [Hab Hbc].
  assert (∃ n : nat, b = a + Z.of_nat n) as [n ->] by (exists (Z.to_nat (b - a)); lia).
  clear Hab. revert a Hbc. induction n as [|n IH]; intros a Hbc.
  - replace (a + Z.of_nat 0) with a by lia. by rewrite (range_vacio a a) by lia.
  - rewrite (range_cons a c), (range_cons a (a + Z.of_nat (S n))) by lia.
    simpl. f_equal.
    replace (a + Z.of_nat (S n)) with (a + 1 + Z.of_nat n) in * by lia.
    apply IH. lia.
Qed.

Lemma range_ordenado a b s : 0 < s → StronglySorted Z.lt (Py.range a b s).
Proof.
  intros Hs.
  assert (∃ n : nat, length (Py.range a b s) = n) as [n Hn] by eauto.
  revert a Hn. induction n as [|n IH]; intros a Hn.
  - apply length_zero_iff_nil in Hn as ->. constructor.
  - destruct (decide (a < b)) as [Hab|Hab].
    + rewrite range_cons in * by lia. simpl in Hn. constructor.
      * apply IH. lia.
      * apply Forall_forall. intros x Hx. apply elem_of_range in Hx; lia.
    + rewrite range_vacio by lia. constructor.
Qed.

Section Bucles.

Context {S A : Type}.

Lemma posicion_en_rango (len : nat) (i : Z) :
  0 ≤ i < Z.of_nat len → Py.posicion len i = Some (Z.to_nat i).
Proof. intros H. unfold Py.posicion. by rewrite bool_decide_true. Qed.

Lemma asignar_en_rango (l : list A) (i : Z) (v : A) :
  0 ≤ i < Z.of_nat (length l) →
  Py.asignar l i v = Some (<[Z.to_nat i := v]> l).
Proof. intros H. unfold Py.asignar. by rewrite posicion_en_rango. Qed.

Lemma leer_en_rango (l : list A) (i : Z) :
  0 ≤ i < Z.of_nat (length l) → Py.leer l i = l !! Z.to_nat i.
Proof. intros H. unfold Py.leer. by rewrite posicion_en_rango. Qed.

(** The invariant rule of a [for] loop: [I hechos s] relates the state to
    the elements already gone through. *)
Lemma para_invariante (I : list A → S → Prop) (cuerpo : S → A → option S)
    (xs : list A) (s : S) :
  I [] s →
  (∀ hechos x resto s,
      xs = hechos ++ x :: resto → I hechos s →
      ∃ s', cuerpo s x = Some s' ∧ I (hechos ++ [x]) s') →
  ∃ s', Py.para xs cuerpo s = Some s' ∧ I xs s'.
Proof.
  intros H0 Hpaso.
  cut (∀ resto hechos s, xs = hechos ++ resto → I hechos s →
         ∃ s', Py.para resto cuerpo s = Some s' ∧ I xs s').
  { intros Hgen. by apply (Hgen xs []). }
  induction resto as [|x resto IH]; intros hechos s0 Hxs HI.
  - rewrite app_nil_r in Hxs. subst. by exists s0.
  - destruct (Hpaso hechos x resto s0 Hxs HI) as (s' & Hc & HI').
    simpl. rewrite Hc. simpl. apply (IH (hechos ++ [x])); [|done].
    by rewrite <- app_assoc.
Qed.

End Bucles.

Lemma marcado_insert_false (a : list bool) (i k : Z) :
  0 ≤ i →
  marcado (<[Z.to_nat i := false]> a) k ↔ marcado a k ∧ k ≠ i.
Proof.
  intros Hi. unfold marcado.
  destruct (decide (k = i)) as [->|Hne].
  - split; [|tauto]. intros [_ H].
    destruct (decide (Z.to_nat i < length a)%nat) as [Hlt|Hge].
    + rewrite list_lookup_insert_eq in H by done. discriminate.
    + rewrite list_insert_ge in H by lia.
      apply lookup_lt_Some in H. lia.
  - split.
    + intros [Hk H]. rewrite list_lookup_insert_ne in H by lia. done.
    + intros [[Hk H] _]. split; [done|].
      rewrite list_lookup_insert_ne by lia. done.
Qed.

Lemma marcado_lt (a : list bool) (k : Z) :
  marcado a k → 0 ≤ k < Z.of_nat (length a).
Proof. intros [Hk H]. apply lookup_lt_Some in H. lia. Qed.

(** [tachar] clears exactly the entries its range designates. *)
Lemma tachar_spec (arr : list bool) (desde hasta paso base : Z) :
  0 < paso → base ≤ desde → hasta ≤ base + Z.of_nat (length arr) →
  ∃ arr', tachar arr desde hasta paso base = Some arr'
    ∧ length arr' = length arr
    ∧ ∀ k, marcado arr' k
           ↔ marcado arr k ∧ base + k ∉ Py.range desde hasta paso.
Proof.
  intros Hp Hb Hh. unfold tachar.
  destruct (para_invariante
    (λ hechos a, length a = length arr
                 ∧ ∀ k, marcado a k ↔ marcado arr k ∧ base + k ∉ hechos)
    (λ a j, Py.asignar a (j - base) false)
    (Py.range desde hasta paso) arr) as (arr' & Hrun & Hlen & Hm).
  - split; [done|]. intros k. rewrite elem_of_nil. tauto.
  - intros hechos x resto a Hxs [Hlen Hm].
    assert (x ∈ Py.range desde hasta paso) as Hx.
    { rewrite Hxs. apply elem_of_app. right. left. }
    apply elem_of_range in Hx as [Hx _]; [|done].
    exists (<[Z.to_nat (x - base) := false]> a). split.
    + apply asignar_en_rango. lia.
    + split; [by rewrite length_insert|].
      intros k. rewrite marcado_insert_false by lia.
      rewrite Hm, elem_of_app, list_elem_of_singleton.
      split.
      * intros [[? ?] ?]. split; [done|]. intros [?|?]; [done|lia].
      * intros [? Hno]. split; [split; [done|]|]; intros ?; apply Hno; [by left|right; lia].
  - exists arr'. done.
Qed.

Lemma seleccionar_spec (arr : list bool) (base : Z) (indices : list Z) :
  Forall (λ i, 0 ≤ i < Z.of_nat (length arr)) indices →
  Py.seleccionar arr base indices
  = Some (filter (λ x, marcado arr (x - base)) ((λ i, base + i) <$> indices)).
Proof.
  induction 1 as [|i indices Hi _ IH]; [done|].
  simpl. rewrite leer_en_rango by done.
  destruct (lookup_lt_is_Some_2 arr (Z.to_nat i)) as [b Hb]; [lia|].
  rewrite Hb, IH. simpl. f_equal.
  rewrite filter_cons. replace (base + i - base) with i by lia.
  destruct b.
  - rewrite decide_True; [done|]. split; [lia|done].
  - rewrite decide_False; [done|]. intros [_ ?]. congruence.
Qed.

Lemma range_desplazado (base n : Z) :
  (λ i, base + i) <$> Py.range 0 n 1 = Py.range base (base + n) 1.
Proof.
  rewrite !range_fmap, <- list_fmap_compose.
  replace (base + n - base + 1 - 1) with (n - 0 + 1 - 1) by lia.
  apply list_fmap_ext. intros _ k _. simpl. lia.
Qed.

Lemma seleccionar_todo (arr : list bool) (base : Z) :
  Py.seleccionar arr base (Py.range 0 (Z.of_nat (length arr)) 1)
  = Some (filter (λ x, marcado arr (x - base))
                 (Py.range base (base + Z.of_nat (length arr)) 1)).
Proof.
  rewrite seleccionar_spec, range_desplazado; [done|].
  apply Forall_forall. intros i Hi. apply elem_of_range in Hi; lia.
Qed.

Lemma filter_ext_elem {A} (P Q : A → Prop) `{!∀ x, Decision (P x)}
    `{!∀ x, Decision (Q x)} (l : list A) :
  (∀ x, x ∈ l → P x ↔ Q x) → filter P l = filter Q l.
Proof.
  induction l as [|x l IH]; intros Hext; [done|].
  rewrite !filter_cons.
  rewrite IH by (intros y Hy; apply Hext; by right).
  pose proof (Hext x (list_elem_of_here _ _)) as Hx.
  destruct (decide (P x)), (decide (Q x)); tauto || done.
Qed.

Lemma filter_todos {A} (P : A → Prop) `{!∀ x, Decision (P x)} (l : list A) :
  (∀ x, x ∈ l → P x) → filter P l = l.
Proof.
  induction l as [|x l IH]; intros Hl; [done|].
  rewrite filter_cons, decide_True by (apply Hl; left).
  f_equal. apply IH. intros y Hy. apply Hl. by right.
Qed.

Lemma filter_ordenado (P : Z → Prop) `{!∀ x, Decision (P x)} (l : list Z) :
  StronglySorted Z.lt l → StronglySorted Z.lt (filter P l).
Proof.
  induction 1 as [|x l Hl IH Hx]; [constructor|].
  rewrite filter_cons. destruct (decide (P x)); [|done].
  constructor; [done|].
  apply Forall_forall. intros y Hy. apply list_elem_of_filter in Hy as [_ Hy].
  by eapply Forall_forall in Hx.
Qed.

(** ** Primes *)

Lemma primo_sin_divisores (k : Z) :
  Z.prime k ↔ 2 ≤ k ∧ ∀ d, 2 ≤ d → d * d ≤ k → ¬ (d | k).
Proof.
  split.
  - intros [Hk Hnd]. split; [lia|]. intros d Hd Hdd. apply Hnd. nia.
  - intros [Hk Hnd]. split; [lia|]. intros d Hd [e He].
    assert (2 ≤ e) by nia.
    destruct (decide (d ≤ e)).
    + apply (Hnd d); [lia|nia|]. by exists e.
    + apply (Hnd e); [lia|nia|]. exists d. lia.
Qed.

Lemma es_primo_spec (n : Z) : es_primo n = true ↔ Z.prime n.
Proof.
  unfold es_primo. rewrite primo_sin_divisores, andb_true_iff.
  rewrite bool_decide_eq_true, forallb_forall.
  split; intros [Hn H]; (split; [done|]).
  - intros d Hd Hdd Hdiv.
    assert (d ≤ Z.sqrt n) by (apply Z.sqrt_le_square; lia).
    specialize (H d). rewrite <- list_elem_of_In, elem_of_range in H by lia.
    rewrite Z.mod_1_r, negb_true_iff, bool_decide_eq_false in H.
    apply H; [lia|]. apply Z.mod_divide; [lia|done].
  - intros d Hd. rewrite <- list_elem_of_In, elem_of_range in Hd by lia.
    rewrite negb_true_iff, bool_decide_eq_false. intros Hm.
    apply (H d); [lia| |apply Z.mod_divide; [lia|done]].
    apply Z.sqrt_le_square; lia.
Qed.

Lemma primo_decidible (n : Z) : Decision (Z.prime n).
Proof.
  destruct (es_primo n) eqn:H.
  - left. by apply es_primo_spec.
  - right. rewrite <- es_primo_spec. congruence.
Qed.

Lemma elem_of_primos_en a b p : p ∈ primos_en a b ↔ Z.prime p ∧ a ≤ p < b.
Proof.
  unfold primos_en.
  rewrite list_elem_of_filter, elem_of_range, es_primo_spec by lia.
  rewrite Z.mod_1_r. tauto.
Qed.

Lemma primos_en_app a b c :
  a ≤ b ≤ c → primos_en a c = primos_en a b ++ primos_en b c.
Proof.
  intros H. unfold primos_en. by rewrite (range_app a b c), filter_app.
Qed.

Lemma primos_en_ordenado a b : StronglySorted Z.lt (primos_en a b).
Proof. apply filter_ordenado, range_ordenado. lia. Qed.

Lemma primos_en_bajo_2 b : b ≤ 2 → primos_en 0 b = [].
Proof.
  intros Hb. apply elem_of_nil_inv. intros p Hp.
  apply elem_of_primos_en in Hp as [Hp ?]. apply Z.prime_ge_2 in Hp. lia.
Qed.

Lemma divisor_primo (n : Z) : 2 ≤ n → ∃ p, Z.prime p ∧ (p | n).
Proof.
  intros Hn. assert (0 ≤ n) as H0 by lia. revert Hn.
  pattern n. apply Z_lt_induction; [|done].
  clear n H0. intros n IH Hn.
  destruct (primo_decidible n) as [Hp|Hnp].
  - exists n. split; [done|]. apply Z.divide_refl.
  - rewrite primo_sin_divisores in Hnp.
    destruct (decide (Exists (λ d, (d | n)) (Py.range 2 n 1))) as [Hex|Hno].
    + apply Exists_exists in Hex as (d & Hd & Hdn).
      apply elem_of_range in Hd; [|lia].
      destruct (IH d) as (p & Hp & Hpd); [lia|lia|].
      exists p. split; [done|]. by apply Z.divide_trans with d.
    + exfalso. apply Hnp. split; [done|]. intros d Hd Hdd Hdn.
      apply Hno, Exists_exists. exists d. split; [|done].
      apply elem_of_range; [lia|]. rewrite Z.mod_1_r. nia.
Qed.

Lemma compuesto_divisor_pequeño (n : Z) :
  2 ≤ n → ¬ Z.prime n → ∃ p, Z.prime p ∧ p * p ≤ n ∧ (p | n).
Proof.
  intros Hn Hnp.
  destruct (decide (Exists (λ d, d * d ≤ n ∧ (d | n)) (Py.range 2 n 1)))
    as [Hex|Hno].
  - apply Exists_exists in Hex as (d & Hd & Hdd & Hdn).
    apply elem_of_range in Hd; [|lia].
    destruct (divisor_primo d) as (p & Hp & Hpd); [lia|].
    exists p. split; [done|].
    assert (p ≤ d) by (apply Z.divide_pos_le; [lia|done]).
    apply Z.prime_ge_2 in Hp as Hp2.
    split; [nia|]. by apply Z.divide_trans with d.
  - exfalso. apply Hnp, primo_sin_divisores. split; [done|].
    intros d Hd Hdd Hdn. apply Hno, Exists_exists. exists d.
    split; [|done]. apply elem_of_range; [lia|]. rewrite Z.mod_1_r. nia.
Qed.

(** ** The sieves compute the primes *)

Lemma marcado_replicate (n : nat) (k : Z) :
  marcado (replicate n true) k ↔ 0 ≤ k < Z.of_nat n.
Proof.
  unfold marcado. rewrite lookup_replicate. split; [lia|].
  intros ?. split; [lia|]. split; [done|lia].
Qed.

Lemma criba_clasica_spec (tam raiz : Z) :
  2 ≤ tam → 0 ≤ raiz < tam → tam ≤ (raiz + 1) * (raiz + 1) →
  ∃ arr, criba_clasica tam raiz = Some arr
    ∧ length arr = Z.to_nat tam
    ∧ ∀ k, marcado arr k ↔ k < tam ∧ Z.prime k.
Proof.
  intros Htam Hraiz Hcota. unfold criba_clasica.
  rewrite asignar_en_rango by (rewrite length_replicate; lia). simpl.
  rewrite asignar_en_rango
    by (rewrite length_insert, length_replicate; lia). simpl.
  set (arr0 := <[Z.to_nat 1:=false]>
                 (<[Z.to_nat 0:=false]> (replicate (Z.to_nat tam) true))).
  assert (∀ k, marcado arr0 k ↔ 2 ≤ k < tam) as Harr0.
  { intros k. unfold arr0.
    rewrite !marcado_insert_false, marcado_replicate by lia. lia. }
  destruct (para_invariante
    (λ hechos a, length a = Z.to_nat tam
       ∧ ∀ k, marcado a k
              ↔ 2 ≤ k < tam ∧ ∀ d, d ∈ hechos → d * d ≤ k → ¬ (d | k))
    (λ es_primo i,
       b ← Py.leer es_primo i;
       if b : bool then tachar es_primo (i * i) tam i 0 else Some es_primo)
    (Py.range 2 (raiz + 1) 1) arr0) as (arr & Hrun & Hlen & Hm).
  - split.
    + unfold arr0. by rewrite !length_insert, length_replicate.
    + intros k. rewrite Harr0. split; [|tauto].
      intros ?. split; [done|]. intros d Hd. by apply elem_of_nil in Hd.
  - intros hechos x resto a Hxs [Hlen Hm].
    assert (x ∈ Py.range 2 (raiz + 1) 1) as Hx.
    { rewrite Hxs. apply elem_of_app. right. left. }
    apply elem_of_range in Hx as [Hx _]; [|lia].
    rewrite leer_en_rango by lia.
    destruct (lookup_lt_is_Some_2 a (Z.to_nat x)) as [b Hb]; [lia|].
    rewrite Hb. simpl. destruct b.
    + destruct (tachar_spec a (x * x) tam x 0) as (a' & -> & Hlen' & Hm');
        [lia|nia|lia|].
      exists a'. split; [done|]. split; [congruence|].
      intros k. rewrite Hm', Hm. rewrite elem_of_range by lia.
      replace (0 + k - x * x) with (k + (- x) * x) by lia.
      rewrite Z.mod_add by lia.
      split.
      * intros [[Hk Hd] Hno]. split; [done|].
        intros d Hin Hdd Hdiv. apply elem_of_app in Hin as [Hin|Hin].
        -- by apply (Hd d).
        -- apply list_elem_of_singleton in Hin as ->. apply Hno.
           split; [lia|]. apply Z.mod_divide; [lia|done].
      * intros [Hk Hd]. split; [split; [done|]|].
        -- intros d Hin. apply Hd, elem_of_app. by left.
        -- intros [Hr Hmod]. apply (Hd x); [|lia|].
           ++ apply elem_of_app. right. by left.
           ++ apply Z.mod_divide; [lia|done].
    + exists a. split; [done|]. split; [done|].
      assert (¬ marcado a x) as Hnx.
      { intros [_ H]. congruence. }
      rewrite Hm in Hnx.
      assert (∃ d, d ∈ hechos ∧ d * d ≤ x ∧ (d | x)) as (d0 & Hin0 & Hdd0 & Hdiv0).
      { destruct (decide (Exists (λ d, d * d ≤ x ∧ (d | x)) hechos))
          as [Hex|Hno].
        - apply Exists_exists in Hex. naive_solver.
        - exfalso. apply Hnx. split; [lia|]. intros d Hin Hdd Hdiv.
          apply Hno, Exists_exists. by exists d. }
      intros k. rewrite Hm. split.
      * intros [Hk Hd]. split; [done|].
        intros d Hin Hdd Hdiv. apply elem_of_app in Hin as [Hin|Hin].
        -- by apply (Hd d).
        -- apply list_elem_of_singleton in Hin as ->.
           apply (Hd d0); [done|nia|]. by apply Z.divide_trans with x.
      * intros [Hk Hd]. split; [done|].
        intros d Hin. apply Hd, elem_of_app. by left.
  - exists arr. split; [done|]. split; [done|].
    intros k. rewrite Hm, primo_sin_divisores. split.
    + intros [Hk Hd]. split; [lia|]. split; [lia|].
      intros d Hd2 Hdd. apply Hd; [|done].
      apply elem_of_range; [lia|]. rewrite Z.mod_1_r. nia.
    + intros [Hk [Hk2 Hd]]. split; [lia|].
      intros d Hin. apply elem_of_range in Hin; [|lia]. apply Hd. lia.
Qed.

Lemma raiz_cotas (n : Z) :
  0 ≤ n → 0 ≤ Z.sqrt n ∧ Z.sqrt n * Z.sqrt n ≤ n
          ∧ n < (Z.sqrt n + 1) * (Z.sqrt n + 1).
Proof.
  intros Hn. pose proof (Z.sqrt_spec n Hn) as H. cbv zeta in H.
  pose proof (Z.sqrt_nonneg n). lia.
Qed.

Lemma seleccionar_primos (arr : list bool) (tam : Z) :
  0 ≤ tam → length arr = Z.to_nat tam →
  (∀ k, marcado arr k ↔ k < tam ∧ Z.prime k) →
  Py.seleccionar arr 0 (Py.range 0 tam 1) = Some (primos_en 0 tam).
Proof.
  intros Htam Hlen Hm.
  replace tam with (Z.of_nat (length arr)) at 1 by lia.
  rewrite seleccionar_todo. f_equal. unfold primos_en.
  replace (0 + Z.of_nat (length arr)) with tam by lia.
  apply filter_ext_elem. intros x Hx. apply elem_of_range in Hx; [|lia].
  rewrite Hm, es_primo_spec. replace (x - 0) with x by lia. intuition lia.
Qed.

(** The flat sieve returns the primes up to its limit, whatever the limit. *)
Lemma criba_eratostenes_simple_spec (limite : Z) :
  criba_eratostenes_simple limite = Some (primos_en 0 (limite + 1)).
Proof.
  unfold criba_eratostenes_simple. case_bool_decide as Hl.
  - by rewrite primos_en_bajo_2 by lia.
  - destruct (raiz_cotas limite) as (Hr0 & Hr1 & Hr2); [lia|].
    destruct (criba_clasica_spec (limite + 1) (Z.sqrt limite))
      as (arr & -> & Hlen & Hm); [lia|nia|lia|].
    simpl. apply seleccionar_primos; [lia|done|done].
Qed.

Lemma primer_multiplo_spec (inicio p : Z) :
  0 < p < inicio →
  inicio ≤ primer_multiplo inicio p < inicio + p
  ∧ (p | primer_multiplo inicio p).
Proof.
  intros Hp. unfold primer_multiplo.
  pose proof (Z.div_mod (inicio + p - 1) p ltac:(lia)) as Hdm.
  pose proof (Z.mod_pos_bound (inicio + p - 1) p ltac:(lia)) as Hmb.
  assert (inicio ≤ (inicio + p - 1) / p * p < inicio + p) as Hm by nia.
  set (m := (inicio + p - 1) / p * p) in *.
  rewrite (bool_decide_false (m < inicio)) by lia.
  rewrite bool_decide_false by lia.
  split; [done|]. by exists ((inicio + p - 1) / p).
Qed.

Lemma multiplo_en_rango (inicio fin p n : Z) :
  0 < p < inicio → inicio ≤ n < fin →
  n ∈ Py.range (primer_multiplo inicio p) fin p ↔ (p | n).
Proof.
  intros Hp Hn.
  destruct (primer_multiplo_spec inicio p Hp) as [Hm [q Hq]].
  rewrite elem_of_range by lia. rewrite Hq in *.
  replace (n - q * p) with (n + (- q) * p) by lia.
  rewrite Z.mod_add by lia. split.
  - intros [_ H]. apply Z.mod_divide; [lia|done].
  - intros [e He]. split; [|subst n; apply Z.mod_mul; lia].
    split; [|lia]. subst n.
    assert (q - 1 < e) by (apply Z.mul_lt_mono_pos_r with p; lia).
    apply Z.mul_le_mono_nonneg_r; lia.
Qed.

Lemma cribar_segmento_spec (primos_pequeños : list Z) (s inicio fin : Z) :
  (∀ p, p ∈ primos_pequeños ↔ Z.prime p ∧ p ≤ s) →
  1 ≤ s < inicio → inicio ≤ fin → fin ≤ (s + 1) * (s + 1) →
  cribar_segmento primos_pequeños inicio fin = Some (primos_en inicio fin).
Proof.
  intros Hpp Hs Hfin Hcota. unfold cribar_segmento.
  destruct (para_invariante
    (λ hechos seg, length seg = Z.to_nat (fin - inicio)
       ∧ ∀ k, marcado seg k
              ↔ 0 ≤ k < fin - inicio
                ∧ ∀ p, p ∈ hechos → ¬ (p | inicio + k))
    (λ seg p, tachar seg (primer_multiplo inicio p) fin p inicio)
    primos_pequeños (replicate (Z.to_nat (fin - inicio)) true))
    as (seg & -> & Hlen & Hm).
  - split; [by rewrite length_replicate|].
    intros k. rewrite marcado_replicate. split; [|lia].
    intros ?. split; [lia|]. intros p Hp. by apply elem_of_nil in Hp.
  - intros hechos p resto seg Hxs [Hlen Hm].
    assert (Z.prime p ∧ p ≤ s) as [Hp Hps].
    { apply Hpp. rewrite Hxs. apply elem_of_app. right. left. }
    apply Z.prime_ge_2 in Hp as Hp2.
    destruct (primer_multiplo_spec inicio p) as [Hpm _]; [lia|].
    destruct (tachar_spec seg (primer_multiplo inicio p) fin p inicio)
      as (seg' & -> & Hlen' & Hm'); [lia|lia|lia|].
    exists seg'. split; [done|]. split; [congruence|].
    intros k. rewrite Hm', Hm. split.
    + intros [[Hk Hd] Hno]. split; [done|].
      intros d Hin Hdiv. apply elem_of_app in Hin as [Hin|Hin].
      * by apply (Hd d).
      * apply list_elem_of_singleton in Hin as ->. apply Hno.
        apply multiplo_en_rango; [lia|lia|done].
    + intros [Hk Hd]. split; [split; [done|]|].
      * intros d Hin. apply Hd, elem_of_app. by left.
      * intros Hin. apply multiplo_en_rango in Hin; [|lia|lia].
        apply (Hd p); [|done]. apply elem_of_app. right. by left.
  - simpl. rewrite seleccionar_todo. f_equal. unfold primos_en.
    replace (inicio + Z.of_nat (length seg)) with fin by lia.
    apply filter_ext_elem. intros x Hx. apply elem_of_range in Hx; [|lia].
    rewrite Hm, es_primo_spec.
    replace (inicio + (x - inicio)) with x by lia. split.
    + intros [_ Hd]. destruct (primo_decidible x) as [|Hnp]; [done|].
      apply compuesto_divisor_pequeño in Hnp as (p & Hp & Hpp2 & Hpx);
        [|lia].
      exfalso. apply (Hd p); [|done]. apply Hpp. split; [done|].
      apply Z.prime_ge_2 in Hp. nia.
    + intros Hx2. split; [lia|]. intros p Hin Hdiv.
      apply Hpp in Hin as [Hp Hps].
      apply Z.prime_ge_2 in Hp as Hp2.
      destruct Hx2 as [_ Hx2]. apply (Hx2 p); [lia|done].
Qed.

Lemma range_length_cubre (a b s : Z) :
  0 < s → b ≤ a + Z.of_nat (length (Py.range a b s)) * s.
Proof.
  intros Hs. rewrite range_length.
  destruct (decide (b ≤ a)) as [|Hab].
  - assert (0 ≤ Z.of_nat (Z.to_nat ((b - a + s - 1) / s)) * s) by nia. lia.
  - assert (0 ≤ (b - a + s - 1) / s) by (apply Z.div_pos; lia).
    rewrite Z2Nat.id by done.
    pose proof (techo_lt ((b - a + s - 1) / s) (b - a) s Hs). lia.
Qed.

(** From 3 on, the segmented sieve returns the primes up to its limit. *)
Lemma criba_eratostenes_segmentada_spec (limite : Z) :
  3 ≤ limite →
  criba_eratostenes_segmentada limite = Some (primos_en 0 (limite + 1)).
Proof.
  intros Hl. unfold criba_eratostenes_segmentada.
  rewrite bool_decide_false by lia.
  destruct (raiz_cotas limite) as (Hs0 & Hs1 & Hs2); [lia|].
  set (s := Z.sqrt limite) in *.
  assert (1 ≤ s) as Hs by nia.
  destruct (raiz_cotas (s + 1)) as (Hr0 & Hr1 & Hr2); [lia|].
  destruct (criba_clasica_spec (s + 1) (Z.sqrt (s + 1)))
    as (arr & -> & Hlen & Hm); [lia|nia|lia|].
  simpl. rewrite (seleccionar_primos arr (s + 1)) by (done || lia). simpl.
  rewrite bool_decide_false by nia.
  assert (0 < 10 ^ 6) as H6 by done.
  set (seg := Z.min (s + 1) (10 ^ 6)).
  assert (0 < seg) as Hseg by (unfold seg; lia).
  assert (∀ p, p ∈ primos_en 0 (s + 1) ↔ Z.prime p ∧ p ≤ s) as Hpp.
  { intros p. rewrite elem_of_primos_en. split; [intros [? ?]; split; [done|lia]|].
    intros [Hp ?]. split; [done|]. apply Z.prime_ge_2 in Hp. lia. }
  destruct (para_invariante
    (λ hechos primos,
       primos = primos_en 0 (Z.min (s + 1 + Z.of_nat (length hechos) * seg)
                                   (limite + 1)))
    (λ primos inicio,
       nuevos ← cribar_segmento (primos_en 0 (s + 1)) inicio
                  (Z.min (inicio + seg) (limite + 1));
       Some (primos ++ nuevos))
    (Py.range (s + 1) (limite + 1) seg) (primos_en 0 (s + 1)))
    as (primos & -> & ->).
  - simpl. f_equal. nia.
  - intros hechos x resto primos Hxs ->.
    assert (x = s + 1 + Z.of_nat (length hechos) * seg) as Hx.
    { apply (range_lookup (s + 1) (limite + 1) seg (length hechos)).
      rewrite Hxs. by rewrite list_lookup_middle. }
    assert (x < limite + 1) as Hxl.
    { assert (x ∈ Py.range (s + 1) (limite + 1) seg) as Hin.
      { rewrite Hxs. apply elem_of_app. right. left. }
      apply elem_of_range in Hin; lia. }
    simpl.
    rewrite (cribar_segmento_spec _ s) by (done || nia).
    simpl. eexists. split; [done|].
    rewrite length_app. simpl.
    rewrite <- Hx. rewrite Z.min_l by lia.
    replace (s + 1 + Z.of_nat (length hechos + 1) * seg) with (x + seg) by lia.
    symmetry. apply primos_en_app. lia.
  - f_equal. f_equal.
    pose proof (range_length_cubre (s + 1) (limite + 1) seg Hseg). lia.
Qed.

Example criba_segmentada_de_2 : criba_eratostenes_segmentada 2 = Some [].
Proof. reflexivity. Qed.

Example criba_segmentada_de_0_1_3 :
  criba_eratostenes_segmentada 0 = Some []
  ∧ criba_eratostenes_segmentada 1 = Some []
  ∧ criba_eratostenes_segmentada 3 = Some [2; 3].
Proof. by vm_compute. Qed.

(** Limit 6: the segments are [[3, 6)] and [[6, 7)], the limit is the
    start of the last one. *)
Example criba_segmentada_de_6 :
  criba_eratostenes_segmentada 6 = Some [2; 3; 5].
Proof. by vm_compute. Qed.

Example criba_segmentada_de_100 :
  criba_eratostenes_segmentada 100
  = Some [2; 3; 5; 7; 11; 13; 17; 19; 23; 29; 31; 37; 41; 43; 47; 53; 59;
          61; 67; 71; 73; 79; 83; 89; 97].
Proof. by vm_compute. Qed.

Example criba_simple_de_30 :
  criba_eratostenes_simple 30 = Some [2; 3; 5; 7; 11; 13; 17; 19; 23; 29].
Proof. by vm_compute. Qed.

(** The segmented sieve never raises; its value for every limit. *)
Lemma criba_eratostenes_segmentada_valor (limite : Z) :
  criba_eratostenes_segmentada limite
  = Some (if bool_decide (limite = 2) then []
          else primos_en 0 (limite + 1)).
Proof.
  case_bool_decide as H2; [by subst|].
  destruct (decide (limite < 2)) as [Hlt|Hge].
  - unfold criba_eratostenes_segmentada. rewrite bool_decide_true by done.
    by rewrite primos_en_bajo_2 by lia.
  - apply criba_eratostenes_segmentada_spec. lia.
Qed.

(** ** Prime cache and batch verifier *)

Lemma cache_vacio_coherente : cache_coherente cache_vacio.
Proof. intros n primos H. simpl in H. by rewrite lookup_empty in H. Qed.

Lemma cache_con_coherente (c : cache) (n : Z) (primos : list Z) :
  cache_coherente c → criba_eratostenes_segmentada n = Some primos →
  cache_coherente (cache_con c n primos).
Proof.
  intros Hc Hn. unfold cache_con. case_bool_decide; [done|].
  intros m ps. simpl. destruct (decide (n = m)) as [->|Hne].
  - rewrite !lookup_insert_eq. intros [= <-]. done.
  - rewrite !lookup_insert_ne by done. apply Hc.
Qed.

Lemma obtener_primos_hasta_spec (c : cache) (n : Z) :
  cache_coherente c →
  ∃ primos, criba_eratostenes_segmentada n = Some primos
    ∧ obtener_primos_hasta c n
      = Some (primos, list_to_set primos, cache_con c n primos).
Proof.
  intros Hc. unfold obtener_primos_hasta, cache_con.
  case_bool_decide as Hin.
  - destruct Hin as [primos Hp]. destruct (Hc n primos Hp) as [Hcr Hset].
    exists primos. split; [done|]. simpl. by rewrite Hp, Hset.
  - rewrite criba_eratostenes_segmentada_valor. eexists. split; [done|].
    simpl. by rewrite !lookup_insert_eq.
Qed.

Lemma verificar_goldbach_rango_spec (c : cache) (t0 t1 : Z)
    (args : Z * Z * bool) :
  cache_coherente c →
  ∃ primos, criba_eratostenes_segmentada args.1.2 = Some primos
    ∧ verificar_goldbach_rango c t0 t1 args
      = Some (con_tiempo
                (verificar_con_primos primos (list_to_set primos) args)
                (t1 - t0),
              cache_con c args.1.2 primos).
Proof.
  intros Hc. destruct (obtener_primos_hasta_spec c args.1.2 Hc)
    as (primos & Hcr & Hob).
  exists primos. split; [done|].
  unfold verificar_goldbach_rango. by rewrite Hob.
Qed.

Section Recorrido.

Variables (primos : list Z) (set_primos : gset Z).

#[local] Abbreviation rep n := (contar_representaciones primos set_primos n 0).

Lemma foldl_verificar_numero (r0 : resultados) (l : list Z) :
  let r := foldl (verificar_numero primos set_primos) r0 l in
  rango r = rango r0
  ∧ verificados r = verificados r0 + Z.of_nat (length l)
  ∧ cumple r
    = cumple r0 + Z.of_nat (length (filter (λ n, rep n > 0) l))
  ∧ no_cumple r = no_cumple r0 ++ filter (λ n, ¬ rep n > 0) l
  ∧ tiempo r = tiempo r0.
Proof.
  revert r0. induction l as [|n l IH]; intros r0; simpl.
  - rewrite app_nil_r. repeat split; lia.
  - destruct (IH (verificar_numero primos set_primos r0 n))
      as (-> & -> & -> & -> & ->).
    rewrite !filter_cons. unfold verificar_numero.
    case_bool_decide as Hrep; simpl.
    + rewrite decide_True, decide_False by (done || tauto). simpl.
      repeat split; lia.
    + rewrite decide_False, decide_True by done. simpl.
      rewrite <- app_assoc. repeat split; lia.
Qed.

End Recorrido.

Lemma asegurar_par_spec (n : Z) :
  asegurar_par n `mod` 2 = 0 ∧ n ≤ asegurar_par n ≤ n + 1.
Proof.
  unfold asegurar_par. case_bool_decide as H.
  - split; [|lia]. rewrite Z.add_mod by lia.
    pose proof (Z.mod_pos_bound n 2 ltac:(lia)).
    by replace (n `mod` 2) with 1 by lia.
  - split; [|lia]. by destruct (decide (n `mod` 2 = 0)).
Qed.

Lemma asegurar_par_de_par (n : Z) : n `mod` 2 = 0 → asegurar_par n = n.
Proof. intros H. unfold asegurar_par. by rewrite bool_decide_false by lia. Qed.

Lemma asegurar_par_de_impar (n : Z) :
  n `mod` 2 ≠ 0 → asegurar_par n = n + 1.
Proof. intros H. unfold asegurar_par. by rewrite bool_decide_true. Qed.

(** The numbers of a batch are the even numbers from its start, made even,
    up to its end. *)
Lemma elem_of_numeros_del_lote (n_inicio n_fin : Z) (verbose : bool) (n : Z) :
  n ∈ numeros_del_lote (n_inicio, n_fin, verbose)
  ↔ n_inicio ≤ n ≤ n_fin ∧ n `mod` 2 = 0.
Proof.
  unfold numeros_del_lote. rewrite elem_of_range by lia.
  destruct (asegurar_par_spec n_inicio) as [Hpar Hcota].
  rewrite Zminus_mod, Hpar, Z.sub_0_r, Z.mod_mod by lia.
  split; intros [H1 H2]; (split; [|done]); [lia|].
  destruct (decide (asegurar_par n_inicio = n_inicio + 1)) as [Heq|]; [|lia].
  rewrite Heq in *. assert (n ≠ n_inicio); [|lia].
  intros ->. rewrite Z.add_mod, H2 in Hpar by lia. done.
Qed.

Section Conteo.

Variables (set_primos : gset Z) (n : Z).

Lemma contar_sin_corte (l1 l2 : list Z) (acc : Z) :
  Forall (λ p, p ≤ n / 2) l1 →
  contar_representaciones (l1 ++ l2) set_primos n acc
  = contar_representaciones l2 set_primos n
      (acc + Z.of_nat (length (filter (λ p, n - p ∈ set_primos) l1))).
Proof.
  intros H. revert acc. induction H as [|p l1 Hp _ IH]; intros acc.
  - simpl. f_equal. lia.
  - simpl. rewrite bool_decide_false by lia. rewrite IH, filter_cons.
    f_equal. case_bool_decide.
    + rewrite decide_True by done. simpl. lia.
    + by rewrite decide_False by done.
Qed.

Lemma contar_corte (l : list Z) (acc : Z) :
  Forall (λ p, p > n / 2) l →
  contar_representaciones l set_primos n acc = acc.
Proof.
  intros H. destruct H as [|p l Hp _]; [done|].
  simpl. by rewrite bool_decide_true.
Qed.

End Conteo.

(** With the primes up to [L] at hand, the count for [n ≤ L] is the number
    of prime pairs of [n]. *)
Lemma contar_representaciones_spec (L n acc : Z) :
  0 ≤ n ≤ L →
  contar_representaciones (primos_en 0 (L + 1))
    (list_to_set (primos_en 0 (L + 1))) n acc
  = acc + Z.of_nat (length (pares_goldbach n)).
Proof.
  intros Hn.
  assert (0 ≤ n / 2 ≤ n) as Hmitad.
  { split; [apply Z.div_pos; lia|]. apply Z.div_le_upper_bound; lia. }
  rewrite (primos_en_app 0 (n / 2 + 1) (L + 1)) at 1 by lia.
  rewrite contar_sin_corte, contar_corte.
  - f_equal. f_equal. f_equal. unfold pares_goldbach.
    apply filter_ext_elem. intros p Hp.
    apply elem_of_primos_en in Hp as [_ Hp].
    rewrite elem_of_list_to_set, elem_of_primos_en, es_primo_spec.
    split; [tauto|].
    intros Hq. split; [done|]. apply Z.prime_ge_2 in Hq. lia.
  - apply Forall_forall. intros p Hp. apply elem_of_primos_en in Hp. lia.
  - apply Forall_forall. intros p Hp. apply elem_of_primos_en in Hp. lia.
Qed.

Lemma buscar_par_spec (n : Z) (candidatos : list Z) :
  buscar_par n candidatos = true →
  ∃ p, p ∈ candidatos ∧ Z.prime p ∧ Z.prime (n - p).
Proof.
  induction candidatos as [|p resto IH]; simpl; [done|].
  destruct (es_primo p) eqn:Hp; [destruct (es_primo (n - p)) eqn:Hq|].
  - intros _. exists p. rewrite <- !es_primo_spec. split; [left|done].
  - intros (q & ? & ?)%IH. exists q. split; [by right|done].
  - intros (q & ? & ?)%IH. exists q. split; [by right|done].
Qed.

Lemma tiene_par_spec (n : Z) : tiene_par n = true → pares_goldbach n ≠ [].
Proof.
  intros (p & Hin & Hp & Hq)%buscar_par_spec.
  apply elem_of_range in Hin; [|lia].
  assert (p ∈ pares_goldbach n) as Hpar.
  { unfold pares_goldbach. apply list_elem_of_filter.
    split; [by apply es_primo_spec|].
    apply elem_of_primos_en. split; [done|lia]. }
  intros Hnil. rewrite Hnil in Hpar. by apply elem_of_nil in Hpar.
Qed.

Lemma goldbach_hasta_2000 (n : Z) :
  6 ≤ n ≤ 2000 → n `mod` 2 = 0 → pares_goldbach n ≠ [].
Proof.
  intros Hn Hpar. apply tiene_par_spec.
  assert (forallb tiene_par (Py.range 6 2001 2) = true) as Htodos
    by (vm_compute; reflexivity).
  rewrite forallb_forall in Htodos. apply Htodos.
  apply list_elem_of_In, elem_of_range; [lia|]. split; [lia|].
  rewrite Zminus_mod, Hpar. done.
Qed.



Example pares_goldbach_100 : pares_goldbach 100 = [3; 11; 17; 29; 41; 47].
Proof. vm_compute. reflexivity. Qed.

(** What a call of the verifier returns, field by field. *)
Lemma verificar_goldbach_rango_campos (c : cache) (t0 t1 n_inicio n_fin : Z)
    (verbose : bool) :
  cache_coherente c →
  ∃ r primos,
    criba_eratostenes_segmentada n_fin = Some primos
    ∧ verificar_goldbach_rango c t0 t1 (n_inicio, n_fin, verbose)
      = Some (r, cache_con c n_fin primos)
    ∧ rango r = (asegurar_par n_inicio, n_fin)
    ∧ verificados r
      = Z.of_nat (length (numeros_del_lote (n_inicio, n_fin, verbose)))
    ∧ cumple r
      = Z.of_nat (length (filter
          (λ n, contar_representaciones primos (list_to_set primos) n 0 > 0)
          (numeros_del_lote (n_inicio, n_fin, verbose))))
    ∧ no_cumple r
      = filter
          (λ n, ¬ contar_representaciones primos (list_to_set primos) n 0 > 0)
          (numeros_del_lote (n_inicio, n_fin, verbose))
    ∧ tiempo r = t1 - t0.
Proof.
  intros Hc.
  destruct (verificar_goldbach_rango_spec c t0 t1 (n_inicio, n_fin, verbose)
              Hc) as (primos & Hcr & Hv).
  eexists _, primos. split; [done|]. split; [exact Hv|].
  unfold verificar_con_primos.
  destruct (foldl_verificar_numero primos (list_to_set primos)
              (resultados_iniciales (asegurar_par n_inicio) n_fin)
              (numeros_del_lote (n_inicio, n_fin, verbose)))
    as (Hr & Hv' & Hcu & Hno & _).
  simpl in *. rewrite Hr, Hv', Hcu, Hno. done.
Qed.

(** C6: an odd start is moved to the next even number before anything is
    verified: the batch goes through [range(n_inicio + 1, n_fin + 1, 2)],
    never through [n_inicio] itself, and the call returns what the call
    with start [n_inicio + 1] returns. *)
Theorem C6_inicio_impar (c : cache) (t0 t1 n_inicio n_fin : Z)
    (verbose : bool) :
  cache_coherente c → n_inicio `mod` 2 ≠ 0 →
  numeros_del_lote (n_inicio, n_fin, verbose)
    = Py.range (n_inicio + 1) (n_fin + 1) 2
  ∧ (n_inicio ∉ numeros_del_lote (n_inicio, n_fin, verbose))
  ∧ verificar_goldbach_rango c t0 t1 (n_inicio, n_fin, verbose)
    = verificar_goldbach_rango c t0 t1 (n_inicio + 1, n_fin, verbose)
  ∧ ∃ r c',
      verificar_goldbach_rango c t0 t1 (n_inicio, n_fin, verbose)
        = Some (r, c')
      ∧ rango r = (n_inicio + 1, n_fin)
      ∧ verificados r
        = Z.of_nat (length (Py.range (n_inicio + 1) (n_fin + 1) 2)).
Proof.
  intros Hc Himpar.
  assert (numeros_del_lote (n_inicio, n_fin, verbose)
          = Py.range (n_inicio + 1) (n_fin + 1) 2) as Hnum.
  { unfold numeros_del_lote. by rewrite asegurar_par_de_impar. }
  assert (asegurar_par (n_inicio + 1) = asegurar_par n_inicio) as Hpar.
  { rewrite (asegurar_par_de_impar n_inicio) by done.
    apply asegurar_par_de_par.
    rewrite <- (asegurar_par_de_impar n_inicio) by done.
    apply asegurar_par_spec. }
  split; [done|]. split; [|split].
  - rewrite elem_of_numeros_del_lote. tauto.
  - unfold verificar_goldbach_rango, verificar_con_primos, numeros_del_lote.
    simpl. by rewrite Hpar.
  - destruct (verificar_goldbach_rango_campos c t0 t1 n_inicio n_fin verbose
                Hc) as (r & primos & _ & Hv & Hr & Hn & _).
    exists r, (cache_con c n_fin primos). split; [done|].
    rewrite Hr, Hn, Hnum, asegurar_par_de_impar by done. done.
Qed.

Lemma C6_inicio_impar_witness :
  numeros_del_lote (7, 10, false) = Py.range 8 11 2
  ∧ (7 ∉ numeros_del_lote (7, 10, false))
  ∧ verificar_goldbach_rango cache_vacio 0 0 (7, 10, false)
    = verificar_goldbach_rango cache_vacio 0 0 (7 + 1, 10, false)
  ∧ ∃ r c',
      verificar_goldbach_rango cache_vacio 0 0 (7, 10, false) = Some (r, c')
      ∧ rango r = (7 + 1, 10)
      ∧ verificados r = Z.of_nat (length (Py.range (7 + 1) (10 + 1) 2)).
Proof.
  apply (C6_inicio_impar cache_vacio 0 0 7 10 false).
  - apply cache_vacio_coherente.
  - vm_compute. discriminate.
Defined.

(** C9, as amended: but for the elapsed time, which is the difference of
    the two clock readings, the result of a batch is the same for every
    call, whatever the clock and whatever the cache of the process holds;
    the one effect of a call is that the primes for [n_fin] enter that
    cache when they were not there. *)
Theorem C9_determinista_salvo_tiempo (c c' : cache) (t0 t1 t0' t1' : Z)
    (args : Z * Z * bool) :
  cache_coherente c → cache_coherente c' →
  ∃ r primos,
    criba_eratostenes_segmentada args.1.2 = Some primos
    ∧ verificar_goldbach_rango c t0 t1 args
      = Some (con_tiempo r (t1 - t0), cache_con c args.1.2 primos)
    ∧ verificar_goldbach_rango c' t0' t1' args
      = Some (con_tiempo r (t1' - t0'), cache_con c' args.1.2 primos).
Proof.
  intros Hc Hc'.
  destruct (verificar_goldbach_rango_spec c t0 t1 args Hc)
    as (primos & Hcr & Hv).
  destruct (verificar_goldbach_rango_spec c' t0' t1' args Hc')
    as (primos' & Hcr' & Hv').
  assert (primos' = primos) as -> by congruence.
  by exists (verificar_con_primos primos (list_to_set primos) args), primos.
Qed.

Lemma C9_determinista_salvo_tiempo_witness :
  ∃ r primos,
    criba_eratostenes_segmentada 6 = Some primos
    ∧ verificar_goldbach_rango cache_vacio 0 1 (6, 6, false)
      = Some (con_tiempo r (1 - 0), cache_con cache_vacio 6 primos)
    ∧ verificar_goldbach_rango cache_vacio 5 9 (6, 6, false)
      = Some (con_tiempo r (9 - 5), cache_con cache_vacio 6 primos).
Proof.
  apply (C9_determinista_salvo_tiempo cache_vacio cache_vacio 0 1 5 9
           (6, 6, false)); apply cache_vacio_coherente.
Defined.

(** C9 as stated fails: two calls on the same batch return different
    results as soon as the clock readings differ, and a call leaves the
    prime cache changed. *)
Lemma C9_counterexample :
  fst <$> verificar_goldbach_rango cache_vacio 0 1 (6, 6, false)
  ≠ fst <$> verificar_goldbach_rango cache_vacio 0 2 (6, 6, false)
  ∧ snd <$> verificar_goldbach_rango cache_vacio 0 1 (6, 6, false)
    ≠ Some cache_vacio.
Proof.
  split; intros H.
  - apply (f_equal (fmap tiempo)) in H. vm_compute in H. discriminate.
  - apply (f_equal (λ o, c ← o; Some (_cache_primos c !! 6))) in H.
    vm_compute in H. discriminate.
Qed.

(** The minimum and maximum of a batch. *)

Section Extremos.

Variables (primos : list Z) (set_primos : gset Z).

#[local] Abbreviation rep' n :=
  (contar_representaciones primos set_primos n 0).

Lemma extremos_de_paso (hechos : list Z) (r : resultados) (n : Z) :
  extremos_de primos set_primos hechos r →
  extremos_de primos set_primos (hechos ++ [n])
    (verificar_numero primos set_primos r n).
Proof.
  unfold extremos_de, verificar_numero. cbv zeta.
  case_bool_decide as Hrep; simpl.
  - destruct (min_representaciones r) as [|m]; simpl.
    + intros [Hmax Hno]. rewrite Hmax. split; [|split].
      * exists n. split; [apply elem_of_app; right; left|]. split; [done|lia].
      * exists n. split; [apply elem_of_app; right; left|lia].
      * intros k Hk Hrk. apply elem_of_app in Hk as [Hk|Hk].
        -- by apply Hno in Hk.
        -- apply list_elem_of_singleton in Hk as ->. lia.
    + intros ((n1 & Hn1 & Hr1 & Hm) & (n2 & Hn2 & Hr2) & Hcota).
      split; [|split].
      * destruct (Z.min_spec m (rep' n)) as [[? ->]|[? ->]].
        -- exists n1. split; [apply elem_of_app; by left|]. done.
        -- exists n. split; [apply elem_of_app; right; left|]. split; [done|lia].
      * destruct (Z.max_spec (max_representaciones r) (rep' n))
          as [[? ->]|[? ->]].
        -- exists n. split; [apply elem_of_app; right; left|done].
        -- exists n2. split; [apply elem_of_app; by left|done].
      * intros k Hk Hrk. apply elem_of_app in Hk as [Hk|Hk].
        -- specialize (Hcota k Hk Hrk). lia.
        -- apply list_elem_of_singleton in Hk as ->. lia.
  - destruct (min_representaciones r) as [|m]; simpl.
    + intros [Hmax Hno]. split; [done|].
      intros k Hk. apply elem_of_app in Hk as [Hk|Hk]; [by apply Hno|].
      by apply list_elem_of_singleton in Hk as ->.
    + intros ((n1 & Hn1 & Hr1 & Hm) & (n2 & Hn2 & Hr2) & Hcota).
      split; [|split].
      * exists n1. split; [apply elem_of_app; by left|done].
      * exists n2. split; [apply elem_of_app; by left|done].
      * intros k Hk Hrk. apply elem_of_app in Hk as [Hk|Hk].
        -- by apply Hcota.
        -- apply list_elem_of_singleton in Hk as ->. done.
Qed.

Lemma extremos_de_foldl (hechos l : list Z) (r : resultados) :
  extremos_de primos set_primos hechos r →
  extremos_de primos set_primos (hechos ++ l)
    (foldl (verificar_numero primos set_primos) r l).
Proof.
  revert hechos r. induction l as [|n l IH]; intros hechos r Hr; simpl.
  - by rewrite app_nil_r.
  - replace (hechos ++ n :: l) with ((hechos ++ [n]) ++ l)
      by (by rewrite <- app_assoc).
    apply IH, extremos_de_paso, Hr.
Qed.

End Extremos.



(** ** Driver *)

Lemma elem_of_numeros_verificados (n : Z) (ls : list (Z * Z * bool)) :
  n ∈ numeros_verificados ls ↔ existsb (en_lote n) ls = true.
Proof.
  unfold numeros_verificados. rewrite list_elem_of_bind, existsb_exists.
  split.
  - intros ([[a b] v] & Hn & Hl). exists (a, b, v).
    rewrite <- list_elem_of_In. split; [done|].
    apply bool_decide_eq_true. by apply elem_of_numeros_del_lote in Hn.
  - intros ([[a b] v] & Hl & Hn). exists (a, b, v).
    rewrite <- list_elem_of_In in Hl. split; [|done].
    apply bool_decide_eq_true in Hn. by apply elem_of_numeros_del_lote.
Qed.

Lemma numeros_verificados_app (ls1 ls2 : list (Z * Z * bool)) :
  numeros_verificados (ls1 ++ ls2)
  = numeros_verificados ls1 ++ numeros_verificados ls2.
Proof. unfold numeros_verificados. apply bind_app. Qed.

Lemma ultimo_tras_app (u : Z) (ls1 ls2 : list (Z * Z * bool)) :
  ultimo_tras u (ls1 ++ ls2) = ultimo_tras (ultimo_tras u ls1) ls2.
Proof. unfold ultimo_tras. apply foldl_app. Qed.

Section ConductorProps.

Variable cfg : Config.
Variable mundo : Mundo.

Lemma preparar_batches_avanza (vueltas : nat) (n_actual : Z) :
  1 ≤ tamaño_batch cfg →
  n_actual ≤ (preparar_batches cfg vueltas n_actual).2.
Proof.
  intros Hb. revert n_actual. induction vueltas as [|k IH]; intros n; simpl.
  - done.
  - case_bool_decide; [done|].
    specialize (IH (Z.min (n + tamaño_batch cfg - 1) (n_final cfg) + 2)).
    destruct (preparar_batches cfg k _) as [bs n']. simpl in *. lia.
Qed.

(** A round with at least one turn and work left dispatches a first batch
    that starts at [n_actual], and moves [n_actual] forward. *)
Lemma preparar_batches_primero (vueltas : nat) (n_actual : Z) :
  1 ≤ tamaño_batch cfg → (1 ≤ vueltas)%nat → n_actual ≤ n_final cfg →
  ∃ resto n',
    preparar_batches cfg vueltas n_actual
    = ((n_actual,
        Z.min (n_actual + tamaño_batch cfg - 1) (n_final cfg), false)
         :: resto, n')
    ∧ n_actual + 2 ≤ n'.
Proof.
  intros Hb Hv Hn. destruct vueltas as [|k]; [lia|]. simpl.
  rewrite bool_decide_false by lia.
  pose proof (preparar_batches_avanza k
    (Z.min (n_actual + tamaño_batch cfg - 1) (n_final cfg) + 2) Hb) as Hav.
  destruct (preparar_batches cfg k _) as [bs n']. simpl in *.
  exists bs, n'. split; [done|]. lia.
Qed.

(** A task never raises, and these fields of its result do not depend on
    the primes. *)
Lemma tarea_spec (args : Z * Z * bool) :
  ∃ r, tarea mundo args = Some r
    ∧ rango r = (asegurar_par args.1.1, args.1.2)
    ∧ verificados r = Z.of_nat (length (numeros_del_lote args))
    ∧ tiempo r = (cronometro mundo args).2 - (cronometro mundo args).1.
Proof.
  destruct args as [[a b] v]. unfold tarea.
  destruct (cronometro mundo (a, b, v)) as [t0 t1].
  destruct (verificar_goldbach_rango_campos cache_vacio t0 t1 a b v
              cache_vacio_coherente)
    as (r & primos & _ & -> & Hr & Hv & _ & _ & Ht).
  exists r. done.
Qed.

Lemma mapM_tarea (batches : list (Z * Z * bool)) :
  ∃ rs, mapM (tarea mundo) batches = Some rs
    ∧ Forall2 (λ args r,
         rango r = (asegurar_par args.1.1, args.1.2)
         ∧ verificados r = Z.of_nat (length (numeros_del_lote args)))
       batches rs.
Proof.
  induction batches as [|args batches (rs & Hrs & HF)].
  - exists []. split; [done|constructor].
  - destruct (tarea_spec args) as (r & Hr & Hrango & Hver & _).
    exists (r :: rs). split.
    + simpl. rewrite Hr. simpl. rewrite Hrs. done.
    + by constructor.
Qed.

Lemma foldl_consolidar (progreso : Progreso) (batches : list (Z * Z * bool))
    (rs : list resultados) :
  Forall2 (λ args r,
      rango r = (asegurar_par args.1.1, args.1.2)
      ∧ verificados r = Z.of_nat (length (numeros_del_lote args)))
    batches rs →
  let progreso' := foldl consolidar progreso rs in
  ultimo_n_verificado progreso'
    = ultimo_tras (ultimo_n_verificado progreso) batches
  ∧ total_verificados progreso'
    = total_verificados progreso
      + Z.of_nat (length (numeros_verificados batches))
  ∧ inicio_sesion progreso' = inicio_sesion progreso.
Proof.
  intros HF. revert progreso.
  induction HF as [|args r batches rs [Hr Hv] _ IH]; intros progreso; simpl.
  - repeat split; lia.
  - destruct (IH (consolidar progreso r)) as (-> & -> & ->). simpl.
    rewrite Hr, Hv. simpl.
    change (numeros_verificados (args :: batches))
      with (numeros_del_lote args ++ numeros_verificados batches).
    rewrite length_app. repeat split; lia.
Qed.

End ConductorProps.

Section BucleProps.

Variable cfg : Config.
Variable mundo : Mundo.

(** One round of the loop that [pool.map] gets through. *)
Lemma bucle_ronda_normal (fuel ronda : nat) (n_actual : Z)
    (progreso : Progreso) (ultimo_guardado : Z)
    (lote : Z * Z * bool) (batches : list (Z * Z * bool)) (n_actual' : Z) :
  n_actual ≤ n_final cfg →
  preparar_batches cfg (Z.to_nat (num_cores cfg)) n_actual
    = (lote :: batches, n_actual') →
  suceso_ronda mundo ronda = Normal →
  ∃ progreso',
    ultimo_n_verificado progreso'
      = ultimo_tras (ultimo_n_verificado progreso) (lote :: batches)
    ∧ total_verificados progreso'
      = total_verificados progreso
        + Z.of_nat (length (numeros_verificados (lote :: batches)))
    ∧ bucle cfg mundo (S fuel) ronda n_actual progreso ultimo_guardado
      = (let guarda :=
           bool_decide (reloj_ronda mundo ronda - ultimo_guardado
                        >= intervalo_guardado cfg) in
         if guarda
            && bool_decide (generar_reporte cfg mundo progreso' = None)
         then Some (corte_por_informe progreso' (lote :: batches))
         else
           e ← bucle cfg mundo fuel (S ronda) n_actual' progreso'
                 (if guarda then reloj_ronda mundo ronda
                  else ultimo_guardado);
           Some (anteponer (lote :: batches)
                   (if guarda then [progreso'] else []) e)).
Proof.
  intros Hn Hprep Hsuc.
  destruct (mapM_tarea mundo (lote :: batches)) as (rs & Hrs & HF).
  destruct (foldl_consolidar progreso (lote :: batches) rs HF)
    as (Hu & Ht & _).
  exists (foldl consolidar progreso rs). split; [done|]. split; [done|].
  cbn [bucle]. rewrite bool_decide_true by done.
  rewrite Hprep, Hsuc, Hrs. done.
Qed.

(** A round cut short by the user or by a failure: the progress of the
    rounds before it is saved and the run ends. *)
Lemma bucle_ronda_cortada (fuel ronda : nat) (n_actual : Z)
    (progreso : Progreso) (ultimo_guardado : Z)
    (lote : Z * Z * bool) (batches : list (Z * Z * bool)) (n_actual' : Z) :
  n_actual ≤ n_final cfg →
  preparar_batches cfg (Z.to_nat (num_cores cfg)) n_actual
    = (lote :: batches, n_actual') →
  suceso_ronda mundo ronda ≠ Normal →
  ∃ estado, estado ≠ Completada
    ∧ bucle cfg mundo (S fuel) ronda n_actual progreso ultimo_guardado
      = Some (corte estado progreso (lote :: batches)).
Proof.
  intros Hn Hprep Hsuc. cbn [bucle]. rewrite bool_decide_true by done.
  rewrite Hprep. destruct (suceso_ronda mundo ronda); [done| |].
  - by exists Interrumpida.
  - by exists Fallida.
Qed.

Lemma bucle_fin (fuel ronda : nat) (n_actual : Z) (progreso : Progreso)
    (ultimo_guardado : Z) :
  n_final cfg < n_actual →
  bucle cfg mundo fuel ronda n_actual progreso ultimo_guardado
  = Some (cierre cfg mundo progreso).
Proof.
  intros Hn. destruct fuel; cbn [bucle]; by rewrite bool_decide_false by lia.
Qed.

(** With batches of at least one number and at least one core the loop
    comes to an end, however it is interrupted, and the first batch it
    dispatches starts where the loop starts. *)
Lemma bucle_termina (fuel ronda : nat) (n_actual : Z) (progreso : Progreso)
    (ultimo_guardado : Z) :
  1 ≤ tamaño_batch cfg → 1 ≤ num_cores cfg →
  (Z.to_nat (n_final cfg - n_actual + 1) ≤ fuel)%nat →
  ∃ e, bucle cfg mundo fuel ronda n_actual progreso ultimo_guardado = Some e
    ∧ (n_actual ≤ n_final cfg →
       ∃ resto,
         lotes e
         = (n_actual,
            Z.min (n_actual + tamaño_batch cfg - 1) (n_final cfg), false)
             :: resto).
Proof.
  intros Hb Hc. revert ronda n_actual progreso ultimo_guardado.
  induction fuel as [|fuel IH]; intros ronda n progreso ug Hfuel.
  - rewrite bucle_fin by lia. eexists. split; [done|]. lia.
  - destruct (decide (n ≤ n_final cfg)) as [Hn|Hn].
    2:{ rewrite bucle_fin by lia. eexists. split; [done|]. lia. }
    destruct (preparar_batches_primero cfg (Z.to_nat (num_cores cfg)) n)
      as (resto & n' & Hprep & Hav); [done|lia|done|].
    destruct (decide (suceso_ronda mundo ronda = Normal)) as [Hs|Hs].
    + destruct (bucle_ronda_normal fuel ronda n progreso ug _ _ _
                  Hn Hprep Hs) as (progreso' & _ & _ & ->).
      cbv zeta.
      destruct (_ && _).
      { eexists. split; [done|]. intros _. by eexists. }
      destruct (IH (S ronda) n' progreso'
        (if bool_decide (reloj_ronda mundo ronda - ug
                         >= intervalo_guardado cfg)
         then reloj_ronda mundo ronda else ug)) as (e & -> & _); [lia|].
      simpl. eexists. split; [done|]. intros _. by eexists.
    + destruct (bucle_ronda_cortada fuel ronda n progreso ug _ _ _
                  Hn Hprep Hs) as (estado & _ & ->).
      eexists. split; [done|]. intros _. by eexists.
Qed.

(** When no round is cut short the run completes, its batches are those of
    [despacho], and the progress it ends with stands at the end of the last
    batch, having counted every number the batches went through. *)
Lemma bucle_sin_cortes (fuel ronda : nat) (n_actual : Z)
    (progreso : Progreso) (ultimo_guardado : Z) (e : ejecucion) :
  (∀ k, suceso_ronda mundo k = Normal) →
  (∀ k, reloj_ronda mundo k - ultimo_guardado < intervalo_guardado cfg) →
  bucle cfg mundo fuel ronda n_actual progreso ultimo_guardado = Some e →
  estado_final e = Completada
  ∧ despacho cfg fuel n_actual = Some (lotes e)
  ∧ ultimo_n_verificado (progreso_final e)
    = ultimo_tras (ultimo_n_verificado progreso) (lotes e)
  ∧ total_verificados (progreso_final e)
    = total_verificados progreso
      + Z.of_nat (length (numeros_verificados (lotes e)))
  ∧ last (guardados e) = Some (progreso_final e).
Proof.
  intros Hmundo Hreloj. revert ronda n_actual progreso e.
  induction fuel as [|fuel IH]; intros ronda n progreso e He.
  - cbn [bucle despacho] in *. case_bool_decide; [done|].
    injection He as <-. simpl. repeat split; lia.
  - destruct (decide (n ≤ n_final cfg)) as [Hn|Hn].
    2:{ rewrite bucle_fin in He by lia. injection He as <-.
        cbn [despacho]. rewrite bool_decide_false by done.
        simpl. repeat split; lia. }
    cbn [despacho]. rewrite bool_decide_true by done.
    destruct (preparar_batches cfg (Z.to_nat (num_cores cfg)) n)
      as [[|lote batches] n'] eqn:Hprep.
    { cbn [bucle] in He. rewrite bool_decide_true, Hprep in He by done.
      injection He as <-. simpl. repeat split; lia. }
    destruct (bucle_ronda_normal fuel ronda n progreso ultimo_guardado _ _ _
                Hn Hprep (Hmundo ronda)) as (progreso' & Hu & Ht & Hb).
    rewrite Hb in He. cbv zeta in He.
    rewrite (bool_decide_false
               (reloj_ronda mundo ronda - ultimo_guardado
                >= intervalo_guardado cfg)) in He
      by (specialize (Hreloj ronda); lia).
    cbn [andb] in He.
    destruct (bucle cfg mundo fuel (S ronda) n' progreso' _) as [e'|] eqn:He';
      [|done].
    injection He as <-.
    destruct (IH _ _ _ _ He') as (Hest & Hdes & Hu' & Ht' & Hg).
    rewrite Hdes. unfold anteponer.
    cbn [lotes guardados estado_final progreso_final mbind option_bind].
    split; [done|]. split; [done|].
    rewrite ultimo_tras_app, numeros_verificados_app, length_app.
    rewrite Hu', Ht', Hu, Ht. split; [done|]. split; [lia|].
    rewrite last_app, Hg. done.
Qed.

End BucleProps.

(** ** Checkpoint store *)

Lemma lista_de_enteros_fmap (l : list Z) :
  lista_de_enteros (VList (VInt <$> l)) = Some l.
Proof.
  unfold lista_de_enteros. induction l as [|z l IH]; [done|].
  rewrite fmap_cons. cbn [mapM]. rewrite IH. done.
Qed.

(** A saved dictionary reads back as the record it was written from. *)
Lemma como_progreso_valor_de_progreso (p : Progreso) :
  como_progreso (valor_de_progreso p) = Some p.
Proof.
  destruct p as [u tv tc ce tt i].
  unfold como_progreso, valor_de_progreso, subindice.
  cbn [ultimo_n_verificado total_verificados total_cumple contraejemplos
       tiempo_total inicio_sesion].
  repeat (rewrite lookup_insert_eq
          || (rewrite lookup_insert_ne by (intros ?; discriminate))).
  cbn [mbind option_bind entero numero cadena].
  by rewrite lista_de_enteros_fmap.
Qed.

Lemma cargar_progreso_guardado (cfg : Config) (p : Progreso) (ahora : string) :
  cargar_progreso cfg (guardar_progreso p) ahora = valor_de_progreso p.
Proof.
  unfold cargar_progreso, guardar_progreso, intento_de_carga.
  unfold valor_de_progreso, subindice. by rewrite lookup_insert_eq.
Qed.

Lemma cargar_progreso_ausente (cfg : Config) (ahora : string) :
  como_progreso (cargar_progreso cfg Ausente ahora)
  = Some (progreso_por_defecto cfg ahora).
Proof. apply como_progreso_valor_de_progreso. Qed.

(** ** The driver's resume point *)

(** What makes a report raise whatever the world: an elapsed time of a
    thousand million days or more. *)
Lemma generar_reporte_desborda (cfg : Config) (mundo : Mundo)
    (progreso : Progreso) :
  tiempo_total progreso >= 86400 * 10 ^ 9 →
  generar_reporte cfg mundo progreso = None.
Proof.
  intros Ht. unfold generar_reporte.
  assert (timedelta (tiempo_total progreso) = None) as ->.
  { unfold timedelta. rewrite bool_decide_false; [done|].
    intros [_ Hdias].
    assert (10 ^ 9 ≤ tiempo_total progreso `div` 86400); [|lia].
    apply Z.div_le_lower_bound; lia. }
  by destruct (if bool_decide _ then _ else _) as [[]|].
Qed.

(** C10, as amended: when the resume point, made even, has reached
    [n_final], the driver dispatches nothing, saves nothing and leaves the
    loaded dictionary as it is; [n_final] itself is then not verified, even
    when the resume point is exactly [n_final]. The driver returns the
    dictionary when the report it logs first can be built, and raises
    instead when it cannot, as with an accumulated time that does not fit
    a [timedelta]. *)
Theorem C10_ya_completada (cfg : Config) (mundo : Mundo) (fuel : nat)
    (a : archivo) (ahora : string) (progreso : Progreso) :
  como_progreso (cargar_progreso cfg a ahora) = Some progreso →
  asegurar_par (ultimo_n_verificado progreso + 2) >= n_final cfg →
  ∃ e, verificacion_masiva_goldbach cfg mundo fuel a ahora = Some e
    ∧ estado_final e = YaCompletada
    ∧ progreso_final e = progreso
    ∧ guardados e = []
    ∧ lotes e = []
    ∧ (n_final cfg ∉ numeros_verificados (lotes e))
    ∧ (lanza e = false ↔ generar_reporte cfg mundo progreso = Some ())
    ∧ (tiempo_total progreso >= 86400 * 10 ^ 9 → lanza e = true).
Proof.
  intros Hcarga Hfin. unfold verificacion_masiva_goldbach.
  rewrite Hcarga. cbn [mbind option_bind]. unfold verificacion_desde.
  rewrite bool_decide_true by exact Hfin.
  eexists. split; [reflexivity|].
  cbn [estado_final progreso_final guardados lotes lanza].
  split; [reflexivity|]. split; [reflexivity|]. split; [reflexivity|].
  split; [reflexivity|]. split; [apply not_elem_of_nil|]. split.
  - rewrite bool_decide_eq_false.
    destruct (generar_reporte cfg mundo progreso) as [[]|]; split; done.
  - intros Ht. apply bool_decide_eq_true.
    by apply generar_reporte_desborda.
Qed.

Lemma C10_ya_completada_witness :
  ∃ e, verificacion_masiva_goldbach (CONFIG 4) mundo_tranquilo 0
         (guardar_progreso progreso_casi_final) "" = Some e
    ∧ estado_final e = YaCompletada
    ∧ progreso_final e = progreso_casi_final
    ∧ guardados e = []
    ∧ lotes e = []
    ∧ (n_final (CONFIG 4) ∉ numeros_verificados (lotes e))
    ∧ (lanza e = false
       ↔ generar_reporte (CONFIG 4) mundo_tranquilo progreso_casi_final
         = Some ())
    ∧ (tiempo_total progreso_casi_final >= 86400 * 10 ^ 9 → lanza e = true).
Proof.
  apply (C10_ya_completada (CONFIG 4) mundo_tranquilo 0
           (guardar_progreso progreso_casi_final) "" progreso_casi_final).
  - vm_compute. reflexivity.
  - vm_compute. discriminate.
Defined.

(** C10 as stated fails: a checkpoint that stands at the end, with an
    accumulated time of [10^14] seconds, is not returned: in every world
    the report the driver logs before returning raises. *)
Lemma C10_counterexample :
  como_progreso
    (cargar_progreso (CONFIG 4) (guardar_progreso progreso_desbordado) "")
  = Some progreso_desbordado
  ∧ asegurar_par (ultimo_n_verificado progreso_desbordado + 2)
    >= n_final (CONFIG 4)
  ∧ ∀ mundo fuel,
      ∃ e, verificacion_masiva_goldbach (CONFIG 4) mundo fuel
             (guardar_progreso progreso_desbordado) "" = Some e
        ∧ estado_final e = YaCompletada
        ∧ lanza e = true.
Proof.
  assert (como_progreso
            (cargar_progreso (CONFIG 4) (guardar_progreso progreso_desbordado)
               "")
          = Some progreso_desbordado) as Hcarga.
  { rewrite cargar_progreso_guardado. apply como_progreso_valor_de_progreso. }
  split; [exact Hcarga|]. split; [vm_compute; discriminate|].
  intros mundo fuel. unfold verificacion_masiva_goldbach.
  rewrite Hcarga. cbn [mbind option_bind]. unfold verificacion_desde.
  rewrite bool_decide_true by (vm_compute; discriminate).
  eexists. split; [reflexivity|]. cbn [estado_final lanza].
  split; [reflexivity|]. apply bool_decide_eq_true.
  apply generar_reporte_desborda. vm_compute. discriminate.
Qed.



(** ** Loading a checkpoint *)




(** ** The segmented sieve at 2 *)

(** Away from 2 the two sieves agree: both return the primes up to the
    limit. *)
Lemma cribas_coinciden_salvo_2 (limite : Z) :
  limite ≠ 2 →
  criba_eratostenes_segmentada limite = criba_eratostenes_simple limite.
Proof.
  intros H2. rewrite criba_eratostenes_segmentada_valor,
    criba_eratostenes_simple_spec.
  by rewrite bool_decide_false.
Qed.

(** C3 fails at limit 2: the segmented sieve returns no prime at all, where
    the flat sieve returns the prime 2. *)
Theorem C3_criba_segmentada_en_2 :
  criba_eratostenes_segmentada 2 = Some []
  ∧ criba_eratostenes_simple 2 = Some [2]
  ∧ Z.prime 2.
Proof.
  split; [by vm_compute|]. split; [by vm_compute|]. apply Z.prime_2.
Qed.

(** ** The partition as shipped *)

Section Despacho.

Variable cfg : Config.
Variable mundo : Mundo.

Lemma despacho_mas_fuel (fuel k : nat) (n_actual : Z)
    (ls : list (Z * Z * bool)) :
  despacho cfg fuel n_actual = Some ls →
  despacho cfg (fuel + k) n_actual = Some ls.
Proof.
  revert n_actual ls. induction fuel as [|fuel IH]; intros n ls.
  - cbn [despacho]. case_bool_decide as Hn; [done|]. intros <-.
    destruct (0 + k)%nat; cbn [despacho]; by rewrite bool_decide_false.
  - cbn [despacho Nat.add]. case_bool_decide as Hn; [|done].
    destruct (preparar_batches cfg (Z.to_nat (num_cores cfg)) n)
      as [[|lote batches] n']; [done|].
    destruct (despacho cfg fuel n') as [resto|] eqn:Hresto; [|done].
    by rewrite (IH _ _ Hresto).
Qed.

Lemma bucle_sin_cortes_existe (fuel ronda : nat) (n_actual : Z)
    (progreso : Progreso) (ultimo_guardado : Z) (ls : list (Z * Z * bool)) :
  (∀ k, suceso_ronda mundo k = Normal) →
  despacho cfg fuel n_actual = Some ls →
  ∃ e, bucle cfg mundo fuel ronda n_actual progreso ultimo_guardado = Some e.
Proof.
  intros Hmundo. revert ronda n_actual progreso ultimo_guardado ls.
  induction fuel as [|fuel IH]; intros ronda n progreso ug ls.
  - cbn [despacho bucle]. case_bool_decide; [done|]. by eexists.
  - destruct (decide (n ≤ n_final cfg)) as [Hn|Hn].
    2:{ rewrite bucle_fin by lia. by eexists. }
    cbn [despacho]. rewrite bool_decide_true by done.
    destruct (preparar_batches cfg (Z.to_nat (num_cores cfg)) n)
      as [[|lote batches] n'] eqn:Hprep.
    { intros _. cbn [bucle]. rewrite bool_decide_true, Hprep by done.
      by eexists. }
    destruct (despacho cfg fuel n') as [resto|] eqn:Hresto; [|done].
    intros _.
    destruct (bucle_ronda_normal cfg mundo fuel ronda n progreso ug _ _ _
                Hn Hprep (Hmundo ronda)) as (progreso' & _ & _ & ->).
    cbv zeta. destruct (_ && _); [by eexists|].
    destruct (IH (S ronda) n' progreso'
      (if bool_decide (reloj_ronda mundo ronda - ug
                       >= intervalo_guardado cfg)
       then reloj_ronda mundo ronda else ug) resto Hresto) as (e & ->).
    by eexists.
Qed.

End Despacho.

Lemma despacho_por_defecto (k : nat) :
  despacho (CONFIG 4) (34 + k) 6 = Some lotes_por_defecto.
Proof. apply despacho_mas_fuel. vm_compute. reflexivity. Qed.

Lemma hueco_por_defecto : 10006 ∉ numeros_verificados lotes_por_defecto.
Proof.
  rewrite elem_of_numeros_verificados. vm_compute. discriminate.
Qed.

Lemma cuenta_por_defecto :
  Z.of_nat (length (numeros_verificados lotes_por_defecto)) = 499948.
Proof. vm_compute. reflexivity. Qed.

(** C1 fails for [CONFIG] as shipped: the loop dispatches 100 batches where
    50 are claimed, and the even number 10006 of the range is in none. *)
Theorem C1_despacho_por_defecto :
  ∃ ls, despacho (CONFIG 4) 34 6 = Some ls
    ∧ length ls = 100%nat
    ∧ 10006 ∈ numeros_del_lote (6, n_final (CONFIG 4), false)
    ∧ (10006 ∉ numeros_verificados ls)
    ∧ Z.of_nat (length (numeros_verificados ls)) = 499948
    ∧ Z.of_nat (length (numeros_del_lote (6, n_final (CONFIG 4), false)))
      = 499998
    ∧ (499998 + tamaño_batch (CONFIG 4) - 1) / tamaño_batch (CONFIG 4) = 50.
Proof.
  exists lotes_por_defecto. split; [apply (despacho_por_defecto 0)|].
  split; [by vm_compute|]. split.
  { apply elem_of_numeros_del_lote. by vm_compute. }
  split; [apply hueco_por_defecto|]. split; [apply cuenta_por_defecto|].
  split; [|by vm_compute].
  unfold numeros_del_lote. rewrite range_length. by vm_compute.
Qed.

(** C2 fails on a whole run with [CONFIG] as shipped and no checkpoint: the
    run completes with [ultimo_n_verificado] at 1000000, and the even number
    10006 below it has not been verified; 499948 numbers were, of the 499998
    even numbers of the range. *)
Theorem C2_corrida_por_defecto (ahora : string) (k : nat) :
  ∃ e, verificacion_masiva_goldbach (CONFIG 4) mundo_tranquilo (34 + k)
         Ausente ahora = Some e
    ∧ estado_final e = Completada
    ∧ ultimo_n_verificado (progreso_final e) = 10 ^ 6
    ∧ n_inicial (CONFIG 4) ≤ 10006 ≤ ultimo_n_verificado (progreso_final e)
    ∧ 10006 `mod` 2 = 0
    ∧ (10006 ∉ numeros_verificados (lotes e))
    ∧ total_verificados (progreso_final e) = 499948.
Proof.
  unfold verificacion_masiva_goldbach.
  rewrite cargar_progreso_ausente. simpl. unfold verificacion_desde.
  change (asegurar_par
            (ultimo_n_verificado (progreso_por_defecto (CONFIG 4) ahora) + 2))
    with 6.
  rewrite bool_decide_false by (by vm_compute).
  rewrite bool_decide_false by (by vm_compute).
  destruct (bucle_sin_cortes_existe (CONFIG 4) mundo_tranquilo (34 + k) 0 6
              (progreso_por_defecto (CONFIG 4) ahora)
              (reloj_inicial mundo_tranquilo) lotes_por_defecto)
    as (e & He); [done|apply despacho_por_defecto|].
  exists e. split; [done|].
  assert (∀ j, reloj_ronda mundo_tranquilo j - reloj_inicial mundo_tranquilo
               < intervalo_guardado (CONFIG 4)) as Hreloj
    by (intros j; reflexivity).
  destruct (bucle_sin_cortes (CONFIG 4) mundo_tranquilo _ _ _ _ _ e
              (λ _, eq_refl) Hreloj He) as (Hest & Hdes & Hu & Ht & _).
  rewrite despacho_por_defecto in Hdes. injection Hdes as Hl.
  rewrite Hu, Ht, <- Hl. split; [exact Hest|].
  assert (ultimo_tras
            (ultimo_n_verificado (progreso_por_defecto (CONFIG 4) ahora))
            lotes_por_defecto = 10 ^ 6) as Hfin by (vm_compute; reflexivity).
  rewrite Hfin. split; [reflexivity|].
  split; [vm_compute; split; discriminate|]. split; [reflexivity|].
  split; [apply hueco_por_defecto|].
  rewrite cuenta_por_defecto. reflexivity.
Qed.

(** C5 fails with [CONFIG] as shipped on three cores when the user
    interrupts the second round: the dictionary saved has
    [ultimo_n_verificado] at 30007, an odd number. *)
Theorem C5_guardado_impar (ahora : string) (k : nat) :
  ∃ e p, verificacion_masiva_goldbach (CONFIG 4) mundo_interrumpido
           (2 + k) Ausente ahora = Some e
    ∧ estado_final e = Interrumpida
    ∧ guardados e = [p]
    ∧ ultimo_n_verificado p = 30007
    ∧ 30007 `mod` 2 = 1.
Proof.
  unfold verificacion_masiva_goldbach.
  rewrite cargar_progreso_ausente. simpl. unfold verificacion_desde.
  change (asegurar_par
            (ultimo_n_verificado (progreso_por_defecto (CONFIG 4) ahora) + 2))
    with 6.
  rewrite bool_decide_false by (by vm_compute).
  rewrite bool_decide_false by (by vm_compute).
  change (reloj_inicial mundo_interrumpido) with 0.
  destruct (bucle_ronda_normal (CONFIG 4) mundo_interrumpido (S k) 0 6
              (progreso_por_defecto (CONFIG 4) ahora) 0
              (6, 10005, false) [(10007, 20006, false); (20008, 30007, false)]
              30009) as (progreso' & Hu & _ & ->);
    [by vm_compute|by vm_compute|done|].
  cbv zeta. rewrite bool_decide_false by (by vm_compute).
  assert (suceso_ronda mundo_interrumpido 1 ≠ Normal) as Hs by done.
  destruct (bucle_ronda_cortada (CONFIG 4) mundo_interrumpido k 1 30009
              progreso' 0
              (30009, 40008, false)
              [(40010, 50009, false); (50011, 60010, false)] 60012)
    as (estado & _ & Hcorte); [by vm_compute|by vm_compute|done|].
  assert (bucle (CONFIG 4) mundo_interrumpido (S k) 1 30009 progreso' 0
          = Some (corte Interrumpida progreso'
                    [(30009, 40008, false); (40010, 50009, false);
                     (50011, 60010, false)])) as ->.
  { cbn [bucle]. rewrite bool_decide_true by (by vm_compute).
    assert (preparar_batches (CONFIG 4) (Z.to_nat (num_cores (CONFIG 4)))
              30009
            = ([(30009, 40008, false); (40010, 50009, false);
                (50011, 60010, false)], 60012)) as -> by (by vm_compute).
    done. }
  eexists _, progreso'. simpl. split; [done|]. split; [done|].
  split; [done|]. split; [|done]. rewrite Hu. by vm_compute.
Qed.

(** ** The partition for batches of odd size

    The gap of the shipped configuration comes with batches of even size:
    when [tamaño_batch] is odd every batch starts and ends on an even number
    and the batches of a run go through the even numbers of the range one
    after the other, none left out, none twice. *)

Lemma range_mismo_largo (a b b' s : Z) :
  (b - a + s - 1) / s = (b' - a + s - 1) / s → Py.range a b s = Py.range a b' s.
Proof. intros H. unfold Py.range. by rewrite H. Qed.

Lemma range_app_paso (k : nat) (a c s : Z) :
  0 < s → a + Z.of_nat k * s ≤ c →
  Py.range a c s
  = Py.range a (a + Z.of_nat k * s) s ++ Py.range (a + Z.of_nat k * s) c s.
Proof.
  intros Hs. revert a. induction k as [|k IH]; intros a Hc.
  - replace (a + Z.of_nat 0 * s) with a by lia.
    by rewrite (range_vacio a a) by lia.
  - rewrite (range_cons a c), (range_cons a (a + Z.of_nat (S k) * s)) by lia.
    simpl. f_equal.
    replace (a + Z.of_nat (S k) * s) with (a + s + Z.of_nat k * s) by lia.
    apply IH. lia.
Qed.

Section ParticionImpar.

Variable cfg : Config.

Hypothesis Himpar : tamaño_batch cfg `mod` 2 = 1.
Hypothesis Hpositivo : 1 ≤ tamaño_batch cfg.

Lemma preparar_batches_cubre (vueltas : nat) (n_actual : Z) :
  n_actual `mod` 2 = 0 ∨ n_final cfg < n_actual →
  numeros_verificados (preparar_batches cfg vueltas n_actual).1
    ++ Py.range (preparar_batches cfg vueltas n_actual).2
         (n_final cfg + 1) 2
  = Py.range n_actual (n_final cfg + 1) 2
  ∧ ((preparar_batches cfg vueltas n_actual).2 `mod` 2 = 0
     ∨ n_final cfg < (preparar_batches cfg vueltas n_actual).2).
Proof.
  revert n_actual. induction vueltas as [|k IH]; intros n Hn; simpl.
  - done.
  - case_bool_decide as Hfin; simpl; [split; [done|right; lia]|].
    destruct Hn as [Hn|Hn]; [|lia].
    set (n_fin := Z.min (n + tamaño_batch cfg - 1) (n_final cfg)).
    assert (n ≤ n_fin ≤ n_final cfg) as Hcota by (unfold n_fin; lia).
    assert ((n_fin + 2) `mod` 2 = 0 ∨ n_final cfg < n_fin + 2) as Hsig.
    { destruct (decide (n_fin = n_final cfg)); [right; lia|left].
      assert (n_fin = n + tamaño_batch cfg - 1) as -> by (unfold n_fin; lia).
      pose proof (Z.div_mod n 2 ltac:(lia)).
      pose proof (Z.div_mod (tamaño_batch cfg) 2 ltac:(lia)).
      replace (n + tamaño_batch cfg - 1 + 2)
        with ((n / 2 + tamaño_batch cfg / 2 + 1) * 2) by lia.
      apply Z.mod_mul. lia. }
    destruct (IH (n_fin + 2) Hsig) as [Hcubre Hpar].
    destruct (preparar_batches cfg k (n_fin + 2)) as [bs n'] eqn:Hprep.
    simpl in *. split; [|done].
    change (numeros_verificados ((n, n_fin, false) :: bs))
      with (numeros_del_lote (n, n_fin, false) ++ numeros_verificados bs).
    rewrite <- app_assoc, Hcubre. unfold numeros_del_lote.
    rewrite asegurar_par_de_par by done.
    destruct (decide (n_fin = n_final cfg)) as [->|Hne].
    + rewrite (range_vacio (n_final cfg + 2)) by lia. by rewrite app_nil_r.
    + assert (n_fin = n + tamaño_batch cfg - 1) as Hnf
        by (unfold n_fin in *; lia).
      pose proof (Z.div_mod (tamaño_batch cfg) 2 ltac:(lia)) as Hdm.
      rewrite (range_mismo_largo n (n_fin + 1) (n_fin + 2) 2).
      2:{ rewrite Hnf.
          replace (n + tamaño_batch cfg - 1 + 1 - n + 2 - 1)
            with (0 + (tamaño_batch cfg / 2 + 1) * 2) by lia.
          replace (n + tamaño_batch cfg - 1 + 2 - n + 2 - 1)
            with (1 + (tamaño_batch cfg / 2 + 1) * 2) by lia.
          rewrite !Z.div_add by lia. done. }
      assert (0 ≤ tamaño_batch cfg / 2) by (apply Z.div_pos; lia).
      replace (n_fin + 2)
        with (n + Z.of_nat (Z.to_nat (tamaño_batch cfg / 2 + 1)) * 2) by lia.
      symmetry. apply range_app_paso; lia.
Qed.

(** For batches of odd size the numbers gone through are the even numbers
    of the range, in order. *)
Lemma despacho_impar_cubre (fuel : nat) (n_actual : Z)
    (ls : list (Z * Z * bool)) :
  1 ≤ num_cores cfg →
  n_actual `mod` 2 = 0 ∨ n_final cfg < n_actual →
  despacho cfg fuel n_actual = Some ls →
  numeros_verificados ls = Py.range n_actual (n_final cfg + 1) 2.
Proof.
  intros Hc. revert n_actual ls.
  induction fuel as [|fuel IH]; intros n ls Hn; cbn [despacho].
  - case_bool_decide as Hfin; [done|]. intros [= <-].
    by rewrite range_vacio by lia.
  - case_bool_decide as Hfin.
    2:{ intros [= <-]. by rewrite range_vacio by lia. }
    destruct (preparar_batches_primero cfg (Z.to_nat (num_cores cfg)) n)
      as (resto & n' & Hprep & _); [done|lia|done|].
    destruct (preparar_batches_cubre (Z.to_nat (num_cores cfg)) n Hn)
      as [Hcubre Hpar].
    rewrite Hprep in *. simpl in Hcubre, Hpar.
    destruct (despacho cfg fuel n') as [ls'|] eqn:Hdes; [|done].
    simpl. intros [= <-].
    rewrite app_comm_cons, numeros_verificados_app.
    by rewrite (IH n' ls' Hpar Hdes).
Qed.

End ParticionImpar.

(** * Further properties of the code

    ** The sieves *)

Lemma primos_hasta_caracterizacion (limite : Z) :
  StronglySorted Z.lt (primos_en 0 (limite + 1))
  ∧ ∀ p, p ∈ primos_en 0 (limite + 1) ↔ Z.prime p ∧ p ≤ limite.
Proof.
  split; [apply primos_en_ordenado|].
  intros p. rewrite elem_of_primos_en. split.
  - intros [Hp ?]. split; [done|lia].
  - intros [Hp ?]. split; [done|]. apply Z.prime_ge_2 in Hp. lia.
Qed.

(** X1: for a limit from 3 on and below [2^52], where
    [int(math.sqrt(n))] is the integer square root that the model takes it
    to be, the segmented sieve returns, without raising, the primes up to
    the limit and nothing else, in strictly ascending order. (Memory is
    taken to suffice.) *)
Theorem criba_segmentada_correcta (limite : Z) :
  3 ≤ limite → limite < 2 ^ 52 →
  ∃ primos, criba_eratostenes_segmentada limite = Some primos
    ∧ StronglySorted Z.lt primos
    ∧ ∀ p, p ∈ primos ↔ Z.prime p ∧ p ≤ limite.
Proof.
  intros Hl _. exists (primos_en 0 (limite + 1)).
  split; [by apply criba_eratostenes_segmentada_spec|].
  apply primos_hasta_caracterizacion.
Qed.

Lemma criba_segmentada_correcta_witness :
  ∃ primos, criba_eratostenes_segmentada 100 = Some primos
    ∧ StronglySorted Z.lt primos
    ∧ ∀ p, p ∈ primos ↔ Z.prime p ∧ p ≤ 100.
Proof.
  apply (criba_segmentada_correcta 100).
  - lia.
  - vm_compute. reflexivity.
Defined.

(** X2: for a limit below [2^52], where [int(math.sqrt(n))] is the integer
    square root that the model takes it to be, the flat sieve of the quick
    test returns, without raising, the primes up to the limit and nothing
    else, in strictly ascending order; below 2 that is the empty list.
    (Memory is taken to suffice for the array of [limite + 1] flags.) *)
Theorem criba_simple_correcta (limite : Z) :
  limite < 2 ^ 52 →
  ∃ primos, criba_eratostenes_simple limite = Some primos
    ∧ StronglySorted Z.lt primos
    ∧ (∀ p, p ∈ primos ↔ Z.prime p ∧ p ≤ limite)
    ∧ (limite < 2 → primos = []).
Proof.
  intros _. exists (primos_en 0 (limite + 1)).
  split; [apply criba_eratostenes_simple_spec|].
  destruct (primos_hasta_caracterizacion limite) as [Hord Hel].
  split; [done|]. split; [done|].
  intros Hl. apply primos_en_bajo_2. lia.
Qed.

Lemma criba_simple_correcta_witness :
  ∃ primos, criba_eratostenes_simple 30 = Some primos
    ∧ StronglySorted Z.lt primos
    ∧ (∀ p, p ∈ primos ↔ Z.prime p ∧ p ≤ 30)
    ∧ (30 < 2 → primos = []).
Proof.
  apply (criba_simple_correcta 30). vm_compute. reflexivity.
Defined.

(** ** The batch verifier is exact *)

Lemma ordenado_sin_repetidos (l : list Z) : StronglySorted Z.lt l → NoDup l.
Proof.
  induction 1 as [|x l _ IH Hx]; constructor; [|done].
  intros Hin. eapply Forall_forall in Hx; [|exact Hin]. lia.
Qed.

Lemma elem_of_pares_goldbach (n p : Z) :
  p ∈ pares_goldbach n ↔ Z.prime p ∧ Z.prime (n - p) ∧ 2 * p ≤ n.
Proof.
  unfold pares_goldbach.
  rewrite list_elem_of_filter, elem_of_primos_en, es_primo_spec.
  split.
  - intros (Hq & Hp & Hcota). split; [done|]. split; [done|].
    pose proof (Z.mul_div_le n 2 ltac:(lia)). lia.
  - intros (Hp & Hq & Hcota). split; [done|]. split; [done|].
    apply Z.prime_ge_2 in Hp as Hp2. split; [lia|].
    assert (p ≤ n / 2); [|lia]. apply Z.div_le_lower_bound; lia.
Qed.

Lemma pares_goldbach_sin_repetidos (n : Z) : NoDup (pares_goldbach n).
Proof.
  apply ordenado_sin_repetidos. unfold pares_goldbach.
  apply filter_ordenado, primos_en_ordenado.
Qed.

Lemma descomponible_pares_goldbach (n : Z) :
  descomponible n ↔ pares_goldbach n ≠ [].
Proof.
  split.
  - intros (p & q & Hp & Hq & Hn) Hnil.
    assert (Z.min p q ∈ pares_goldbach n) as Hin.
    { apply elem_of_pares_goldbach.
      destruct (Z.min_spec p q) as [[? ->]|[? ->]].
      - replace (n - p) with q by lia. split; [done|]. split; [done|lia].
      - replace (n - q) with p by lia. split; [done|]. split; [done|lia]. }
    rewrite Hnil in Hin. by apply elem_of_nil in Hin.
  - intros Hne. destruct (pares_goldbach n) as [|p l] eqn:Hl; [done|].
    assert (p ∈ pares_goldbach n) as Hin by (rewrite Hl; left).
    apply elem_of_pares_goldbach in Hin as (Hp & Hq & _).
    exists p, (n - p). split; [done|]. split; [done|lia].
Qed.

Lemma pares_goldbach_bajo_4 (n : Z) : n < 4 → pares_goldbach n = [].
Proof.
  intros Hn. apply elem_of_nil_inv. intros p Hp.
  apply elem_of_pares_goldbach in Hp as (Hp & Hq & _).
  apply Z.prime_ge_2 in Hp, Hq. lia.
Qed.

(** Whatever bound the primes were sieved for, the count for a number up
    to that bound is its number of prime pairs. *)
Lemma recuento_segun_criba (n_fin n : Z) (primos : list Z) :
  criba_eratostenes_segmentada n_fin = Some primos → n ≤ n_fin →
  contar_representaciones primos (list_to_set primos) n 0
  = Z.of_nat (length (pares_goldbach n)).
Proof.
  intros Hcr Hn. rewrite criba_eratostenes_segmentada_valor in Hcr.
  injection Hcr as <-.
  destruct (decide (n < 4)) as [Hlt|Hge].
  - rewrite pares_goldbach_bajo_4 by done. apply contar_corte.
    case_bool_decide; [constructor|].
    apply Forall_forall. intros p Hp.
    apply elem_of_primos_en in Hp as [Hp _]. apply Z.prime_ge_2 in Hp.
    assert (n / 2 < 2); [|lia]. apply Z.div_lt_upper_bound; lia.
  - rewrite bool_decide_false by lia.
    rewrite contar_representaciones_spec by lia. lia.
Qed.

Lemma recuento_positivo (n_fin n : Z) (primos : list Z) :
  criba_eratostenes_segmentada n_fin = Some primos → n ≤ n_fin →
  contar_representaciones primos (list_to_set primos) n 0 > 0
  ↔ descomponible n.
Proof.
  intros Hcr Hn. rewrite (recuento_segun_criba n_fin n primos Hcr Hn).
  rewrite descomponible_pares_goldbach.
  destruct (pares_goldbach n); simpl; [|split; [done|lia]].
  split; [lia|done].
Qed.

Lemma largo_filter_complemento {A} (P : A → Prop) `{!∀ x, Decision (P x)}
    (l : list A) :
  (length (filter P l) + length (filter (λ x, ¬ P x) l))%nat = length l.
Proof.
  induction l as [|x l IH]; [done|].
  rewrite !filter_cons. destruct (decide (P x)).
  - rewrite decide_False by tauto. simpl. lia.
  - rewrite decide_True by done. simpl. lia.
Qed.

(** X3: the counterexamples a batch reports are exactly the numbers of the
    batch that are not the sum of two primes, in ascending order, and
    [cumple] counts the others; this holds for every batch, whatever its
    bounds. *)
Theorem verificador_exacto (c : cache) (t0 t1 n_inicio n_fin : Z)
    (verbose : bool) :
  cache_coherente c →
  ∃ r c',
    verificar_goldbach_rango c t0 t1 (n_inicio, n_fin, verbose) = Some (r, c')
    ∧ (∀ n, n ∈ no_cumple r
            ↔ n ∈ numeros_del_lote (n_inicio, n_fin, verbose)
              ∧ ¬ descomponible n)
    ∧ StronglySorted Z.lt (no_cumple r)
    ∧ cumple r + Z.of_nat (length (no_cumple r))
      = Z.of_nat (length (numeros_del_lote (n_inicio, n_fin, verbose))).
Proof.
  intros Hc.
  destruct (verificar_goldbach_rango_campos c t0 t1 n_inicio n_fin verbose
              Hc) as (r & primos & Hcr & Hv & _ & _ & Hcu & Hno & _).
  exists r, (cache_con c n_fin primos). split; [done|].
  rewrite Hno, Hcu. split; [|split].
  - intros n. rewrite list_elem_of_filter. split.
    + intros [Hrep Hin]. split; [done|].
      apply elem_of_numeros_del_lote in Hin as Hn.
      by rewrite <- (recuento_positivo n_fin n primos Hcr) by lia.
    + intros [Hin Hnd]. split; [|done].
      apply elem_of_numeros_del_lote in Hin as Hn.
      by rewrite (recuento_positivo n_fin n primos Hcr) by lia.
  - apply filter_ordenado. unfold numeros_del_lote. apply range_ordenado. lia.
  - rewrite <- Nat2Z.inj_add. f_equal. apply largo_filter_complemento.
Qed.

Lemma verificador_exacto_witness :
  ∃ r c',
    verificar_goldbach_rango cache_vacio 0 0 (0, 20, false) = Some (r, c')
    ∧ (∀ n, n ∈ no_cumple r
            ↔ n ∈ numeros_del_lote (0, 20, false) ∧ ¬ descomponible n)
    ∧ StronglySorted Z.lt (no_cumple r)
    ∧ cumple r + Z.of_nat (length (no_cumple r))
      = Z.of_nat (length (numeros_del_lote (0, 20, false))).
Proof.
  apply (verificador_exacto cache_vacio 0 0 0 20 false).
  apply cache_vacio_coherente.
Defined.

(** X4: with the primes the code sieves for the end of the batch, the
    count of representations of a number up to that end is the number of
    primes [p] with [2 * p ≤ n] and [n - p] prime: every pair of primes
    that sums to [n] is counted once, not once per order. *)
Theorem recuento_de_pares (n_fin n : Z) :
  n ≤ n_fin →
  ∃ primos pares,
    criba_eratostenes_segmentada n_fin = Some primos
    ∧ contar_representaciones primos (list_to_set primos) n 0
      = Z.of_nat (length pares)
    ∧ NoDup pares
    ∧ ∀ p, p ∈ pares ↔ Z.prime p ∧ Z.prime (n - p) ∧ 2 * p ≤ n.
Proof.
  intros Hn.
  exists (if bool_decide (n_fin = 2) then [] else primos_en 0 (n_fin + 1)),
         (pares_goldbach n).
  split; [apply criba_eratostenes_segmentada_valor|].
  split; [|split].
  - apply (recuento_segun_criba n_fin); [|done].
    apply criba_eratostenes_segmentada_valor.
  - apply pares_goldbach_sin_repetidos.
  - apply elem_of_pares_goldbach.
Qed.

Lemma recuento_de_pares_witness :
  ∃ primos pares,
    criba_eratostenes_segmentada 100 = Some primos
    ∧ contar_representaciones primos (list_to_set primos) 100 0
      = Z.of_nat (length pares)
    ∧ NoDup pares
    ∧ ∀ p, p ∈ pares ↔ Z.prime p ∧ Z.prime (100 - p) ∧ 2 * p ≤ 100.
Proof. apply (recuento_de_pares 100 100). lia. Defined.

(** X6: the verifier takes any bounds: an even number up to 2 that falls in
    a batch (0, 2, the negative ones) is verified like the others and
    reported as a counterexample. *)
Theorem menores_que_4_son_contraejemplos (c : cache) (t0 t1 n_inicio n_fin : Z)
    (verbose : bool) (n : Z) :
  cache_coherente c →
  n ∈ numeros_del_lote (n_inicio, n_fin, verbose) → n ≤ 2 →
  ∃ r c',
    verificar_goldbach_rango c t0 t1 (n_inicio, n_fin, verbose) = Some (r, c')
    ∧ n ∈ no_cumple r.
Proof.
  intros Hc Hin Hn.
  destruct (verificar_goldbach_rango_campos c t0 t1 n_inicio n_fin verbose
              Hc) as (r & primos & Hcr & Hv & _ & _ & _ & Hno & _).
  exists r, (cache_con c n_fin primos). split; [done|].
  rewrite Hno. apply list_elem_of_filter. split; [|done].
  apply elem_of_numeros_del_lote in Hin as Hcota.
  rewrite (recuento_positivo n_fin n primos Hcr) by lia.
  intros (p & q & Hp & Hq & Hsum). apply Z.prime_ge_2 in Hp, Hq. lia.
Qed.

Lemma menores_que_4_son_contraejemplos_witness :
  ∃ r c',
    verificar_goldbach_rango cache_vacio 0 0 (-3, 8, false) = Some (r, c')
    ∧ 2 ∈ no_cumple r.
Proof.
  apply (menores_que_4_son_contraejemplos cache_vacio 0 0 (-3) 8 false 2).
  - apply cache_vacio_coherente.
  - vm_compute. repeat constructor.
  - lia.
Defined.

(** ** What a batch result records *)

(** X5: in the result of a batch, [min_representaciones] stays at infinity
    and [max_representaciones] at 0 exactly when no number of the batch has
    a representation; otherwise both are counts of numbers of the batch,
    the minimum is positive, and every number of the batch that has a
    representation has a count between the two. *)
Theorem extremos_del_lote (c : cache) (t0 t1 n_inicio n_fin : Z)
    (verbose : bool) :
  cache_coherente c →
  ∃ r c' primos,
    verificar_goldbach_rango c t0 t1 (n_inicio, n_fin, verbose) = Some (r, c')
    ∧ criba_eratostenes_segmentada n_fin = Some primos
    ∧ extremos_de primos (list_to_set primos)
        (numeros_del_lote (n_inicio, n_fin, verbose)) r.
Proof.
  intros Hc.
  destruct (verificar_goldbach_rango_spec c t0 t1 (n_inicio, n_fin, verbose)
              Hc) as (primos & Hcr & Hv).
  eexists _, _, primos. split; [exact Hv|]. split; [exact Hcr|].
  assert (∀ hechos r t,
            extremos_de primos (list_to_set primos) hechos r →
            extremos_de primos (list_to_set primos) hechos (con_tiempo r t))
    as Htiempo by done.
  apply Htiempo. unfold verificar_con_primos.
  apply (extremos_de_foldl primos (list_to_set primos) []).
  unfold extremos_de. simpl. split; [done|].
  intros n Hn. by apply elem_of_nil in Hn.
Qed.

Lemma extremos_del_lote_witness :
  ∃ r c' primos,
    verificar_goldbach_rango cache_vacio 0 0 (6, 30, false) = Some (r, c')
    ∧ criba_eratostenes_segmentada 30 = Some primos
    ∧ extremos_de primos (list_to_set primos)
        (numeros_del_lote (6, 30, false)) r.
Proof.
  apply (extremos_del_lote cache_vacio 0 0 6 30 false).
  apply cache_vacio_coherente.
Defined.

(** ** The prime cache *)

Lemma cache_con_tiene (c : cache) (n : Z) (primos : list Z) :
  is_Some (_cache_primos (cache_con c n primos) !! n).
Proof.
  unfold cache_con. case_bool_decide as H; [done|].
  simpl. rewrite lookup_insert_eq. by eexists.
Qed.

Lemma cache_con_presente (c : cache) (n : Z) (primos : list Z) :
  is_Some (_cache_primos c !! n) → cache_con c n primos = c.
Proof. intros H. unfold cache_con. by rewrite bool_decide_true. Qed.

Lemma cache_con_otros (c : cache) (n m : Z) (primos : list Z) :
  m ≠ n →
  _cache_primos (cache_con c n primos) !! m = _cache_primos c !! m
  ∧ _cache_set_primos (cache_con c n primos) !! m
    = _cache_set_primos c !! m.
Proof.
  intros Hm. unfold cache_con. case_bool_decide; [done|].
  simpl. by rewrite !lookup_insert_ne.
Qed.

(** X7: a call for bound [n] on a cache that only this function has
    written returns the sieve's primes and the set of the same numbers; it
    leaves every other entry as it was, leaves the cache untouched when [n]
    was a key, and a second call for [n] returns the same without changing
    the cache any more. *)
Theorem obtener_primos_hasta_idempotente (c : cache) (n : Z) :
  cache_coherente c →
  ∃ primos set_primos c',
    obtener_primos_hasta c n = Some (primos, set_primos, c')
    ∧ criba_eratostenes_segmentada n = Some primos
    ∧ (∀ q, q ∈ set_primos ↔ q ∈ primos)
    ∧ cache_coherente c'
    ∧ obtener_primos_hasta c' n = Some (primos, set_primos, c')
    ∧ (is_Some (_cache_primos c !! n) → c' = c)
    ∧ ∀ m, m ≠ n →
        _cache_primos c' !! m = _cache_primos c !! m
        ∧ _cache_set_primos c' !! m = _cache_set_primos c !! m.
Proof.
  intros Hc.
  destruct (obtener_primos_hasta_spec c n Hc) as (primos & Hcr & Hob).
  exists primos, (list_to_set primos), (cache_con c n primos).
  split; [done|]. split; [done|].
  split; [intros q; apply elem_of_list_to_set|].
  assert (cache_coherente (cache_con c n primos)) as Hc'
    by by apply cache_con_coherente.
  split; [done|]. split; [|split].
  - destruct (obtener_primos_hasta_spec _ n Hc') as (primos' & Hcr' & ->).
    assert (primos' = primos) as -> by congruence.
    do 2 f_equal. apply cache_con_presente, cache_con_tiene.
  - apply cache_con_presente.
  - intros m Hm. by apply cache_con_otros.
Qed.

Lemma obtener_primos_hasta_idempotente_witness :
  ∃ primos set_primos c',
    obtener_primos_hasta cache_vacio 30 = Some (primos, set_primos, c')
    ∧ criba_eratostenes_segmentada 30 = Some primos
    ∧ (∀ q, q ∈ set_primos ↔ q ∈ primos)
    ∧ cache_coherente c'
    ∧ obtener_primos_hasta c' 30 = Some (primos, set_primos, c')
    ∧ (is_Some (_cache_primos cache_vacio !! 30) → c' = cache_vacio)
    ∧ ∀ m, m ≠ 30 →
        _cache_primos c' !! m = _cache_primos cache_vacio !! m
        ∧ _cache_set_primos c' !! m = _cache_set_primos cache_vacio !! m.
Proof.
  apply (obtener_primos_hasta_idempotente cache_vacio 30).
  apply cache_vacio_coherente.
Defined.

(** ** The driver loop in any world *)

Lemma elem_of_sin_pares (l : list Z) (n : Z) :
  n ∈ sin_pares l ↔ n ∈ l ∧ ¬ descomponible n.
Proof.
  unfold sin_pares. rewrite list_elem_of_filter, descomponible_pares_goldbach.
  split; intros [? ?]; split; try done.
  - by intros ?.
  - by destruct (decide (pares_goldbach n = [])).
Qed.

Lemma sin_pares_app (l1 l2 : list Z) :
  sin_pares (l1 ++ l2) = sin_pares l1 ++ sin_pares l2.
Proof. apply filter_app. Qed.

Section TareaExacta.

Variable mundo : Mundo.

Lemma tarea_exacta (args : Z * Z * bool) :
  ∃ r, tarea mundo args = Some r ∧ resultado_de args r.
Proof.
  destruct args as [[a b] v]. unfold tarea.
  destruct (cronometro mundo (a, b, v)) as [t0 t1].
  destruct (verificar_goldbach_rango_campos cache_vacio t0 t1 a b v
              cache_vacio_coherente)
    as (r & primos & Hcr & -> & Hr & Hv & Hcu & Hno & _).
  exists r. split; [done|]. unfold resultado_de, sin_pares.
  assert (no_cumple r
          = filter (λ n, pares_goldbach n = []) (numeros_del_lote (a, b, v)))
    as Hno'.
  { rewrite Hno. apply filter_ext_elem. intros n Hn.
    apply elem_of_numeros_del_lote in Hn.
    rewrite (recuento_segun_criba b n primos Hcr) by lia.
    destruct (pares_goldbach n); simpl; [split; [done|lia]|].
    split; [lia|done]. }
  split; [done|]. split; [done|]. split; [done|].
  rewrite <- Hno', Hno, Hcu, <- Nat2Z.inj_add. f_equal.
  apply largo_filter_complemento.
Qed.

Lemma mapM_tarea_exacta (batches : list (Z * Z * bool)) :
  ∃ rs, mapM (tarea mundo) batches = Some rs
    ∧ Forall2 resultado_de batches rs.
Proof.
  induction batches as [|args batches (rs & Hrs & HF)].
  - exists []. split; [done|constructor].
  - destruct (tarea_exacta args) as (r & Hr & Hres).
    exists (r :: rs). split.
    + simpl. rewrite Hr. simpl. rewrite Hrs. done.
    + by constructor.
Qed.

End TareaExacta.

Lemma progreso_tras_nada (p : Progreso) : progreso_tras p [] p.
Proof.
  unfold progreso_tras. simpl. rewrite app_nil_r. repeat split; lia.
Qed.

Lemma progreso_tras_app (p p' p'' : Progreso) (ls1 ls2 : list (Z * Z * bool)) :
  progreso_tras p ls1 p' → progreso_tras p' ls2 p'' →
  progreso_tras p (ls1 ++ ls2) p''.
Proof.
  intros (Hu & Ht & Hc & Hcu & Hi) (Hu' & Ht' & Hc' & Hcu' & Hi').
  unfold progreso_tras.
  rewrite ultimo_tras_app, numeros_verificados_app, sin_pares_app.
  rewrite !length_app, Hu', Ht', Hc', Hu, Ht, Hc, Hi', Hi.
  rewrite app_assoc. repeat split; lia.
Qed.

Lemma foldl_consolidar_exacto (progreso : Progreso)
    (batches : list (Z * Z * bool)) (rs : list resultados) :
  Forall2 resultado_de batches rs →
  progreso_tras progreso batches (foldl consolidar progreso rs).
Proof.
  intros HF. revert progreso.
  induction HF as [|args r batches rs (Hr & Hv & Hno & Hcu) _ IH];
    intros progreso.
  - apply progreso_tras_nada.
  - simpl. apply (progreso_tras_app _ (consolidar progreso r) _ [args]);
      [|apply IH].
    unfold progreso_tras, consolidar. simpl.
    unfold numeros_verificados. simpl. rewrite app_nil_r.
    rewrite Hr, Hv, Hno. simpl. repeat split; lia.
Qed.

Section BucleGeneral.

Variable cfg : Config.
Variable mundo : Mundo.

Lemma bucle_mas_fuel (fuel k ronda : nat) (n_actual : Z) (progreso : Progreso)
    (ultimo_guardado : Z) (e : ejecucion) :
  bucle cfg mundo fuel ronda n_actual progreso ultimo_guardado = Some e →
  bucle cfg mundo (fuel + k) ronda n_actual progreso ultimo_guardado = Some e.
Proof.
  revert ronda n_actual progreso ultimo_guardado e.
  induction fuel as [|fuel IH]; intros ronda n progreso ug e.
  - cbn [bucle]. case_bool_decide as Hn; [done|]. intros <-.
    by rewrite bucle_fin by lia.
  - cbn [bucle Nat.add]. case_bool_decide as Hn; [|done].
    destruct (preparar_batches cfg (Z.to_nat (num_cores cfg)) n)
      as [[|lote batches] n']; [done|].
    destruct (suceso_ronda mundo ronda); [|done|done].
    destruct (mapM (tarea mundo) (lote :: batches)) as [rs|]; [|done].
    cbv zeta. destruct (_ && _); [done|].
    destruct (bucle cfg mundo fuel (S ronda) n' _ _) as [e'|] eqn:He';
      [|done].
    by rewrite (IH _ _ _ _ _ He').
Qed.

(** One round of the loop that [pool.map] gets through, with all that is
    merged into the progress. *)
Lemma bucle_ronda_normal_exacta (fuel ronda : nat) (n_actual : Z)
    (progreso : Progreso) (ultimo_guardado : Z)
    (lote : Z * Z * bool) (batches : list (Z * Z * bool)) (n_actual' : Z) :
  n_actual ≤ n_final cfg →
  preparar_batches cfg (Z.to_nat (num_cores cfg)) n_actual
    = (lote :: batches, n_actual') →
  suceso_ronda mundo ronda = Normal →
  ∃ progreso',
    progreso_tras progreso (lote :: batches) progreso'
    ∧ bucle cfg mundo (S fuel) ronda n_actual progreso ultimo_guardado
      = (let guarda :=
           bool_decide (reloj_ronda mundo ronda - ultimo_guardado
                        >= intervalo_guardado cfg) in
         if guarda
            && bool_decide (generar_reporte cfg mundo progreso' = None)
         then Some (corte_por_informe progreso' (lote :: batches))
         else
           e ← bucle cfg mundo fuel (S ronda) n_actual' progreso'
                 (if guarda then reloj_ronda mundo ronda
                  else ultimo_guardado);
           Some (anteponer (lote :: batches)
                   (if guarda then [progreso'] else []) e)).
Proof.
  intros Hn Hprep Hsuc.
  destruct (mapM_tarea_exacta mundo (lote :: batches)) as (rs & Hrs & HF).
  exists (foldl consolidar progreso rs).
  split; [by apply foldl_consolidar_exacto|].
  cbn [bucle]. rewrite bool_decide_true by done.
  rewrite Hprep, Hsuc, Hrs. done.
Qed.

(** What every run of the loop keeps, however it ends: the batches it
    dispatched are those of the rounds that came through, followed by those
    of the round that was cut short, if any; the progress it ends with is
    the starting one with the batches that came through merged, and no
    other; that progress is the last dictionary saved, and every dictionary
    saved is the progress after some of the rounds. *)
Lemma bucle_invariante (fuel ronda : nat) (n_actual : Z)
    (progreso : Progreso) (ultimo_guardado : Z) (e : ejecucion) :
  bucle cfg mundo fuel ronda n_actual progreso ultimo_guardado = Some e →
  ∃ k pendientes,
    lotes e = (rondas cfg k n_actual).1 ++ pendientes
    ∧ progreso_tras progreso (rondas cfg k n_actual).1 (progreso_final e)
    ∧ last (guardados e) = Some (progreso_final e)
    ∧ Forall (λ p, ∃ j, (j ≤ k)%nat
                ∧ progreso_tras progreso (rondas cfg j n_actual).1 p)
        (guardados e)
    ∧ estado_final e ≠ YaCompletada
    ∧ (estado_final e = Completada →
       pendientes = []
       ∧ (n_final cfg < (rondas cfg k n_actual).2 ∨ num_cores cfg < 1))
    ∧ (estado_final e ≠ Completada →
       (pendientes = [] ∧ estado_final e = Fallida
        ∧ generar_reporte cfg mundo (progreso_final e) = None)
       ∨ (pendientes
          = (preparar_batches cfg (Z.to_nat (num_cores cfg))
               (rondas cfg k n_actual).2).1
          ∧ pendientes ≠ [])).
Proof.
  revert ronda n_actual progreso ultimo_guardado e.
  induction fuel as [|fuel IH]; intros ronda n progreso ug e He.
  - cbn [bucle] in He. case_bool_decide as Hn; [done|].
    injection He as <-. exists 0%nat, []. simpl.
    split; [done|]. split; [apply progreso_tras_nada|]. split; [done|].
    split.
    { constructor; [|constructor]. exists 0%nat. split; [done|].
      apply progreso_tras_nada. }
    repeat split; try done; lia.
  - destruct (decide (n ≤ n_final cfg)) as [Hn|Hn].
    2:{ rewrite bucle_fin in He by lia. injection He as <-.
        exists 0%nat, []. simpl.
        split; [done|]. split; [apply progreso_tras_nada|]. split; [done|].
        split.
        { constructor; [|constructor]. exists 0%nat. split; [done|].
          apply progreso_tras_nada. }
        repeat split; try done; lia. }
    destruct (preparar_batches cfg (Z.to_nat (num_cores cfg)) n)
      as [[|lote batches] n'] eqn:Hprep.
    { cbn [bucle] in He. rewrite bool_decide_true, Hprep in He by done.
      injection He as <-. exists 0%nat, []. simpl.
      split; [done|]. split; [apply progreso_tras_nada|]. split; [done|].
      split.
      { constructor; [|constructor]. exists 0%nat. split; [done|].
        apply progreso_tras_nada. }
      repeat split; try done; try lia. right.
      destruct (Z.to_nat (num_cores cfg)) eqn:Hc; [lia|].
      simpl in Hprep. rewrite bool_decide_false in Hprep by lia.
      by destruct (preparar_batches cfg n0 _). }
    destruct (decide (suceso_ronda mundo ronda = Normal)) as [Hs|Hs].
    + destruct (bucle_ronda_normal_exacta fuel ronda n progreso ug _ _ _
                  Hn Hprep Hs) as (progreso' & Htras & Hb).
      rewrite Hb in He. cbv zeta in He.
      assert (∀ j, (rondas cfg (S j) n).1
                   = (lote :: batches) ++ (rondas cfg j n').1) as Hrj.
      { intros j. cbn [rondas]. rewrite Hprep.
        by destruct (rondas cfg j n'). }
      destruct (_ && _) eqn:Hinforme.
      { injection He as <-. apply andb_true_iff in Hinforme as [_ Hinf].
        apply bool_decide_eq_true in Hinf.
        exists 1%nat, []. rewrite (Hrj 0%nat). simpl. rewrite !app_nil_r.
        split; [done|]. split; [done|]. split; [done|]. split.
        { repeat constructor; exists 1%nat; (split; [lia|]);
            rewrite (Hrj 0%nat); simpl; by rewrite app_nil_r. }
        split; [done|]. split; [done|]. intros _. by left. }
      destruct (bucle cfg mundo fuel (S ronda) n' progreso' _)
        as [e'|] eqn:He'; [|done].
      injection He as <-.
      destruct (IH _ _ _ _ _ He')
        as (k & pend & Hl & Htras' & Hg & Hgs & Hya & Hcomp & Hcut).
      exists (S k), pend.
      assert ((rondas cfg (S k) n).2 = (rondas cfg k n').2) as Hr2.
      { cbn [rondas]. rewrite Hprep. by destruct (rondas cfg k n'). }
      rewrite Hrj, Hr2. unfold anteponer.
      cbn [lotes guardados estado_final progreso_final].
      split; [by rewrite Hl, <- app_assoc|].
      split; [by apply (progreso_tras_app _ progreso')|].
      split; [by rewrite last_app, Hg|].
      split; [|done].
      apply Forall_app. split.
      * destruct (bool_decide _); [|constructor].
        constructor; [|constructor]. exists 1%nat. split; [lia|].
        rewrite (Hrj 0%nat). simpl. by rewrite app_nil_r.
      * eapply Forall_impl; [exact Hgs|]. intros p (j & Hj & Hp).
        exists (S j). split; [lia|]. rewrite Hrj.
        by apply (progreso_tras_app _ progreso').
    + destruct (bucle_ronda_cortada cfg mundo fuel ronda n progreso ug _ _ _
                  Hn Hprep Hs) as (estado & Hest & Hb).
      rewrite Hb in He. injection He as <-.
      exists 0%nat, (lote :: batches). simpl. rewrite Hprep. simpl.
      cbn [bucle] in Hb. rewrite bool_decide_true, Hprep in Hb by done.
      split; [done|]. split; [apply progreso_tras_nada|]. split; [done|].
      split.
      { constructor; [|constructor]. exists 0%nat. split; [done|].
        apply progreso_tras_nada. }
      split.
      { destruct (suceso_ronda mundo ronda); [done| |];
          injection Hb as <-; done. }
      split; [done|]. intros _. by right.
Qed.

End BucleGeneral.

Section ConductorGeneral.

Variable cfg : Config.
Variable mundo : Mundo.

(** X8: with batches of at least one number and at least one core the
    driver comes to an end in every world, after at most
    [n_final - ultimo_n_verificado] rounds, and what it returns does not
    depend on how many more rounds it is allowed. *)
Theorem conductor_termina (progreso : Progreso) :
  1 ≤ tamaño_batch cfg → 1 ≤ num_cores cfg →
  ∃ e, ∀ fuel,
    (Z.to_nat (n_final cfg - ultimo_n_verificado progreso) ≤ fuel)%nat →
    verificacion_desde cfg mundo fuel progreso = Some e.
Proof.
  intros Hb Hc. unfold verificacion_desde.
  destruct (asegurar_par_spec (ultimo_n_verificado progreso + 2))
    as [_ Hcota].
  case_bool_decide as Hfin; [by eexists|].
  rewrite bool_decide_false by lia.
  destruct (bucle_termina cfg mundo
              (Z.to_nat (n_final cfg - ultimo_n_verificado progreso)) 0
              (asegurar_par (ultimo_n_verificado progreso + 2)) progreso
              (reloj_inicial mundo) Hb Hc) as (e & He & _); [lia|].
  exists e. intros fuel Hfuel.
  replace fuel
    with (Z.to_nat (n_final cfg - ultimo_n_verificado progreso)
          + (fuel - Z.to_nat (n_final cfg - ultimo_n_verificado progreso)))%nat
    by lia.
  by apply bucle_mas_fuel.
Qed.

Lemma preparar_batches_retrocede (vueltas : nat) (n_actual : Z) :
  tamaño_batch cfg ≤ -1 → n_actual ≤ n_final cfg →
  (preparar_batches cfg vueltas n_actual).2 ≤ n_actual
  ∧ ((1 ≤ vueltas)%nat → (preparar_batches cfg vueltas n_actual).1 ≠ [])
  ∧ numeros_verificados (preparar_batches cfg vueltas n_actual).1 = [].
Proof.
  intros Hb. revert n_actual. induction vueltas as [|k IH]; intros n Hn.
  - simpl. split; [lia|]. split; [lia|done].
  - simpl. rewrite bool_decide_false by lia.
    rewrite Z.min_l by lia.
    destruct (IH (n + tamaño_batch cfg - 1 + 2)) as (Hle & _ & Hnada); [lia|].
    destruct (preparar_batches cfg k _) as [bs n']. cbn [fst snd] in *.
    split; [lia|]. split; [done|].
    change (numeros_verificados ((n, n + tamaño_batch cfg - 1, false) :: bs))
      with (numeros_del_lote (n, n + tamaño_batch cfg - 1, false)
            ++ numeros_verificados bs).
    rewrite Hnada, app_nil_r. unfold numeros_del_lote.
    destruct (asegurar_par_spec n) as [_ ?]. apply range_vacio; lia.
Qed.

(** With a batch size of -1 or less the loop stands still: it ends only
    when a periodic report raises, and it verifies nothing. *)
Lemma bucle_no_termina (fuel ronda : nat) (n_actual : Z)
    (progreso : Progreso) (ultimo_guardado : Z) :
  tamaño_batch cfg ≤ -1 → 1 ≤ num_cores cfg →
  (∀ k, suceso_ronda mundo k = Normal) →
  n_actual ≤ n_final cfg →
  (∀ e, bucle cfg mundo fuel ronda n_actual progreso ultimo_guardado
        = Some e →
     estado_final e = Fallida ∧ lanza e = true
     ∧ generar_reporte cfg mundo (progreso_final e) = None
     ∧ numeros_verificados (lotes e) = [])
  ∧ ((∀ k, reloj_ronda mundo k - ultimo_guardado < intervalo_guardado cfg) →
     bucle cfg mundo fuel ronda n_actual progreso ultimo_guardado = None).
Proof.
  intros Hb Hc Hmundo.
  revert ronda n_actual progreso ultimo_guardado.
  induction fuel as [|fuel IH]; intros ronda n progreso ug Hn.
  - cbn [bucle]. rewrite bool_decide_true by done. split; [done|done].
  - destruct (preparar_batches_retrocede (Z.to_nat (num_cores cfg)) n Hb Hn)
      as (Hle & Hne & Hnada).
    destruct (preparar_batches cfg (Z.to_nat (num_cores cfg)) n)
      as [[|lote batches] n'] eqn:Hprep; [by destruct Hne; [lia|]|].
    cbn [fst snd] in Hle, Hnada.
    destruct (bucle_ronda_normal cfg mundo fuel ronda n progreso ug _ _ _
                Hn Hprep (Hmundo ronda)) as (progreso' & _ & _ & ->).
    cbv zeta. split.
    + intros e. destruct (_ && _) eqn:Hinforme.
      * intros [= <-]. apply andb_true_iff in Hinforme as [_ Hinf].
        apply bool_decide_eq_true in Hinf. done.
      * destruct (IH (S ronda) n' progreso'
                    (if bool_decide (reloj_ronda mundo ronda - ug
                                     >= intervalo_guardado cfg)
                     then reloj_ronda mundo ronda else ug)) as [Hsale _];
          [lia|].
        destruct (bucle cfg mundo fuel (S ronda) n' progreso' _)
          as [e'|]; [|done].
        intros [= <-]. destruct (Hsale e' eq_refl) as (? & ? & ? & Hn').
        unfold anteponer.
        cbn [estado_final lanza progreso_final lotes].
        by rewrite numeros_verificados_app, Hnada, Hn'.
    + intros Hreloj.
      rewrite (bool_decide_false
                 (reloj_ronda mundo ronda - ug >= intervalo_guardado cfg))
        by (specialize (Hreloj ronda); lia).
      cbn [andb].
      destruct (IH (S ronda) n' progreso' ug) as [_ ->]; [lia|done|done].
Qed.

(** X9: nothing checks [tamaño_batch]: when it is -1 or less and there is
    work left, the loop dispatches empty batches without ever moving
    forward. Unless a round is cut short from outside, the only way out is
    a periodic report that raises, after which the driver saves and raises
    in turn, having verified nothing; when no periodic save falls due the
    driver never returns, however many rounds it is given. *)
Theorem conductor_no_termina (progreso : Progreso) (fuel : nat) :
  tamaño_batch cfg ≤ -1 → 1 ≤ num_cores cfg →
  (∀ k, suceso_ronda mundo k = Normal) →
  asegurar_par (ultimo_n_verificado progreso + 2) < n_final cfg →
  (∀ e, verificacion_desde cfg mundo fuel progreso = Some e →
     estado_final e = Fallida ∧ lanza e = true
     ∧ generar_reporte cfg mundo (progreso_final e) = None
     ∧ numeros_verificados (lotes e) = [])
  ∧ ((∀ k, reloj_ronda mundo k - reloj_inicial mundo
           < intervalo_guardado cfg) →
     verificacion_desde cfg mundo fuel progreso = None).
Proof.
  intros Hb Hc Hmundo Hfin. unfold verificacion_desde.
  rewrite bool_decide_false by lia. rewrite bool_decide_false by lia.
  apply bucle_no_termina; [done|done|done|lia].
Qed.

(** X10: every way out of the driver but the early return saves first, and
    what is saved last is the progress the run ends with; the early return
    saves nothing; and, with interruptions and failures striking inside
    [pool.map] as a world has them, every dictionary handed to
    [guardar_progreso] is the progress after a whole number of rounds,
    never after a part of one. *)
Theorem conductor_guarda_al_salir (fuel : nat) (progreso : Progreso)
    (e : ejecucion) :
  verificacion_desde cfg mundo fuel progreso = Some e →
  (estado_final e = YaCompletada → guardados e = [])
  ∧ (estado_final e ≠ YaCompletada →
     last (guardados e) = Some (progreso_final e))
  ∧ Forall (λ p, ∃ j,
        progreso_tras progreso
          (rondas cfg j (asegurar_par (ultimo_n_verificado progreso + 2))).1
          p)
      (guardados e).
Proof.
  unfold verificacion_desde. case_bool_decide as Hfin.
  { intros [= <-]. simpl. split; [done|]. split; [done|]. constructor. }
  case_bool_decide as Hc.
  { intros [= <-]. simpl. split; [done|]. split; [done|].
    constructor; [|constructor]. exists 0%nat. apply progreso_tras_nada. }
  intros He. apply bucle_invariante in He
    as (k & pend & _ & _ & Hg & Hgs & Hya & _).
  split; [done|]. split; [done|].
  eapply Forall_impl; [exact Hgs|]. intros p (j & _ & Hp). by exists j.
Qed.

(** X11: whatever the world, the progress a run ends with is the loaded one
    with the batches of the rounds that came through merged and nothing
    else: it stands at the end of the last of them, has counted their
    numbers, and has added to the counterexamples exactly those of their
    numbers that are not the sum of two primes, in the order verified. The
    batches of a round that was cut short were dispatched but are not
    counted; a completed run has none. *)
Theorem conductor_refleja_rondas (fuel : nat) (progreso : Progreso)
    (e : ejecucion) :
  verificacion_desde cfg mundo fuel progreso = Some e →
  ∃ hechos pendientes,
    lotes e = hechos ++ pendientes
    ∧ ultimo_n_verificado (progreso_final e)
      = ultimo_tras (ultimo_n_verificado progreso) hechos
    ∧ total_verificados (progreso_final e)
      = total_verificados progreso
        + Z.of_nat (length (numeros_verificados hechos))
    ∧ contraejemplos (progreso_final e)
      = contraejemplos progreso ++ sin_pares (numeros_verificados hechos)
    ∧ (∀ n, n ∈ sin_pares (numeros_verificados hechos)
            ↔ n ∈ numeros_verificados hechos ∧ ¬ descomponible n)
    ∧ total_cumple (progreso_final e)
        + Z.of_nat (length (sin_pares (numeros_verificados hechos)))
      = total_cumple progreso
        + Z.of_nat (length (numeros_verificados hechos))
    ∧ (estado_final e = Completada ∨ estado_final e = YaCompletada →
       pendientes = []).
Proof.
  unfold verificacion_desde. case_bool_decide as Hfin.
  { intros [= <-]. exists [], []. simpl.
    destruct (progreso_tras_nada progreso) as (? & ? & ? & ? & _).
    split; [done|]. split; [done|]. split; [done|]. split; [done|].
    split; [apply elem_of_sin_pares|]. done. }
  case_bool_decide as Hc.
  { intros [= <-]. exists [], []. simpl.
    destruct (progreso_tras_nada progreso) as (? & ? & ? & ? & _).
    split; [done|]. split; [done|]. split; [done|]. split; [done|].
    split; [apply elem_of_sin_pares|]. done. }
  intros He. apply bucle_invariante in He
    as (k & pend & Hl & (Hu & Ht & Hce & Hcu & _) & _ & _ & Hya & Hcomp & _).
  eexists _, pend. split; [exact Hl|].
  split; [done|]. split; [done|]. split; [done|].
  split; [apply elem_of_sin_pares|]. split; [done|].
  intros [Hest|Hest]; [by apply Hcomp|done].
Qed.

End ConductorGeneral.

(** ** Batches of odd size: the progress invariant and resuming *)

Lemma range_pares_app (a m c : Z) :
  a `mod` 2 = 0 → m `mod` 2 = 0 → a - 2 ≤ m → m + 1 ≤ c →
  Py.range a (m + 1) 2 ++ Py.range (m + 2) c 2 = Py.range a c 2.
Proof.
  intros Ha Hm Ham Hc.
  pose proof (Z.div_mod a 2 ltac:(lia)) as Ha2.
  pose proof (Z.div_mod m 2 ltac:(lia)) as Hm2.
  assert (Py.range a (m + 1) 2 = Py.range a (m + 2) 2) as ->.
  { apply range_mismo_largo.
    replace (m + 1 - a + 2 - 1) with (0 + (m / 2 - a / 2 + 1) * 2) by lia.
    replace (m + 2 - a + 2 - 1) with (1 + (m / 2 - a / 2 + 1) * 2) by lia.
    by rewrite !Z.div_add by lia. }
  destruct (decide (c ≤ m + 2)) as [Hle|Hgt].
  - rewrite (range_vacio (m + 2) c) by lia. rewrite app_nil_r.
    apply range_mismo_largo.
    destruct (decide (c = m + 2)) as [->|]; [done|].
    assert (c = m + 1) as -> by lia.
    replace (m + 1 - a + 2 - 1) with (0 + (m / 2 - a / 2 + 1) * 2) by lia.
    replace (m + 2 - a + 2 - 1) with (1 + (m / 2 - a / 2 + 1) * 2) by lia.
    by rewrite !Z.div_add by lia.
  - replace (m + 2) with (a + Z.of_nat (Z.to_nat (m / 2 - a / 2 + 1)) * 2)
      by lia.
    symmetry. apply range_app_paso; lia.
Qed.

Lemma preparar_batches_fuera (cfg : Config) (vueltas : nat) (n_actual : Z) :
  n_final cfg < n_actual →
  preparar_batches cfg vueltas n_actual = ([], n_actual).
Proof.
  intros Hn. destruct vueltas; [done|].
  simpl. by rewrite bool_decide_true by lia.
Qed.

Lemma preparar_batches_ultimo (cfg : Config) (vueltas : nat) (n_actual : Z) :
  (preparar_batches cfg vueltas n_actual).2
  = ultimo_tras (n_actual - 2) (preparar_batches cfg vueltas n_actual).1 + 2.
Proof.
  revert n_actual. induction vueltas as [|k IH]; intros n; simpl.
  - unfold ultimo_tras. simpl. lia.
  - case_bool_decide; [unfold ultimo_tras; simpl; lia|].
    specialize (IH (Z.min (n + tamaño_batch cfg - 1) (n_final cfg) + 2)).
    destruct (preparar_batches cfg k _) as [bs n']. simpl in *.
    rewrite IH. unfold ultimo_tras. simpl. do 2 f_equal. lia.
Qed.

Lemma rondas_fuera (cfg : Config) (k : nat) (n_actual : Z) :
  n_final cfg < n_actual → rondas cfg k n_actual = ([], n_actual).
Proof.
  intros Hn. induction k as [|k IH]; [done|].
  cbn [rondas]. rewrite preparar_batches_fuera by done. by rewrite IH.
Qed.

Section ImparGeneral.

Variable cfg : Config.

Hypothesis Himpar : tamaño_batch cfg `mod` 2 = 1.
Hypothesis Hpositivo : 1 ≤ tamaño_batch cfg.

Lemma preparar_batches_impar (vueltas : nat) (n_actual : Z) :
  entre_rondas cfg n_actual →
  numeros_verificados (preparar_batches cfg vueltas n_actual).1
    = Py.range n_actual ((preparar_batches cfg vueltas n_actual).2 - 1) 2
  ∧ entre_rondas cfg (preparar_batches cfg vueltas n_actual).2
  ∧ n_actual ≤ (preparar_batches cfg vueltas n_actual).2
  ∧ ((preparar_batches cfg vueltas n_actual).2 ≤ n_final cfg + 2
     ∨ (preparar_batches cfg vueltas n_actual).2 = n_actual).
Proof.
  revert n_actual. induction vueltas as [|k IH]; intros n Hn.
  - simpl. rewrite range_vacio by lia. split; [done|].
    split; [done|]. split; [lia|]. by right.
  - destruct (decide (n_final cfg < n)) as [Hfuera|Hdentro].
    { rewrite preparar_batches_fuera by done. simpl.
      rewrite range_vacio by lia. split; [done|].
      split; [done|]. split; [lia|]. by right. }
    destruct Hn as [Hn|Hn]; [|lia].
    simpl. rewrite bool_decide_false by lia.
    set (n_fin := Z.min (n + tamaño_batch cfg - 1) (n_final cfg)).
    assert (n ≤ n_fin ≤ n_final cfg) as Hcota by (unfold n_fin; lia).
    assert (n_fin `mod` 2 = 0 ∨ n_fin = n_final cfg) as Hnf.
    { destruct (decide (n_fin = n_final cfg)); [by right|left].
      assert (n_fin = n + tamaño_batch cfg - 1) as -> by (unfold n_fin; lia).
      pose proof (Z.div_mod n 2 ltac:(lia)).
      pose proof (Z.div_mod (tamaño_batch cfg) 2 ltac:(lia)).
      replace (n + tamaño_batch cfg - 1)
        with ((n / 2 + tamaño_batch cfg / 2) * 2) by lia.
      apply Z.mod_mul. lia. }
    assert (entre_rondas cfg (n_fin + 2)) as Hsig.
    { destruct Hnf as [Hpar| ->]; [left|by right].
      rewrite Z.add_mod, Hpar by lia. done. }
    destruct (IH (n_fin + 2) Hsig) as (Hnums & Hentre & Hle & Hmax).
    destruct (preparar_batches cfg k (n_fin + 2)) as [bs n'] eqn:Hprep.
    simpl in *. split; [|split; [done|split; [lia|]]].
    + change (numeros_verificados ((n, n_fin, false) :: bs))
        with (numeros_del_lote (n, n_fin, false) ++ numeros_verificados bs).
      rewrite Hnums. unfold numeros_del_lote.
      rewrite asegurar_par_de_par by done.
      destruct Hnf as [Hpar|Hult].
      * apply range_pares_app; [done|done|lia|lia].
      * assert (n' = n_fin + 2) as ->.
        { rewrite preparar_batches_fuera in Hprep by lia. congruence. }
        rewrite (range_vacio (n_fin + 2)) by lia. rewrite app_nil_r.
        by replace (n_fin + 2 - 1) with (n_fin + 1) by lia.
    + left. destruct Hmax as [?| ->]; lia.
Qed.

Lemma rondas_impar (k : nat) (n_actual : Z) :
  entre_rondas cfg n_actual →
  numeros_verificados (rondas cfg k n_actual).1
    = Py.range n_actual ((rondas cfg k n_actual).2 - 1) 2
  ∧ (rondas cfg k n_actual).2
    = ultimo_tras (n_actual - 2) (rondas cfg k n_actual).1 + 2
  ∧ entre_rondas cfg (rondas cfg k n_actual).2
  ∧ n_actual ≤ (rondas cfg k n_actual).2
  ∧ ((rondas cfg k n_actual).2 ≤ n_final cfg + 2
     ∨ (rondas cfg k n_actual).2 = n_actual).
Proof.
  revert n_actual. induction k as [|k IH]; intros n Hn.
  - simpl. rewrite range_vacio by lia. unfold ultimo_tras. simpl.
    split; [done|]. split; [lia|]. split; [done|]. split; [lia|]. by right.
  - cbn [rondas].
    destruct (preparar_batches_impar (Z.to_nat (num_cores cfg)) n Hn)
      as (Hnums & Hentre & Hle & Hmax).
    pose proof (preparar_batches_ultimo cfg (Z.to_nat (num_cores cfg)) n)
      as Hult.
    destruct (preparar_batches cfg (Z.to_nat (num_cores cfg)) n)
      as [bs n1].
    cbn [fst snd] in *.
    destruct (IH n1 Hentre) as (Hnums' & Hult' & Hentre' & Hle' & Hmax').
    destruct (rondas cfg k n1) as [resto n2] eqn:Hr. cbn [fst snd] in *.
    rewrite numeros_verificados_app, ultimo_tras_app, Hnums, Hnums'.
    split; [|split; [|split; [done|split; [lia|]]]].
    + destruct (decide (n_final cfg < n1)) as [Hfuera|Hdentro].
      * assert (n2 = n1) as ->
          by (rewrite rondas_fuera in Hr by done; congruence).
        rewrite (range_vacio n1) by lia. by rewrite app_nil_r.
      * destruct Hentre as [Hpar|?]; [|lia].
        destruct Hn as [Hn|?].
        2:{ assert (n1 = n) by lia. subst. lia. }
        replace (n1 - 1) with (n1 - 2 + 1) by lia.
        replace n1 with (n1 - 2 + 2) at 2 by lia.
        apply range_pares_app; [done| |lia|lia].
        rewrite Zminus_mod, Hpar. done.
    + rewrite Hult'. do 2 f_equal. lia.
    + destruct Hmax' as [?| ->]; [by left|].
      destruct Hmax as [?| ->]; [by left|by right].
Qed.

End ImparGeneral.

Section ConductorImpar.

Variable cfg : Config.

Hypothesis Himpar : tamaño_batch cfg `mod` 2 = 1.
Hypothesis Hpositivo : 1 ≤ tamaño_batch cfg.

Lemma corrida_impar (mundo : Mundo) (fuel : nat) (progreso : Progreso)
    (e : ejecucion) :
  ultimo_n_verificado progreso `mod` 2 = 0 →
  verificacion_desde cfg mundo fuel progreso = Some e →
  ∃ hechos pendientes,
    lotes e = hechos ++ pendientes
    ∧ progreso_tras progreso hechos (progreso_final e)
    ∧ numeros_verificados hechos
      = Py.range (ultimo_n_verificado progreso + 2)
          (ultimo_n_verificado (progreso_final e) + 1) 2
    ∧ ultimo_n_verificado progreso ≤ ultimo_n_verificado (progreso_final e)
    ∧ (ultimo_n_verificado (progreso_final e) `mod` 2 = 0
       ∨ ultimo_n_verificado (progreso_final e) = n_final cfg)
    ∧ (estado_final e = Completada → 1 ≤ num_cores cfg →
       ultimo_n_verificado progreso + 2 < n_final cfg
       ∧ numeros_verificados hechos
         = Py.range (ultimo_n_verificado progreso + 2) (n_final cfg + 1) 2)
    ∧ (ultimo_n_verificado (progreso_final e) ≤ n_final cfg
       ∨ ultimo_n_verificado (progreso_final e)
         = ultimo_n_verificado progreso)
    ∧ (estado_final e = YaCompletada →
       progreso_final e = progreso
       ∧ ultimo_n_verificado progreso + 2 >= n_final cfg).
Proof.
  intros Hpar. unfold verificacion_desde.
  assert (asegurar_par (ultimo_n_verificado progreso + 2)
          = ultimo_n_verificado progreso + 2) as ->.
  { apply asegurar_par_de_par. by rewrite Z.add_mod, Hpar by lia. }
  case_bool_decide as Hfin.
  { intros [= <-]. exists [], []. simpl.
    split; [done|]. split; [apply progreso_tras_nada|].
    split; [by rewrite range_vacio by lia|]. split; [lia|].
    split; [by left|]. split; [done|]. split; [by right|done]. }
  case_bool_decide as Hc.
  { intros [= <-]. exists [], []. simpl.
    split; [done|]. split; [apply progreso_tras_nada|].
    split; [by rewrite range_vacio by lia|]. split; [lia|].
    split; [by left|]. split; [done|]. split; [by right|done]. }
  intros He. apply bucle_invariante in He
    as (k & pend & Hl & Htras & _ & _ & Hya & Hcomp & _).
  assert (entre_rondas cfg (ultimo_n_verificado progreso + 2)) as Hentre.
  { left. by rewrite Z.add_mod, Hpar by lia. }
  destruct (rondas_impar cfg Himpar Hpositivo k _ Hentre)
    as (Hnums & Hult & Hentre' & Hle & Hmax).
  destruct Htras as (Hu & Htras).
  replace (ultimo_n_verificado progreso + 2 - 2)
    with (ultimo_n_verificado progreso) in Hult by lia.
  rewrite <- Hu in Hult.
  exists (rondas cfg k (ultimo_n_verificado progreso + 2)).1, pend.
  split; [done|]. split; [by split|].
  rewrite Hult in Hnums, Hentre', Hle, Hmax.
  replace (ultimo_n_verificado (progreso_final e) + 2 - 1)
    with (ultimo_n_verificado (progreso_final e) + 1) in Hnums by lia.
  split; [done|]. split; [lia|]. split.
  { destruct Hentre' as [Hp|Hp]; [left|right; lia].
    rewrite Z.add_mod in Hp by lia.
    pose proof (Z.mod_pos_bound (ultimo_n_verificado (progreso_final e)) 2
                  ltac:(lia)).
    destruct (decide (ultimo_n_verificado (progreso_final e) `mod` 2 = 0));
      [done|].
    replace (ultimo_n_verificado (progreso_final e) `mod` 2) with 1 in Hp
      by lia.
    done. }
  split; [|split; [|done]].
  2:{ destruct Hmax as [?|Hmismo]; [left; lia|right; lia]. }
  intros Hest Hcores. destruct (Hcomp Hest) as [_ [Hfuera|?]]; [|lia].
  rewrite Hult in Hfuera. split; [lia|]. rewrite Hnums.
  destruct Hentre' as [Hp|Hp].
  - destruct (decide (ultimo_n_verificado (progreso_final e) + 2
                      = n_final cfg + 2)) as [Heq|Hne].
    { by replace (ultimo_n_verificado (progreso_final e)) with (n_final cfg)
        by lia. }
    assert (ultimo_n_verificado (progreso_final e) = n_final cfg - 1)
      as Hult' by lia.
    rewrite Hult'. apply range_mismo_largo.
    rewrite Hult' in Hp.
    pose proof (Z.div_mod (n_final cfg - 1 + 2) 2 ltac:(lia)) as Hd1.
    pose proof (Z.div_mod (ultimo_n_verificado progreso) 2 ltac:(lia))
      as Hd2.
    rewrite Hp in Hd1.
    replace (n_final cfg - 1 + 1 - (ultimo_n_verificado progreso + 2) + 2 - 1)
      with (0 + ((n_final cfg - 1 + 2) / 2
                 - ultimo_n_verificado progreso / 2 - 1) * 2) by lia.
    replace (n_final cfg + 1 - (ultimo_n_verificado progreso + 2) + 2 - 1)
      with (1 + ((n_final cfg - 1 + 2) / 2
                 - ultimo_n_verificado progreso / 2 - 1) * 2) by lia.
    by rewrite !Z.div_add by lia.
  - by replace (ultimo_n_verificado (progreso_final e)) with (n_final cfg)
      by lia.
Qed.

End ConductorImpar.

(** X12: with batches of odd size and an even [ultimo_n_verificado] to
    start from, every run, however it ends, has merged into the progress
    exactly the even numbers after the old [ultimo_n_verificado] up to the
    new one, each once and in order: [total_verificados] has grown by their
    number, and the counterexamples by those of them that are not the sum
    of two primes. The new [ultimo_n_verificado] is even, or is
    [n_final]. *)
Theorem progreso_impar_sin_huecos (cfg : Config) (mundo : Mundo) (fuel : nat)
    (progreso : Progreso) (e : ejecucion) :
  tamaño_batch cfg `mod` 2 = 1 → 1 ≤ tamaño_batch cfg →
  ultimo_n_verificado progreso `mod` 2 = 0 →
  verificacion_desde cfg mundo fuel progreso = Some e →
  ∃ hechos pendientes,
    lotes e = hechos ++ pendientes
    ∧ numeros_verificados hechos
      = Py.range (ultimo_n_verificado progreso + 2)
          (ultimo_n_verificado (progreso_final e) + 1) 2
    ∧ total_verificados (progreso_final e)
      = total_verificados progreso
        + Z.of_nat (length (Py.range (ultimo_n_verificado progreso + 2)
                              (ultimo_n_verificado (progreso_final e) + 1)
                              2))
    ∧ contraejemplos (progreso_final e)
      = contraejemplos progreso
        ++ sin_pares (Py.range (ultimo_n_verificado progreso + 2)
                        (ultimo_n_verificado (progreso_final e) + 1) 2)
    ∧ ultimo_n_verificado progreso ≤ ultimo_n_verificado (progreso_final e)
    ∧ (ultimo_n_verificado (progreso_final e) `mod` 2 = 0
       ∨ ultimo_n_verificado (progreso_final e) = n_final cfg).
Proof.
  intros Himpar Hpos Hpar He.
  destruct (corrida_impar cfg Himpar Hpos mundo fuel progreso e Hpar He)
    as (hechos & pend & Hl & (_ & Ht & Hce & _) & Hnums & Hle & Hult & _).
  exists hechos, pend. rewrite <- Hnums. done.
Qed.

Lemma progreso_impar_sin_huecos_witness :
  ∃ hechos pendientes,
    lotes sesion_interrumpida = hechos ++ pendientes
    ∧ numeros_verificados hechos
      = Py.range
          (ultimo_n_verificado (progreso_por_defecto config_impar "") + 2)
          (ultimo_n_verificado (progreso_final sesion_interrumpida) + 1) 2
    ∧ total_verificados (progreso_final sesion_interrumpida)
      = total_verificados (progreso_por_defecto config_impar "")
        + Z.of_nat
            (length
               (Py.range
                  (ultimo_n_verificado (progreso_por_defecto config_impar "")
                   + 2)
                  (ultimo_n_verificado (progreso_final sesion_interrumpida)
                   + 1) 2))
    ∧ contraejemplos (progreso_final sesion_interrumpida)
      = contraejemplos (progreso_por_defecto config_impar "")
        ++ sin_pares
             (Py.range
                (ultimo_n_verificado (progreso_por_defecto config_impar "")
                 + 2)
                (ultimo_n_verificado (progreso_final sesion_interrumpida)
                 + 1) 2)
    ∧ ultimo_n_verificado (progreso_por_defecto config_impar "")
      ≤ ultimo_n_verificado (progreso_final sesion_interrumpida)
    ∧ (ultimo_n_verificado (progreso_final sesion_interrumpida) `mod` 2 = 0
       ∨ ultimo_n_verificado (progreso_final sesion_interrumpida)
         = n_final config_impar).
Proof.
  apply (progreso_impar_sin_huecos config_impar mundo_interrumpido 20
           (progreso_por_defecto config_impar "") sesion_interrumpida).
  - vm_compute. reflexivity.
  - vm_compute. discriminate.
  - vm_compute. reflexivity.
  - vm_compute. reflexivity.
Defined.

Lemma progreso_tras_mismos_numeros (p pa pb : Progreso)
    (ha hb : list (Z * Z * bool)) :
  progreso_tras p ha pa → progreso_tras p hb pb →
  numeros_verificados ha = numeros_verificados hb →
  total_verificados pa = total_verificados pb
  ∧ total_cumple pa = total_cumple pb
  ∧ contraejemplos pa = contraejemplos pb.
Proof.
  intros (_ & Hta & Hca & Hcua & _) (_ & Htb & Hcb & Hcub & _) Hn.
  rewrite Hn in *. rewrite Hta, Htb, Hca, Hcb. split; [done|].
  split; [lia|done].
Qed.

(** X13: with batches of odd size, a run that is interrupted (or fails)
    and a second run that resumes from what it saved leave the same
    [total_verificados], [total_cumple] and counterexamples as one run
    that completes without interruption, with one exception: when the
    first run stopped at [n_final - 2], the second takes the early return,
    verifies nothing, and [n_final], which the single run verifies, is
    lost. In particular the totals agree whenever the second run goes
    through the loop and completes. *)
Theorem reanudar_equivale (cfg : Config) (m1 m2 m3 : Mundo) (f1 f2 f3 : nat)
    (progreso : Progreso) (e1 e2 e3 : ejecucion) :
  tamaño_batch cfg `mod` 2 = 1 → 1 ≤ tamaño_batch cfg → 1 ≤ num_cores cfg →
  ultimo_n_verificado progreso `mod` 2 = 0 →
  verificacion_desde cfg m1 f1 progreso = Some e1 →
  verificacion_desde cfg m2 f2 (progreso_final e1) = Some e2 →
  estado_final e2 = Completada ∨ estado_final e2 = YaCompletada →
  verificacion_desde cfg m3 f3 progreso = Some e3 →
  estado_final e3 = Completada →
  (estado_final e2 = Completada
   ∨ ultimo_n_verificado (progreso_final e1) ≠ n_final cfg - 2 →
   total_verificados (progreso_final e2)
     = total_verificados (progreso_final e3)
   ∧ total_cumple (progreso_final e2) = total_cumple (progreso_final e3)
   ∧ contraejemplos (progreso_final e2)
     = contraejemplos (progreso_final e3))
  ∧ (ultimo_n_verificado (progreso_final e1) = n_final cfg - 2 →
     estado_final e2 = YaCompletada
     ∧ progreso_final e2 = progreso_final e1
     ∧ n_final cfg `mod` 2 = 0
     ∧ n_final cfg ∈ numeros_verificados (lotes e3)
     ∧ total_verificados (progreso_final e3)
       = total_verificados (progreso_final e2) + 1
     ∧ contraejemplos (progreso_final e3)
       = contraejemplos (progreso_final e2) ++ sin_pares [n_final cfg]
     ∧ total_cumple (progreso_final e3)
         + Z.of_nat (length (sin_pares [n_final cfg]))
       = total_cumple (progreso_final e2) + 1).
Proof.
  intros Himpar Hpos Hcores Hpar He1 He2 Hest2 He3 Hest3.
  destruct (corrida_impar cfg Himpar Hpos m1 f1 progreso e1 Hpar He1)
    as (h1 & p1 & Hl1 & Htras1 & Hn1 & Hle1 & Hult1 & _ & Hcota1 & _).
  destruct (corrida_impar cfg Himpar Hpos m3 f3 progreso e3 Hpar He3)
    as (h3 & p3 & Hl3 & Htras3 & _ & _ & _ & Hcomp3 & _).
  destruct (Hcomp3 Hest3 Hcores) as [Hfin3 Hn3].
  assert ((ultimo_n_verificado progreso + 2) `mod` 2 = 0) as Hpar0
    by (by rewrite Z.add_mod, Hpar by lia).
  assert (ultimo_n_verificado (progreso_final e1) ≤ n_final cfg) as Hcota
    by (destruct Hcota1; lia).
  (* the second run went through the loop and completed *)
  assert (estado_final e2 = Completada →
          ultimo_n_verificado (progreso_final e1) + 2 < n_final cfg
          ∧ total_verificados (progreso_final e2)
            = total_verificados (progreso_final e3)
          ∧ total_cumple (progreso_final e2)
            = total_cumple (progreso_final e3)
          ∧ contraejemplos (progreso_final e2)
            = contraejemplos (progreso_final e3)) as Hcompleta.
  { intros Hcomp.
    assert (ultimo_n_verificado (progreso_final e1) `mod` 2 = 0) as Hpar1.
    { destruct Hult1 as [?|Hfin]; [done|]. exfalso.
      unfold verificacion_desde in He2.
      destruct (asegurar_par_spec
                  (ultimo_n_verificado (progreso_final e1) + 2)) as [_ ?].
      rewrite bool_decide_true in He2 by lia.
      injection He2 as <-. done. }
    destruct (corrida_impar cfg Himpar Hpos m2 f2 _ e2 Hpar1 He2)
      as (h2 & p2 & _ & Htras2 & _ & _ & _ & Hcomp2 & _).
    destruct (Hcomp2 Hcomp Hcores) as [Hfin2 Hn2]. split; [done|].
    apply (progreso_tras_mismos_numeros progreso _ _ (h1 ++ h2) h3);
      [by apply (progreso_tras_app _ (progreso_final e1))|done|].
    rewrite numeros_verificados_app, Hn1, Hn2, Hn3.
    apply range_pares_app; [done|done|lia|lia]. }
  (* the second run took the early return *)
  assert (estado_final e2 = YaCompletada →
          e2 = {| estado_final := YaCompletada;
                  progreso_final := progreso_final e1;
                  guardados := []; lotes := [];
                  lanza := bool_decide
                             (generar_reporte cfg m2 (progreso_final e1)
                              = None) |}
          ∧ asegurar_par (ultimo_n_verificado (progreso_final e1) + 2)
            >= n_final cfg) as Hpronto.
  { intros Hya. revert He2. unfold verificacion_desde.
    case_bool_decide as Hfin; [by intros [= <-]|].
    case_bool_decide as Hc; [intros [= <-]; by simpl in Hya|].
    intros He2. apply bucle_invariante in He2
      as (_ & _ & _ & _ & _ & _ & Hno & _). done. }
  split.
  - intros [Hcomp|Hotro]; [by apply Hcompleta|].
    destruct Hest2 as [Hcomp|Hya]; [by apply Hcompleta|].
    destruct (Hpronto Hya) as [-> Hge]. cbn [progreso_final].
    apply (progreso_tras_mismos_numeros progreso _ _ h1 h3); [done|done|].
    rewrite Hn1, Hn3. destruct Hult1 as [Hpar1|Hfin1].
    + rewrite asegurar_par_de_par in Hge
        by (by rewrite Z.add_mod, Hpar1 by lia).
      destruct (decide (ultimo_n_verificado (progreso_final e1)
                        = n_final cfg)) as [->|Hne]; [done|].
      rewrite <- (range_pares_app (ultimo_n_verificado progreso + 2)
                   (ultimo_n_verificado (progreso_final e1))
                   (n_final cfg + 1)) by (done || lia).
      by rewrite (range_vacio _ (n_final cfg + 1)), app_nil_r by lia.
    + by rewrite Hfin1.
  - intros Hborde.
    destruct Hest2 as [Hcomp|Hya]; [destruct (Hcompleta Hcomp); lia|].
    destruct (Hpronto Hya) as [-> Hge].
    cbn [progreso_final estado_final lotes].
    assert (ultimo_n_verificado (progreso_final e1) `mod` 2 = 0) as Hpar1
      by (destruct Hult1; [done|lia]).
    assert (n_final cfg `mod` 2 = 0) as Hparf.
    { replace (n_final cfg)
        with (ultimo_n_verificado (progreso_final e1) + 2) by lia.
      by rewrite Z.add_mod, Hpar1 by lia. }
    assert (Py.range (ultimo_n_verificado progreso + 2) (n_final cfg + 1) 2
            = Py.range (ultimo_n_verificado progreso + 2)
                (ultimo_n_verificado (progreso_final e1) + 1) 2
              ++ [n_final cfg]) as Hrango.
    { rewrite <- (range_pares_app (ultimo_n_verificado progreso + 2)
                   (ultimo_n_verificado (progreso_final e1))
                   (n_final cfg + 1)) by (done || lia).
      f_equal.
      replace (ultimo_n_verificado (progreso_final e1) + 2)
        with (n_final cfg) by lia.
      rewrite range_cons by lia. by rewrite range_vacio by lia. }
    destruct Htras1 as (_ & Ht1 & Hc1 & Hcu1 & _).
    destruct Htras3 as (_ & Ht3 & Hc3 & Hcu3 & _).
    rewrite Hn3, Hrango, <- Hn1 in Ht3, Hc3, Hcu3.
    rewrite sin_pares_app, !length_app in *. simpl length in *.
    split; [done|]. split; [done|]. split; [done|]. split.
    { rewrite Hl3, numeros_verificados_app, Hn3, Hrango.
      apply elem_of_app. left. apply elem_of_app. right. left. }
    rewrite Ht3, Hc3, Ht1, Hc1, app_assoc. split; [lia|]. split; [done|lia].
Qed.

Lemma reanudar_equivale_witness :
  (estado_final sesion_borde_reanudada = Completada
   ∨ ultimo_n_verificado (progreso_final sesion_borde_interrumpida)
     ≠ n_final config_borde - 2 →
   total_verificados (progreso_final sesion_borde_reanudada)
     = total_verificados (progreso_final sesion_borde_unica)
   ∧ total_cumple (progreso_final sesion_borde_reanudada)
     = total_cumple (progreso_final sesion_borde_unica)
   ∧ contraejemplos (progreso_final sesion_borde_reanudada)
     = contraejemplos (progreso_final sesion_borde_unica))
  ∧ (ultimo_n_verificado (progreso_final sesion_borde_interrumpida)
     = n_final config_borde - 2 →
     estado_final sesion_borde_reanudada = YaCompletada
     ∧ progreso_final sesion_borde_reanudada
       = progreso_final sesion_borde_interrumpida
     ∧ n_final config_borde `mod` 2 = 0
     ∧ n_final config_borde ∈ numeros_verificados (lotes sesion_borde_unica)
     ∧ total_verificados (progreso_final sesion_borde_unica)
       = total_verificados (progreso_final sesion_borde_reanudada) + 1
     ∧ contraejemplos (progreso_final sesion_borde_unica)
       = contraejemplos (progreso_final sesion_borde_reanudada)
         ++ sin_pares [n_final config_borde]
     ∧ total_cumple (progreso_final sesion_borde_unica)
         + Z.of_nat (length (sin_pares [n_final config_borde]))
       = total_cumple (progreso_final sesion_borde_reanudada) + 1).
Proof.
  apply (reanudar_equivale config_borde mundo_cortado mundo_tranquilo
           mundo_tranquilo 20 20 20 (progreso_por_defecto config_borde "")
           sesion_borde_interrumpida sesion_borde_reanudada
           sesion_borde_unica).
  - vm_compute. reflexivity.
  - vm_compute. discriminate.
  - vm_compute. discriminate.
  - vm_compute. reflexivity.
  - vm_compute. reflexivity.
  - vm_compute. reflexivity.
  - right. vm_compute. reflexivity.
  - vm_compute. reflexivity.
  - vm_compute. reflexivity.
Defined.

(** ** The quick test *)

Lemma ordenado_unico (l1 l2 : list Z) :
  StronglySorted Z.lt l1 → StronglySorted Z.lt l2 →
  (∀ x, x ∈ l1 ↔ x ∈ l2) → l1 = l2.
Proof.
  intros H1 H2 Hel. apply (StronglySorted_unique_strong Z.lt); [|done|done|].
  - intros x1 x2 _ _ ? ?. lia.
  - apply NoDup_Permutation; [by apply ordenado_sin_repetidos..|done].
Qed.

Lemma filter_ninguno {A} (P : A → Prop) `{!∀ x, Decision (P x)} (l : list A) :
  (∀ x, x ∈ l → ¬ P x) → filter P l = [].
Proof.
  induction l as [|x l IH]; intros Hl; [done|].
  rewrite filter_cons, decide_False by (apply Hl; left).
  apply IH. intros y Hy. apply Hl. by right.
Qed.

(** A list in ascending order is its members up to [c] followed by those
    above [c]. *)
Lemma ordenado_corte (l : list Z) (c : Z) :
  StronglySorted Z.lt l →
  l = filter (λ x, x ≤ c) l ++ filter (λ x, c < x) l.
Proof.
  induction 1 as [|x l Hl IH Hx]; [done|].
  rewrite !filter_cons. destruct (decide (x ≤ c)) as [Hle|Hgt].
  - rewrite decide_False by lia. simpl. by rewrite <- IH.
  - rewrite decide_True by lia.
    assert (filter (λ y, y ≤ c) l = []) as ->.
    { apply filter_ninguno. intros y Hy.
      eapply Forall_forall in Hx; [|exact Hy]. lia. }
    simpl. f_equal. symmetry. apply filter_todos.
    intros y Hy. eapply Forall_forall in Hx; [|exact Hy]. lia.
Qed.

Lemma representaciones_desde_correctas (n : Z) (set_primos pendientes : list Z)
    (p q : Z) :
  (p, q) ∈ representaciones_desde n set_primos pendientes →
  p ∈ pendientes ∧ q ∈ set_primos ∧ p + q = n ∧ p ≤ q.
Proof.
  induction pendientes as [|x resto IH]; simpl.
  - by intros ?%elem_of_nil.
  - case_bool_decide as Hcorte; [by intros ?%elem_of_nil|].
    case_bool_decide as Hq; case_bool_decide as Hpq; simpl.
    + intros [[= -> ->]|Hin]%elem_of_cons.
      * split; [left|]. split; [done|]. lia.
      * destruct (IH Hin) as (? & ? & ? & ?). split; [by right|done].
    + intros Hin. destruct (IH Hin) as (? & ? & ? & ?).
      split; [by right|done].
    + intros Hin. destruct (IH Hin) as (? & ? & ? & ?).
      split; [by right|done].
    + intros Hin. destruct (IH Hin) as (? & ? & ? & ?).
      split; [by right|done].
Qed.

(** While the members yielded are at most [n // 2] the loop goes on, and
    the test [q >= p] never fails. *)
Lemma representaciones_desde_todos (n : Z) (set_primos pendientes : list Z) :
  Forall (λ x, x ≤ n `div` 2) pendientes →
  representaciones_desde n set_primos pendientes
  = (λ p, (p, n - p)) <$> filter (λ p, n - p ∈ set_primos) pendientes.
Proof.
  pose proof (Z.mul_div_le n 2 ltac:(lia)) as Hmitad.
  induction 1 as [|x resto Hx _ IH]; [done|]. simpl.
  rewrite bool_decide_false by lia. rewrite filter_cons.
  rewrite (bool_decide_true (n - x >= x)) by lia. rewrite andb_true_r.
  destruct (decide (n - x ∈ set_primos)) as [Hin|Hin].
  - rewrite bool_decide_true by done. simpl. by rewrite IH.
  - rewrite bool_decide_false by done. done.
Qed.

(** The first member above [n // 2] ends the loop, whatever comes after. *)
Lemma representaciones_desde_prefijo (n : Z) (set_primos antes : list Z)
    (p' : Z) (resto : list Z) :
  Forall (λ x, x ≤ n `div` 2) antes → p' > n `div` 2 →
  representaciones_desde n set_primos (antes ++ p' :: resto)
  = (λ p, (p, n - p)) <$> filter (λ p, n - p ∈ set_primos) antes.
Proof.
  pose proof (Z.mul_div_le n 2 ltac:(lia)) as Hmitad.
  intros Hantes Hp'. induction Hantes as [|x antes Hx _ IH].
  - simpl. by rewrite bool_decide_true.
  - simpl. rewrite bool_decide_false by lia. rewrite filter_cons.
    rewrite (bool_decide_true (n - x >= x)) by lia. rewrite andb_true_r.
    destruct (decide (n - x ∈ set_primos)) as [Hin|Hin].
    + rewrite bool_decide_true by done. simpl. by rewrite IH.
    + rewrite bool_decide_false by done. done.
Qed.

Lemma cumple_si_hay (A : Type) (l : list A) :
  bool_decide (Z.of_nat (length l) > 0) = true ↔ l ≠ [].
Proof.
  rewrite bool_decide_eq_true. destruct l; simpl; split; try done; lia.
Qed.

(** X14: [verificar_goldbach_numero] raises on every odd number and on no
    even one; whatever the order in which the set yields its members, every
    representation it returns is a pair of members of the set that adds up
    to [n], smaller member first, and it answers [True] exactly when it
    returns at least one. So on a set of primes a [True] is never wrong. *)
Theorem verificar_goldbach_numero_fiable (n : Z) (set_primos : list Z) :
  (n `mod` 2 ≠ 0 → verificar_goldbach_numero n set_primos = None)
  ∧ (n `mod` 2 = 0 →
     ∃ cumple representaciones,
       verificar_goldbach_numero n set_primos
       = Some (cumple, representaciones)
       ∧ (cumple = true ↔ representaciones ≠ [])
       ∧ (∀ p q, (p, q) ∈ representaciones →
            p ∈ set_primos ∧ q ∈ set_primos ∧ p + q = n ∧ p ≤ q)
       ∧ ((∀ p, p ∈ set_primos → Z.prime p) →
          cumple = true → descomponible n)).
Proof.
  unfold verificar_goldbach_numero. split.
  - intros Himpar. by rewrite bool_decide_true.
  - intros Hpar. rewrite bool_decide_false by (by intros ?).
    eexists _, _. split; [done|]. split; [apply cumple_si_hay|].
    split; [apply representaciones_desde_correctas|].
    intros Hprimos Hcumple%cumple_si_hay.
    destruct (representaciones_desde n set_primos set_primos)
      as [|[p q] l] eqn:Hr; [done|].
    assert ((p, q) ∈ representaciones_desde n set_primos set_primos) as Hin
      by (rewrite Hr; left).
    apply representaciones_desde_correctas in Hin as (Hp & Hq & Hsuma & _).
    exists p, q. split; [by apply Hprimos|]. split; [by apply Hprimos|done].
Qed.

(** With the primes up to a limit that is at least [n], yielded in
    ascending order, the loop finds every prime pair of [n]. *)
Lemma representaciones_ascendente (n limite : Z) (set_primos : list Z) :
  n ≤ limite → StronglySorted Z.lt set_primos →
  (∀ p, p ∈ set_primos ↔ Z.prime p ∧ p ≤ limite) →
  representaciones_desde n set_primos set_primos
  = (λ p, (p, n - p)) <$> pares_goldbach n.
Proof.
  intros Hlim Hord Hel.
  assert (representaciones_desde n set_primos set_primos
          = (λ p, (p, n - p))
              <$> filter (λ p, n - p ∈ set_primos)
                    (filter (λ x, x ≤ n `div` 2) set_primos)) as ->.
  { rewrite (ordenado_corte set_primos (n `div` 2) Hord) at 2.
    destruct (filter (λ x, n `div` 2 < x) set_primos) as [|p' resto] eqn:Hm.
    - rewrite app_nil_r. apply representaciones_desde_todos.
      apply Forall_forall. by intros x [? _]%list_elem_of_filter.
    - apply representaciones_desde_prefijo.
      + apply Forall_forall. by intros x [? _]%list_elem_of_filter.
      + assert (p' ∈ filter (λ x, n `div` 2 < x) set_primos) as Hin
          by (rewrite Hm; left).
        apply list_elem_of_filter in Hin as [? _]. lia. }
  f_equal. apply ordenado_unico.
  - by do 2 apply filter_ordenado.
  - unfold pares_goldbach. apply filter_ordenado, primos_en_ordenado.
  - intros p. rewrite elem_of_pares_goldbach, !list_elem_of_filter, !Hel.
    pose proof (Z.mul_div_le n 2 ltac:(lia)) as Hmitad.
    split.
    + intros ([Hq _] & Hp & [Hpp _]). split; [done|]. split; [done|lia].
    + intros (Hp & Hq & Hcota).
      apply Z.prime_ge_2 in Hp as Hp2. apply Z.prime_ge_2 in Hq as Hq2.
      split; [split; [done|lia]|]. split; [|split; [done|lia]].
      apply Z.div_le_lower_bound; lia.
Qed.

(** X15: when the set holds the primes up to a limit that is at least [n]
    and yields them in ascending order, [verificar_goldbach_numero] finds
    every representation of an even [n]: it returns the pairs
    [(p, n - p)] of primes with [p ≤ n - p], each once, in ascending [p],
    and answers [True] exactly when [n] is the sum of two primes. *)
Theorem verificar_goldbach_numero_ascendente (n limite : Z)
    (set_primos : list Z) :
  n `mod` 2 = 0 → n ≤ limite →
  StronglySorted Z.lt set_primos →
  (∀ p, p ∈ set_primos ↔ Z.prime p ∧ p ≤ limite) →
  ∃ cumple,
    verificar_goldbach_numero n set_primos
    = Some (cumple, (λ p, (p, n - p)) <$> pares_goldbach n)
    ∧ (cumple = true ↔ descomponible n).
Proof.
  intros Hpar Hlim Hord Hel. unfold verificar_goldbach_numero.
  rewrite bool_decide_false by (by intros ?).
  rewrite (representaciones_ascendente n limite) by done.
  eexists. split; [done|].
  rewrite cumple_si_hay, descomponible_pares_goldbach.
  split.
  - intros Hne Hnil. by rewrite Hnil in Hne.
  - intros Hne Hnil. by apply fmap_nil_inv in Hnil.
Qed.

Lemma verificar_goldbach_numero_ascendente_witness :
  ∃ cumple,
    verificar_goldbach_numero 100 (primos_en 0 (2000 + 1))
    = Some (cumple, (λ p, (p, 100 - p)) <$> pares_goldbach 100)
    ∧ (cumple = true ↔ descomponible 100).
Proof.
  apply (verificar_goldbach_numero_ascendente 100 2000
           (primos_en 0 (2000 + 1))).
  - reflexivity.
  - lia.
  - apply primos_hasta_caracterizacion.
  - apply primos_hasta_caracterizacion.
Defined.

(** X16: the loop of [verificar_goldbach_numero] stops at the first member
    above [n // 2] that the set yields, so what it finds depends on the
    order of the set: only the members yielded before that one are tried,
    and a representation whose smaller prime comes later is not found. *)
Theorem verificar_goldbach_numero_corte (n : Z) (antes : list Z) (p' : Z)
    (resto : list Z) :
  n `mod` 2 = 0 → Forall (λ x, x ≤ n `div` 2) antes → p' > n `div` 2 →
  ∃ cumple representaciones,
    verificar_goldbach_numero n (antes ++ p' :: resto)
    = Some (cumple, representaciones)
    ∧ representaciones
      = (λ p, (p, n - p))
          <$> filter (λ p, n - p ∈ antes ++ p' :: resto) antes
    ∧ (cumple = true ↔ ∃ p, p ∈ antes ∧ n - p ∈ antes ++ p' :: resto).
Proof.
  intros Hpar Hantes Hp'. unfold verificar_goldbach_numero.
  rewrite bool_decide_false by (by intros ?).
  rewrite representaciones_desde_prefijo by done.
  eexists _, _. split; [done|]. split; [done|].
  rewrite cumple_si_hay. split.
  - intros Hne.
    destruct (filter (λ p, n - p ∈ antes ++ p' :: resto) antes)
      as [|p l] eqn:Hf; [done|].
    assert (p ∈ filter (λ p, n - p ∈ antes ++ p' :: resto) antes) as Hin
      by (rewrite Hf; left).
    apply list_elem_of_filter in Hin as [? ?]. by exists p.
  - intros (p & Hp & Hq) Hnil. apply fmap_nil_inv in Hnil.
    assert (p ∈ filter (λ p, n - p ∈ antes ++ p' :: resto) antes) as Hin
      by (by apply list_elem_of_filter).
    rewrite Hnil in Hin. by apply elem_of_nil in Hin.
Qed.

Lemma verificar_goldbach_numero_corte_witness :
  ∃ cumple representaciones,
    verificar_goldbach_numero 98 ([2; 3; 5; 7] ++ 1031 :: [19; 79])
    = Some (cumple, representaciones)
    ∧ representaciones
      = (λ p, (p, 98 - p))
          <$> filter (λ p, 98 - p ∈ [2; 3; 5; 7] ++ 1031 :: [19; 79])
                [2; 3; 5; 7]
    ∧ (cumple = true
       ↔ ∃ p, p ∈ [2; 3; 5; 7] ∧ 98 - p ∈ [2; 3; 5; 7] ++ 1031 :: [19; 79]).
Proof.
  apply (verificar_goldbach_numero_corte 98 [2; 3; 5; 7] 1031 [19; 79]).
  - reflexivity.
  - repeat constructor; vm_compute; discriminate.
  - vm_compute. reflexivity.
Defined.

(** One turn of the loop of [test_rapido] on an even number. *)
Lemma paso_efecto (set_primos : list Z) (s : Test.cuenta) (n : Z) :
  n `mod` 2 = 0 →
  ∃ s',
    Test.paso set_primos s n = Some s'
    ∧ Test.total_verificados s' = Test.total_verificados s + 1
    ∧ Test.contraejemplos s'
      = Test.contraejemplos s
        ++ filter (λ n, representaciones_desde n set_primos set_primos = [])
             [n]
    ∧ Test.total_cumple s'
        + Z.of_nat
            (length
               (filter
                  (λ n, representaciones_desde n set_primos set_primos = [])
                  [n]))
      = Test.total_cumple s + 1.
Proof.
  intros Hn. unfold Test.paso, verificar_goldbach_numero.
  rewrite (bool_decide_false (n `mod` 2 ≠ 0)) by (by intros ?).
  cbn [mbind option_bind].
  rewrite filter_cons, filter_nil.
  destruct (representaciones_desde n set_primos set_primos) as [|r rs] eqn:Hr.
  - rewrite (bool_decide_false (Z.of_nat (length (@nil (Z * Z))) > 0))
      by (simpl; lia).
    rewrite decide_True by done.
    eexists. split; [reflexivity|]. simpl. repeat split; lia.
  - rewrite (bool_decide_true (Z.of_nat (length (r :: rs)) > 0))
      by (simpl length; lia).
    rewrite decide_False by done.
    eexists. split; [reflexivity|]. simpl. rewrite app_nil_r.
    repeat split; lia.
Qed.

(** The loop of [test_rapido] over a list of even numbers: no call raises,
    every number is counted, and the numbers for which no representation
    was found are appended to the counterexamples in order. *)
Lemma test_bucle (set_primos ns : list Z) (s : Test.cuenta) :
  Forall (λ n, n `mod` 2 = 0) ns →
  ∃ s',
    Py.para ns (Test.paso set_primos) s = Some s'
    ∧ Test.total_verificados s'
      = Test.total_verificados s + Z.of_nat (length ns)
    ∧ Test.contraejemplos s'
      = Test.contraejemplos s
        ++ filter (λ n, representaciones_desde n set_primos set_primos = [])
             ns
    ∧ Test.total_cumple s'
        + Z.of_nat
            (length
               (filter
                  (λ n, representaciones_desde n set_primos set_primos = [])
                  ns))
      = Test.total_cumple s + Z.of_nat (length ns).
Proof.
  intros Hns. revert s. induction Hns as [|n ns Hn _ IH]; intros s.
  - exists s. simpl. rewrite app_nil_r. repeat split; lia.
  - destruct (paso_efecto set_primos s n Hn) as (s1 & Hs1 & Ht1 & Hc1 & Hcu1).
    destruct (IH s1) as (s' & Hs' & Ht & Hc & Hcu).
    exists s'. cbn [Py.para]. rewrite Hs1. cbn [mbind option_bind].
    split; [done|].
    change (n :: ns) with ([n] ++ ns).
    rewrite filter_app, !length_app, Ht, Hc, Ht1, Hc1, <- app_assoc.
    simpl length in *. repeat split; lia.
Qed.

Lemma pares_del_test (n : Z) :
  n ∈ Py.range 6 (2000 + 1) 2 ↔ 6 ≤ n ≤ 2000 ∧ n `mod` 2 = 0.
Proof.
  rewrite elem_of_range by lia. split.
  - intros [? Hm]. split; [lia|].
    rewrite Zminus_mod in Hm.
    destruct (Z.mod_pos_bound n 2 ltac:(lia)).
    destruct (decide (n `mod` 2 = 0)) as [|Hne]; [done|].
    replace (n `mod` 2) with 1 in Hm by lia. done.
  - intros [? Hm]. split; [lia|]. by rewrite Zminus_mod, Hm.
Qed.

Lemma largo_del_test : length (Py.range 6 (2000 + 1) 2) = 998%nat.
Proof. vm_compute. reflexivity. Qed.

(** What [test_rapido] returns in terms of the numbers for which its loop
    found no representation. *)
Lemma test_rapido_valor (set_ : list Z → list Z) :
  ∃ s,
    Test.test_rapido set_
    = Some (bool_decide (Test.contraejemplos s = []), s)
    ∧ Test.total_verificados s = 998
    ∧ Test.contraejemplos s
      = filter (λ n, representaciones_desde n (set_ (primos_en 0 (2000 + 1)))
                       (set_ (primos_en 0 (2000 + 1))) = [])
          (Py.range 6 (2000 + 1) 2)
    ∧ Test.total_cumple s + Z.of_nat (length (Test.contraejemplos s)) = 998.
Proof.
  unfold Test.test_rapido. cbv zeta.
  rewrite criba_eratostenes_simple_spec. cbn [mbind option_bind].
  destruct (test_bucle (set_ (primos_en 0 (2000 + 1)))
              (Py.range 6 (2000 + 1) 2) Test.cuenta_inicial)
    as (s & -> & Ht & Hc & Hcu).
  { apply Forall_forall. by intros n [_ ?]%pares_del_test. }
  exists s. cbn [mbind option_bind]. split; [reflexivity|].
  rewrite largo_del_test in Ht, Hcu.
  cbn [Test.cuenta_inicial Test.total_verificados Test.total_cumple
       Test.contraejemplos] in Ht, Hc, Hcu.
  rewrite app_nil_l in Hc.
  split; [lia|]. split; [exact Hc|]. rewrite Hc. lia.
Qed.

(** X17: when the set built from the sieve's list yields the primes in
    ascending order, [test_rapido] passes: it goes through the 998 even
    numbers from 6 to 2000 without raising, every one of them complies, no
    counterexample is reported and the value returned is [True]. *)
Theorem test_rapido_ascendente (set_ : list Z → list Z) (primos : list Z) :
  criba_eratostenes_simple 2000 = Some primos →
  StronglySorted Z.lt (set_ primos) →
  (∀ p, p ∈ set_ primos ↔ p ∈ primos) →
  ∃ s,
    Test.test_rapido set_ = Some (true, s)
    ∧ Test.total_verificados s = 998
    ∧ Test.total_cumple s = 998
    ∧ Test.contraejemplos s = [].
Proof.
  intros Hcriba Hord Hel. rewrite criba_eratostenes_simple_spec in Hcriba.
  injection Hcriba as <-.
  destruct (test_rapido_valor set_) as (s & Hs & Ht & Hc & Hcu).
  assert (Test.contraejemplos s = []) as Hnil.
  { rewrite Hc. clear Hc Hs. apply filter_ninguno.
    intros n [Hn Hpar]%pares_del_test.
    rewrite (representaciones_ascendente n 2000); [|lia|exact Hord|].
    - intros Hvacio%fmap_nil_inv.
      exact (goldbach_hasta_2000 n Hn Hpar Hvacio).
    - intros p. rewrite Hel. apply primos_hasta_caracterizacion. }
  exists s. rewrite Hs. rewrite Hnil in Hcu |- *. clear Hc Hs.
  split; [reflexivity|]. split; [exact Ht|].
  split; [|reflexivity]. simpl in Hcu. lia.
Qed.

Lemma test_rapido_ascendente_witness :
  ∃ s,
    Test.test_rapido (λ l, l) = Some (true, s)
    ∧ Test.total_verificados s = 998
    ∧ Test.total_cumple s = 998
    ∧ Test.contraejemplos s = [].
Proof.
  apply (test_rapido_ascendente (λ l, l) (primos_en 0 (2000 + 1))).
  - apply criba_eratostenes_simple_spec.
  - apply primos_hasta_caracterizacion.
  - done.
Defined.

(** X18: [test_rapido] depends on the order in which the set yields the
    primes. If, for some even [n] of its range, the set yields a member
    above [n // 2] before any member [p] for which [n - p] is in the set,
    the test reports [n] as a counterexample and returns [False], although
    every even number of the range is the sum of two primes. *)
Theorem test_rapido_depende_del_orden (set_ : list Z → list Z)
    (primos antes : list Z) (p' : Z) (resto : list Z) (n : Z) :
  criba_eratostenes_simple 2000 = Some primos →
  set_ primos = antes ++ p' :: resto →
  6 ≤ n ≤ 2000 → n `mod` 2 = 0 →
  Forall (λ p, p ≤ n `div` 2 ∧ n - p ∉ antes ++ p' :: resto) antes →
  p' > n `div` 2 →
  ∃ s,
    Test.test_rapido set_ = Some (false, s)
    ∧ n ∈ Test.contraejemplos s
    ∧ Test.total_verificados s = 998
    ∧ descomponible n.
Proof.
  intros Hcriba Hset Hn Hpar Hantes Hp'.
  rewrite criba_eratostenes_simple_spec in Hcriba. injection Hcriba as <-.
  destruct (test_rapido_valor set_) as (s & Hs & Ht & Hc & Hcu).
  assert (n ∈ Test.contraejemplos s) as Hin.
  { rewrite Hc. clear Hc Hs. apply list_elem_of_filter.
    split; [|apply pares_del_test; split; [exact Hn|exact Hpar]].
    rewrite Hset. rewrite representaciones_desde_prefijo; [| |exact Hp'].
    - rewrite filter_ninguno; [reflexivity|]. intros p Hp.
      eapply Forall_forall in Hantes; [|exact Hp]. exact (proj2 Hantes).
    - eapply Forall_impl; [exact Hantes|]. intros p [Hle _]. exact Hle. }
  exists s. rewrite Hs. clear Hc Hs. split.
  - rewrite bool_decide_false; [reflexivity|].
    intros Hnil. rewrite Hnil in Hin. by apply elem_of_nil in Hin.
  - split; [exact Hin|]. split; [exact Ht|].
    apply descomponible_pares_goldbach. by apply goldbach_hasta_2000.
Qed.

Lemma test_rapido_depende_del_orden_witness :
  ∃ s,
    Test.test_rapido conjunto_desordenado = Some (false, s)
    ∧ 98 ∈ Test.contraejemplos s
    ∧ Test.total_verificados s = 998
    ∧ descomponible 98.
Proof.
  apply (test_rapido_depende_del_orden conjunto_desordenado
           (primos_en 0 (2000 + 1)) [2; 3; 5; 7] 1031
           (filter (λ x, x ∉ [2; 3; 5; 7; 1031]) (primos_en 0 (2000 + 1)))).
  - apply criba_eratostenes_simple_spec.
  - reflexivity.
  - lia.
  - reflexivity.
  - apply (bool_decide_unpack _). vm_compute. exact I.
  - vm_compute. reflexivity.
Defined.

(** ** The reset script *)

Lemma archivos_a_eliminar_sin_repetidos : NoDup archivos_a_eliminar.
Proof. apply (bool_decide_unpack _). vm_compute. exact I. Qed.

(** One turn of the loop of [reiniciar]: the name is gone if it could be
    removed, nothing else changes, and the counter goes up by the number of
    names that disappeared. *)
Lemma eliminar_efecto (se_elimina : string → bool) (d : directorio) (k : Z)
    (archivo : string) :
  let s := eliminar se_elimina (d, k) archivo in
  (∀ nombre,
     s.1 !! nombre
     = if bool_decide (nombre = archivo) && se_elimina nombre then None
       else d !! nombre)
  ∧ Z.of_nat (size s.1) + s.2 = Z.of_nat (size d) + k.
Proof.
  unfold eliminar. cbv zeta. cbn [fst snd]. case_bool_decide as Hex.
  - destruct (se_elimina archivo) eqn:Hse; cbn [fst snd].
    + split.
      * intros nombre. case_bool_decide as Hn.
        -- subst. rewrite Hse. simpl. apply lookup_delete_eq.
        -- simpl. by apply lookup_delete_ne.
      * rewrite map_size_delete_Some by done.
        assert (size d ≠ 0%nat); [|lia].
        intros Hcero%map_size_empty_inv. subst.
        rewrite lookup_empty in Hex. by destruct Hex.
    + split; [|done]. intros nombre. case_bool_decide; [|done].
      subst. by rewrite Hse.
  - cbn [fst snd]. split; [|done]. intros nombre.
    case_bool_decide; [|done]. subst.
    destruct (se_elimina archivo); [|done]. simpl.
    by apply eq_None_not_Some.
Qed.

Lemma eliminar_foldl (se_elimina : string → bool) (nombres : list string)
    (d : directorio) (k : Z) :
  let s := foldl (eliminar se_elimina) (d, k) nombres in
  (∀ nombre,
     s.1 !! nombre
     = if bool_decide (nombre ∈ nombres) && se_elimina nombre then None
       else d !! nombre)
  ∧ Z.of_nat (size s.1) + s.2 = Z.of_nat (size d) + k.
Proof.
  revert d k. induction nombres as [|a nombres IH]; intros d k.
  - cbv zeta. cbn [foldl fst snd]. split; [|done]. intros nombre.
    rewrite bool_decide_false; [done|]. apply not_elem_of_nil.
  - cbn [foldl].
    destruct (eliminar_efecto se_elimina d k a) as [Hd Hk].
    destruct (eliminar se_elimina (d, k) a) as [d1 k1]. cbn [fst snd] in *.
    destruct (IH d1 k1) as [Hd' Hk']. cbv zeta. split; [|lia].
    intros nombre. rewrite Hd', Hd.
    destruct (se_elimina nombre); rewrite ?andb_false_r; [|done].
    rewrite !andb_true_r.
    destruct (decide (nombre = a)) as [->|Hne].
    + rewrite (bool_decide_true (a ∈ a :: nombres)) by left.
      rewrite (bool_decide_true (a = a)) by done.
      by destruct (bool_decide (a ∈ nombres)).
    + rewrite (bool_decide_false (nombre = a)) by done.
      apply (f_equal (λ b : bool, if b then None else d !! nombre)).
      apply bool_decide_ext. rewrite elem_of_cons.
      split; [by right|by intros [?|?]].
Qed.

(** X19: [reiniciar] touches nothing but the five names of its list and
    creates nothing. Without the confirmation the directory is left as it
    was. With it, a listed name is gone afterwards exactly when removing it
    did not raise (or it was not there), every other name holds what it
    held, and the count reported is the number of files that
    disappeared. *)
Theorem reiniciar_efecto (confirmado : bool) (se_elimina : string → bool)
    (d : directorio) :
  ∃ d' eliminados,
    reiniciar confirmado se_elimina d = (d', eliminados)
    ∧ (∀ nombre,
         d' !! nombre
         = if confirmado && bool_decide (nombre ∈ archivos_a_eliminar)
              && se_elimina nombre
           then None else d !! nombre)
    ∧ (confirmado = false → d' = d ∧ eliminados = None)
    ∧ (confirmado = true →
       eliminados = Some (Z.of_nat (size d) - Z.of_nat (size d'))).
Proof.
  unfold reiniciar. destruct confirmado; cbn [negb].
  - destruct (eliminar_foldl se_elimina archivos_a_eliminar d 0) as [Hd Hk].
    destruct (foldl (eliminar se_elimina) (d, 0) archivos_a_eliminar)
      as [d' k]. cbn [fst snd] in *.
    exists d', (Some k). split; [done|]. split; [exact Hd|].
    split; [done|]. intros _. f_equal. lia.
  - exists d, None. by repeat split.
Qed.

Lemma reiniciar_quita_progreso (se_elimina : string → bool) (d : directorio) :
  se_elimina archivo_progreso = true →
  archivo_en (reiniciar true se_elimina d).1 archivo_progreso = Ausente.
Proof.
  intros Hse. unfold reiniciar. cbn [negb].
  destruct (eliminar_foldl se_elimina archivos_a_eliminar d 0) as [Hd _].
  destruct (foldl (eliminar se_elimina) (d, 0) archivos_a_eliminar)
    as [d' k]. cbn [fst snd] in *.
  unfold archivo_en. rewrite Hd, Hse.
  rewrite bool_decide_true; [done|]. left.
Qed.

(** X20: after a confirmed reset in which the checkpoint could be removed,
    the driver run in the same directory does what it does from the default
    progress, whatever the checkpoint held: it loads nothing and starts
    from [n_inicial - 2]. Without the confirmation the driver finds the
    checkpoint that was there. *)
Theorem reiniciar_y_arrancar (cfg : Config) (mundo : Mundo) (fuel : nat)
    (ahora : string) (se_elimina : string → bool) (d : directorio) :
  se_elimina archivo_progreso = true →
  verificacion_masiva_goldbach cfg mundo fuel
    (archivo_en (reiniciar true se_elimina d).1 archivo_progreso) ahora
  = verificacion_desde cfg mundo fuel (progreso_por_defecto cfg ahora)
  ∧ archivo_en (reiniciar false se_elimina d).1 archivo_progreso
    = archivo_en d archivo_progreso.
Proof.
  intros Hse. split; [|done].
  rewrite reiniciar_quita_progreso by done.
  unfold verificacion_masiva_goldbach.
  by rewrite cargar_progreso_ausente.
Qed.

Lemma reiniciar_y_arrancar_witness :
  verificacion_masiva_goldbach config_impar mundo_tranquilo 20
    (archivo_en
       (reiniciar true (λ _, true)
          (<[archivo_progreso := Json (valor_de_progreso progreso_998)]> ∅)).1
       archivo_progreso) "2025-11-02T00:00:00"
  = verificacion_desde config_impar mundo_tranquilo 20
      (progreso_por_defecto config_impar "2025-11-02T00:00:00")
  ∧ archivo_en
      (reiniciar false (λ _, true)
         (<[archivo_progreso := Json (valor_de_progreso progreso_998)]> ∅)).1
      archivo_progreso
    = archivo_en
        (<[archivo_progreso := Json (valor_de_progreso progreso_998)]> ∅)
        archivo_progreso.
Proof.
  apply (reiniciar_y_arrancar config_impar mundo_tranquilo 20
           "2025-11-02T00:00:00" (λ _, true)
           (<[archivo_progreso := Json (valor_de_progreso progreso_998)]> ∅)).
  reflexivity.
Defined.

(** ** Sessions, one after another *)

Lemma ultimo_guardado_final (cfg : Config) (mundo : Mundo) (fuel : nat)
    (progreso : Progreso) (e : ejecucion) (ultimo : Progreso) :
  verificacion_desde cfg mundo fuel progreso = Some e →
  last (guardados e) = Some ultimo → ultimo = progreso_final e.
Proof.
  unfold verificacion_desde. case_bool_decide as Hfin.
  { by intros [= <-]. }
  case_bool_decide as Hc.
  { intros [= <-]. simpl. by intros [= <-]. }
  intros He. apply bucle_invariante in He
    as (k & pend & _ & _ & Hg & _ & _).
  rewrite Hg. by intros [= <-].
Qed.

(** X21: a session resumes exactly where the one before it stopped: when
    the checkpoint holds what a run saved last, however that run ended, the
    next run of the driver does what it does from the progress the earlier
    run ended with: dictionary written, file read back, nothing lost and
    nothing redone. *)
Theorem reanuda_donde_quedo (cfg : Config) (m1 m2 : Mundo) (f1 f2 : nat)
    (progreso : Progreso) (e1 : ejecucion) (ultimo : Progreso)
    (ahora : string) :
  verificacion_desde cfg m1 f1 progreso = Some e1 →
  last (guardados e1) = Some ultimo →
  verificacion_masiva_goldbach cfg m2 f2 (guardar_progreso ultimo) ahora
  = verificacion_desde cfg m2 f2 (progreso_final e1).
Proof.
  intros He1 Hult.
  rewrite (ultimo_guardado_final cfg m1 f1 progreso e1 ultimo He1 Hult).
  unfold verificacion_masiva_goldbach.
  rewrite cargar_progreso_guardado, como_progreso_valor_de_progreso. done.
Qed.

Lemma reanuda_donde_quedo_witness :
  verificacion_masiva_goldbach config_impar mundo_tranquilo 20
    (guardar_progreso (progreso_final sesion_interrumpida))
    "2025-11-02T00:00:00"
  = verificacion_desde config_impar mundo_tranquilo 20
      (progreso_final sesion_interrumpida).
Proof.
  apply (reanuda_donde_quedo config_impar mundo_interrumpido mundo_tranquilo
           20 20 (progreso_por_defecto config_impar "") sesion_interrumpida
           (progreso_final sesion_interrumpida) "2025-11-02T00:00:00").
  - vm_compute. reflexivity.
  - vm_compute. reflexivity.
Defined.

Lemma conductor_termina_witness :
  ∃ e, ∀ fuel,
    (Z.to_nat (n_final config_impar
               - ultimo_n_verificado (progreso_por_defecto config_impar ""))
     ≤ fuel)%nat →
    verificacion_desde config_impar mundo_interrumpido fuel
      (progreso_por_defecto config_impar "") = Some e.
Proof.
  apply (conductor_termina config_impar mundo_interrumpido
           (progreso_por_defecto config_impar "")).
  - vm_compute. discriminate.
  - vm_compute. discriminate.
Defined.

Lemma conductor_no_termina_witness :
  (∀ e, verificacion_desde config_retroceso mundo_tranquilo 10
          (progreso_por_defecto config_retroceso "") = Some e →
     estado_final e = Fallida ∧ lanza e = true
     ∧ generar_reporte config_retroceso mundo_tranquilo (progreso_final e)
       = None
     ∧ numeros_verificados (lotes e) = [])
  ∧ ((∀ k, reloj_ronda mundo_tranquilo k - reloj_inicial mundo_tranquilo
           < intervalo_guardado config_retroceso) →
     verificacion_desde config_retroceso mundo_tranquilo 10
       (progreso_por_defecto config_retroceso "") = None).
Proof.
  apply (conductor_no_termina config_retroceso mundo_tranquilo
           (progreso_por_defecto config_retroceso "") 10).
  - vm_compute. discriminate.
  - vm_compute. discriminate.
  - intros k. reflexivity.
  - vm_compute. reflexivity.
Defined.

Lemma conductor_guarda_al_salir_witness :
  (estado_final sesion_interrumpida = YaCompletada →
   guardados sesion_interrumpida = [])
  ∧ (estado_final sesion_interrumpida ≠ YaCompletada →
     last (guardados sesion_interrumpida)
     = Some (progreso_final sesion_interrumpida))
  ∧ Forall (λ p, ∃ j,
        progreso_tras (progreso_por_defecto config_impar "")
          (rondas config_impar j
             (asegurar_par
                (ultimo_n_verificado (progreso_por_defecto config_impar "")
                 + 2))).1
          p)
      (guardados sesion_interrumpida).
Proof.
  apply (conductor_guarda_al_salir config_impar mundo_interrumpido 20
           (progreso_por_defecto config_impar "") sesion_interrumpida).
  vm_compute. reflexivity.
Defined.

Lemma conductor_refleja_rondas_witness :
  ∃ hechos pendientes,
    lotes sesion_interrumpida = hechos ++ pendientes
    ∧ ultimo_n_verificado (progreso_final sesion_interrumpida)
      = ultimo_tras
          (ultimo_n_verificado (progreso_por_defecto config_impar "")) hechos
    ∧ total_verificados (progreso_final sesion_interrumpida)
      = total_verificados (progreso_por_defecto config_impar "")
        + Z.of_nat (length (numeros_verificados hechos))
    ∧ contraejemplos (progreso_final sesion_interrumpida)
      = contraejemplos (progreso_por_defecto config_impar "")
        ++ sin_pares (numeros_verificados hechos)
    ∧ (∀ n, n ∈ sin_pares (numeros_verificados hechos)
            ↔ n ∈ numeros_verificados hechos ∧ ¬ descomponible n)
    ∧ total_cumple (progreso_final sesion_interrumpida)
        + Z.of_nat (length (sin_pares (numeros_verificados hechos)))
      = total_cumple (progreso_por_defecto config_impar "")
        + Z.of_nat (length (numeros_verificados hechos))
    ∧ (estado_final sesion_interrumpida = Completada
       ∨ estado_final sesion_interrumpida = YaCompletada →
       pendientes = []).
Proof.
  apply (conductor_refleja_rondas config_impar mundo_interrumpido 20
           (progreso_por_defecto config_impar "") sesion_interrumpida).
  vm_compute. reflexivity.
Defined.

(** ** What the driver dispatches, for any batch size *)

Section DespachoGeneral.

Variable cfg : Config.

Hypothesis Hpositivo : 1 ≤ tamaño_batch cfg.

(** The numbers of the batches of one round come in ascending order, are
    even numbers from [n_actual] up to [n_final], and lie at least two
    below the value [n_actual] has after the round. *)
Lemma preparar_batches_orden (vueltas : nat) (n_actual : Z) :
  StronglySorted Z.lt
    (numeros_verificados (preparar_batches cfg vueltas n_actual).1)
  ∧ ∀ x, x ∈ numeros_verificados (preparar_batches cfg vueltas n_actual).1 →
      n_actual ≤ x ∧ x + 2 ≤ (preparar_batches cfg vueltas n_actual).2
      ∧ x ≤ n_final cfg ∧ x `mod` 2 = 0.
Proof.
  revert n_actual. induction vueltas as [|k IH]; intros n.
  - simpl. split; [constructor|]. by intros x ?%elem_of_nil.
  - simpl. case_bool_decide as Hfin.
    { simpl. split; [constructor|]. by intros x ?%elem_of_nil. }
    set (fin := Z.min (n + tamaño_batch cfg - 1) (n_final cfg)).
    destruct (IH (fin + 2)) as [Hord Hel].
    pose proof (preparar_batches_avanza cfg k (fin + 2) Hpositivo) as Hav.
    destruct (preparar_batches cfg k (fin + 2)) as [bs n'].
    cbn [fst snd] in *.
    change (numeros_verificados ((n, fin, false) :: bs))
      with (numeros_del_lote (n, fin, false) ++ numeros_verificados bs).
    split.
    + apply StronglySorted_app. split; [|split; [|done]].
      * intros x1 x2 Hx1%elem_of_numeros_del_lote Hx2%Hel. lia.
      * apply range_ordenado. lia.
    + intros x [Hx%elem_of_numeros_del_lote|Hx%Hel]%elem_of_app; lia.
Qed.

Lemma rondas_orden (k : nat) (n_actual : Z) :
  StronglySorted Z.lt (numeros_verificados (rondas cfg k n_actual).1)
  ∧ (∀ x, x ∈ numeros_verificados (rondas cfg k n_actual).1 →
       n_actual ≤ x ∧ x + 2 ≤ (rondas cfg k n_actual).2
       ∧ x ≤ n_final cfg ∧ x `mod` 2 = 0)
  ∧ n_actual ≤ (rondas cfg k n_actual).2.
Proof.
  revert n_actual. induction k as [|k IH]; intros n.
  - simpl. split; [constructor|]. split; [|lia]. by intros x ?%elem_of_nil.
  - cbn [rondas].
    destruct (preparar_batches_orden (Z.to_nat (num_cores cfg)) n)
      as [Hord1 Hel1].
    pose proof (preparar_batches_avanza cfg (Z.to_nat (num_cores cfg)) n
                  Hpositivo) as Hav.
    destruct (preparar_batches cfg (Z.to_nat (num_cores cfg)) n)
      as [bs n'].
    destruct (IH n') as (Hord2 & Hel2 & Hav2).
    destruct (rondas cfg k n') as [resto nf]. cbn [fst snd] in *.
    rewrite numeros_verificados_app. split; [|split; [|lia]].
    + apply StronglySorted_app. split; [|done].
      intros x1 x2 Hx1%Hel1 Hx2%Hel2. lia.
    + intros x [Hx%Hel1|Hx%Hel2]%elem_of_app; lia.
Qed.

Lemma rondas_ultimo (k : nat) (n_actual : Z) :
  (rondas cfg k n_actual).2
  = ultimo_tras (n_actual - 2) (rondas cfg k n_actual).1 + 2.
Proof.
  revert n_actual. induction k as [|k IH]; intros n.
  - simpl. unfold ultimo_tras. simpl. lia.
  - cbn [rondas].
    pose proof (preparar_batches_ultimo cfg (Z.to_nat (num_cores cfg)) n)
      as Hu.
    destruct (preparar_batches cfg (Z.to_nat (num_cores cfg)) n)
      as [bs n'].
    specialize (IH n'). destruct (rondas cfg k n') as [resto nf].
    cbn [fst snd] in *. rewrite ultimo_tras_app, IH, Hu. do 2 f_equal. lia.
Qed.

Lemma ultimo_tras_no_vacio (u u' : Z) (ls : list (Z * Z * bool)) :
  ls ≠ [] → ultimo_tras u ls = ultimo_tras u' ls.
Proof. by destruct ls. Qed.

(** The first batch ends one below [n_actual + tamaño_batch] and the next
    begins one above it. *)
Lemma preparar_batches_salto (vueltas : nat) (n_actual : Z) :
  n_actual + tamaño_batch cfg ≤ n_final cfg →
  (∀ x, x ∈ numeros_verificados (preparar_batches cfg vueltas n_actual).1 →
     x ≠ n_actual + tamaño_batch cfg)
  ∧ ((preparar_batches cfg vueltas n_actual).2 = n_actual
     ∨ n_actual + tamaño_batch cfg + 1
       ≤ (preparar_batches cfg vueltas n_actual).2).
Proof.
  intros Hcabe. destruct vueltas as [|k].
  - simpl. split; [|by left]. by intros x ?%elem_of_nil.
  - simpl. rewrite bool_decide_false by lia. rewrite Z.min_l by lia.
    destruct (preparar_batches_orden k
                (n_actual + tamaño_batch cfg - 1 + 2)) as [_ Hel].
    pose proof (preparar_batches_avanza cfg k
                  (n_actual + tamaño_batch cfg - 1 + 2) Hpositivo) as Hav.
    destruct (preparar_batches cfg k (n_actual + tamaño_batch cfg - 1 + 2))
      as [bs n']. cbn [fst snd] in *.
    change (numeros_verificados
              ((n_actual, n_actual + tamaño_batch cfg - 1, false) :: bs))
      with (numeros_del_lote
              (n_actual, n_actual + tamaño_batch cfg - 1, false)
            ++ numeros_verificados bs).
    split; [|right; lia].
    intros x [Hx%elem_of_numeros_del_lote|Hx%Hel]%elem_of_app; lia.
Qed.

Lemma rondas_salto (k : nat) (n_actual : Z) :
  n_actual + tamaño_batch cfg ≤ n_final cfg →
  (∀ x, x ∈ numeros_verificados (rondas cfg k n_actual).1 →
     x ≠ n_actual + tamaño_batch cfg)
  ∧ ((rondas cfg k n_actual).2 = n_actual
     ∨ n_actual + tamaño_batch cfg + 1 ≤ (rondas cfg k n_actual).2).
Proof.
  intros Hcabe. induction k as [|k IH].
  - simpl. split; [|by left]. by intros x ?%elem_of_nil.
  - cbn [rondas].
    destruct (preparar_batches_salto (Z.to_nat (num_cores cfg)) n_actual
                Hcabe) as [Hel1 Hn1].
    destruct (preparar_batches cfg (Z.to_nat (num_cores cfg)) n_actual)
      as [bs n']. cbn [fst snd] in *.
    destruct Hn1 as [->|Hn1].
    + destruct IH as [Hel2 Hn2].
      destruct (rondas cfg k n_actual) as [resto nf]. cbn [fst snd] in *.
      rewrite numeros_verificados_app. split; [|done].
      intros x [Hx|Hx]%elem_of_app; [by apply Hel1|by apply Hel2].
    + destruct (rondas_orden k n') as (_ & Hel2 & Hav2).
      destruct (rondas cfg k n') as [resto nf]. cbn [fst snd] in *.
      rewrite numeros_verificados_app. split; [|right; lia].
      intros x [Hx|Hx%Hel2]%elem_of_app; [by apply Hel1|lia].
Qed.

End DespachoGeneral.

(** What a run dispatches: the batches of a number of whole rounds, and
    after them either nothing or the batches of one more round. *)
Lemma lotes_de_una_corrida (cfg : Config) (mundo : Mundo) (fuel : nat)
    (progreso : Progreso) (e : ejecucion) :
  verificacion_desde cfg mundo fuel progreso = Some e →
  (lotes e = [] ∧ estado_final e ≠ Completada)
  ∨ ∃ k pendientes,
      lotes e
      = (rondas cfg k (asegurar_par (ultimo_n_verificado progreso + 2))).1
        ++ pendientes
      ∧ progreso_tras progreso
          (rondas cfg k (asegurar_par (ultimo_n_verificado progreso + 2))).1
          (progreso_final e)
      ∧ (pendientes = []
         ∨ pendientes
           = (preparar_batches cfg (Z.to_nat (num_cores cfg))
                (rondas cfg k
                   (asegurar_par (ultimo_n_verificado progreso + 2))).2).1)
      ∧ (estado_final e = Completada →
         pendientes = []
         ∧ (n_final cfg
            < (rondas cfg k
                 (asegurar_par (ultimo_n_verificado progreso + 2))).2
            ∨ num_cores cfg < 1)).
Proof.
  unfold verificacion_desde. case_bool_decide as Hfin.
  { intros [= <-]. by left. }
  case_bool_decide as Hc.
  { intros [= <-]. by left. }
  intros He. right. apply bucle_invariante in He
    as (k & pend & Hl & Hp & _ & _ & _ & Hcomp & Hno).
  exists k, pend. split; [done|]. split; [done|]. split; [|done].
  destruct (decide (estado_final e = Completada)) as [Hest|Hest].
  - left. by apply Hcomp.
  - destruct (Hno Hest) as [[-> _]|[-> _]]; [by left|by right].
Qed.

(** X22: with batches of at least one number, the even numbers a run
    hands to the verifier come in strictly ascending order, so none is
    verified twice, and every one of them lies above the loaded
    [ultimo_n_verificado] and at most at [n_final]; this holds in every
    world and for every way the run ends. *)
Theorem nunca_dos_veces (cfg : Config) (mundo : Mundo) (fuel : nat)
    (progreso : Progreso) (e : ejecucion) :
  1 ≤ tamaño_batch cfg →
  verificacion_desde cfg mundo fuel progreso = Some e →
  StronglySorted Z.lt (numeros_verificados (lotes e))
  ∧ NoDup (numeros_verificados (lotes e))
  ∧ ∀ x, x ∈ numeros_verificados (lotes e) →
      ultimo_n_verificado progreso + 2 ≤ x ≤ n_final cfg ∧ x `mod` 2 = 0.
Proof.
  intros Hpos He.
  assert (StronglySorted Z.lt (numeros_verificados (lotes e))
          ∧ ∀ x, x ∈ numeros_verificados (lotes e) →
              ultimo_n_verificado progreso + 2 ≤ x ≤ n_final cfg
              ∧ x `mod` 2 = 0) as [Hord Hel].
  { destruct (lotes_de_una_corrida cfg mundo fuel progreso e He)
      as [[-> _]|(k & pend & -> & _ & Hpend & _)].
    { split; [constructor|]. by intros x ?%elem_of_nil. }
    destruct (asegurar_par_spec (ultimo_n_verificado progreso + 2))
      as [_ Hn0].
    set (n0 := asegurar_par (ultimo_n_verificado progreso + 2)) in *.
    destruct (rondas_orden cfg Hpos k n0) as (Hord1 & Hel1 & Hav1).
    destruct (preparar_batches_orden cfg Hpos (Z.to_nat (num_cores cfg))
                (rondas cfg k n0).2) as [Hord2 Hel2].
    rewrite numeros_verificados_app.
    destruct Hpend as [->| ->].
    - rewrite app_nil_r. split; [done|]. intros x Hx%Hel1. lia.
    - split.
      + apply StronglySorted_app. split; [|done].
        intros x1 x2 Hx1%Hel1 Hx2%Hel2. lia.
      + intros x [Hx%Hel1|Hx%Hel2]%elem_of_app; lia. }
  split; [done|]. split; [|done]. by apply ordenado_sin_repetidos.
Qed.

Lemma nunca_dos_veces_witness :
  StronglySorted Z.lt (numeros_verificados (lotes sesion_par))
  ∧ NoDup (numeros_verificados (lotes sesion_par))
  ∧ ∀ x, x ∈ numeros_verificados (lotes sesion_par) →
      ultimo_n_verificado (progreso_por_defecto config_par "") + 2 ≤ x
      ≤ n_final config_par
      ∧ x `mod` 2 = 0.
Proof.
  apply (nunca_dos_veces config_par mundo_tranquilo 20
           (progreso_por_defecto config_par "") sesion_par).
  - vm_compute. discriminate.
  - vm_compute. reflexivity.
Defined.

(** X23: with an even [tamaño_batch] the first batch of a run ends on the
    odd number before [n_inicio + tamaño_batch] and the next one begins on
    the odd number after it, so the even number
    [n_inicio + tamaño_batch], which lies in the range to verify, is
    handed to the verifier in no batch of the run, in any world; a run
    that completes nevertheless ends with [ultimo_n_verificado] at or
    above it. *)
Theorem lote_par_deja_hueco (cfg : Config) (mundo : Mundo) (fuel : nat)
    (progreso : Progreso) (e : ejecucion) :
  tamaño_batch cfg `mod` 2 = 0 → 2 ≤ tamaño_batch cfg →
  asegurar_par (ultimo_n_verificado progreso + 2) + tamaño_batch cfg
    < n_final cfg →
  verificacion_desde cfg mundo fuel progreso = Some e →
  (asegurar_par (ultimo_n_verificado progreso + 2) + tamaño_batch cfg)
    `mod` 2 = 0
  ∧ (asegurar_par (ultimo_n_verificado progreso + 2) + tamaño_batch cfg
     ∉ numeros_verificados (lotes e))
  ∧ (estado_final e = Completada → 1 ≤ num_cores cfg →
     asegurar_par (ultimo_n_verificado progreso + 2) + tamaño_batch cfg
     ≤ ultimo_n_verificado (progreso_final e)).
Proof.
  intros Hpar Hdos Hcabe He.
  assert (1 ≤ tamaño_batch cfg) as Hpos by lia.
  destruct (asegurar_par_spec (ultimo_n_verificado progreso + 2))
    as [Hpar0 Hn0].
  set (n0 := asegurar_par (ultimo_n_verificado progreso + 2)) in *.
  split; [by rewrite Z.add_mod, Hpar0, Hpar by lia|].
  destruct (lotes_de_una_corrida cfg mundo fuel progreso e He)
    as [[Hl Hest]|(k & pend & Hl & Hp & Hpend & Hcomp)].
  { rewrite Hl. split; [apply not_elem_of_nil|]. by intros ?. }
  fold n0 in Hl, Hp, Hpend, Hcomp.
  destruct (rondas_salto cfg Hpos k n0 ltac:(lia)) as [Hel1 Hn1].
  rewrite Hl, numeros_verificados_app. split.
  - intros [Hx|Hx]%elem_of_app; [by apply (Hel1 _ Hx)|].
    destruct Hpend as [->| ->]; [by apply elem_of_nil in Hx|].
    destruct Hn1 as [Hn1|Hn1].
    + rewrite Hn1 in Hx.
      destruct (preparar_batches_salto cfg Hpos (Z.to_nat (num_cores cfg))
                  n0 ltac:(lia)) as [Hel2 _].
      by apply (Hel2 _ Hx).
    + destruct (preparar_batches_orden cfg Hpos (Z.to_nat (num_cores cfg))
                  (rondas cfg k n0).2) as [_ Hel2].
      apply Hel2 in Hx. lia.
  - intros Hest Hc. destruct (Hcomp Hest) as [_ [Hfin|?]]; [|lia].
    destruct Hp as (Hu & _).
    pose proof (rondas_ultimo cfg k n0) as Hult.
    destruct (decide ((rondas cfg k n0).1 = [])) as [Hnil|Hne].
    + rewrite Hnil in Hult. unfold ultimo_tras in Hult. simpl in Hult. lia.
    + rewrite (ultimo_tras_no_vacio _ (n0 - 2)) in Hu by done. lia.
Qed.

Lemma lote_par_deja_hueco_witness :
  (asegurar_par (ultimo_n_verificado (progreso_por_defecto config_par "") + 2)
   + tamaño_batch config_par) `mod` 2 = 0
  ∧ (asegurar_par
       (ultimo_n_verificado (progreso_por_defecto config_par "") + 2)
     + tamaño_batch config_par
     ∉ numeros_verificados (lotes sesion_par))
  ∧ (estado_final sesion_par = Completada → 1 ≤ num_cores config_par →
     asegurar_par
       (ultimo_n_verificado (progreso_por_defecto config_par "") + 2)
     + tamaño_batch config_par
     ≤ ultimo_n_verificado (progreso_final sesion_par)).
Proof.
  apply (lote_par_deja_hueco config_par mundo_tranquilo 20
           (progreso_por_defecto config_par "") sesion_par).
  - reflexivity.
  - vm_compute. discriminate.
  - vm_compute. reflexivity.
  - vm_compute. reflexivity.
Defined.

(** ** Batches side by side *)

Lemma verificar_goldbach_rango_exacto (c : cache) (t0 t1 : Z)
    (args : Z * Z * bool) :
  cache_coherente c →
  ∃ r c', verificar_goldbach_rango c t0 t1 args = Some (r, c')
    ∧ resultado_de args r.
Proof.
  intros Hc. destruct args as [[a b] v].
  destruct (verificar_goldbach_rango_campos c t0 t1 a b v Hc)
    as (r & primos & Hcr & -> & Hr & Hv & Hcu & Hno & _).
  exists r, (cache_con c b primos). split; [done|].
  unfold resultado_de, sin_pares.
  assert (no_cumple r
          = filter (λ n, pares_goldbach n = []) (numeros_del_lote (a, b, v)))
    as Hno'.
  { rewrite Hno. apply filter_ext_elem. intros n Hn.
    apply elem_of_numeros_del_lote in Hn.
    rewrite (recuento_segun_criba b n primos Hcr) by lia.
    destruct (pares_goldbach n); simpl; [split; [done|lia]|].
    split; [lia|done]. }
  split; [done|]. split; [done|]. split; [done|].
  rewrite <- Hno', Hno, Hcu, <- Nat2Z.inj_add. f_equal.
  apply largo_filter_complemento.
Qed.

Lemma numeros_del_lote_partido (a m b : Z) (v : bool) :
  a - 1 ≤ m ≤ b →
  numeros_del_lote (a, b, v)
  = numeros_del_lote (a, m, v) ++ numeros_del_lote (m + 1, b, v).
Proof.
  intros Hm. apply ordenado_unico.
  - apply range_ordenado. lia.
  - apply StronglySorted_app. split; [|split; apply range_ordenado; lia].
    intros x1 x2 Hx1%elem_of_numeros_del_lote Hx2%elem_of_numeros_del_lote.
    lia.
  - intros x. rewrite elem_of_app, !elem_of_numeros_del_lote. lia.
Qed.

(** X24: the verifier's results compose: for a batch [(a, b)] cut at any
    [m] into [(a, m)] and [(m + 1, b)], whose calls sieve up to different
    bounds, the counts of the whole batch are the sums of the counts of
    the two parts and its counterexamples are those of the first part
    followed by those of the second. What a range yields does not depend
    on how it is cut into batches, as long as the second starts right
    after the end of the first. *)
Theorem lotes_se_componen (c c1 c2 : cache) (t0 t1 a m b : Z) (v : bool) :
  cache_coherente c → cache_coherente c1 → cache_coherente c2 →
  a - 1 ≤ m ≤ b →
  ∃ r r1 r2 c' c1' c2',
    verificar_goldbach_rango c t0 t1 (a, b, v) = Some (r, c')
    ∧ verificar_goldbach_rango c1 t0 t1 (a, m, v) = Some (r1, c1')
    ∧ verificar_goldbach_rango c2 t0 t1 (m + 1, b, v) = Some (r2, c2')
    ∧ verificados r = verificados r1 + verificados r2
    ∧ cumple r = cumple r1 + cumple r2
    ∧ no_cumple r = no_cumple r1 ++ no_cumple r2.
Proof.
  intros Hc Hc1 Hc2 Hm.
  destruct (verificar_goldbach_rango_exacto c t0 t1 (a, b, v) Hc)
    as (r & c' & Hr & _ & Hv & Hno & Hcu).
  destruct (verificar_goldbach_rango_exacto c1 t0 t1 (a, m, v) Hc1)
    as (r1 & c1' & Hr1 & _ & Hv1 & Hno1 & Hcu1).
  destruct (verificar_goldbach_rango_exacto c2 t0 t1 (m + 1, b, v) Hc2)
    as (r2 & c2' & Hr2 & _ & Hv2 & Hno2 & Hcu2).
  exists r, r1, r2, c', c1', c2'.
  split; [done|]. split; [done|]. split; [done|].
  rewrite (numeros_del_lote_partido a m b v Hm) in Hv, Hno, Hcu.
  rewrite sin_pares_app in Hno, Hcu. rewrite !length_app in *.
  split; [lia|]. split; [lia|]. by rewrite Hno, Hno1, Hno2.
Qed.

Lemma lotes_se_componen_witness :
  ∃ r r1 r2 c' c1' c2',
    verificar_goldbach_rango cache_vacio 0 0 (6, 40, false) = Some (r, c')
    ∧ verificar_goldbach_rango cache_vacio 0 0 (6, 21, false)
      = Some (r1, c1')
    ∧ verificar_goldbach_rango cache_vacio 0 0 (21 + 1, 40, false)
      = Some (r2, c2')
    ∧ verificados r = verificados r1 + verificados r2
    ∧ cumple r = cumple r1 + cumple r2
    ∧ no_cumple r = no_cumple r1 ++ no_cumple r2.
Proof.
  apply (lotes_se_componen cache_vacio cache_vacio cache_vacio 0 0 6 21 40
           false).
  - apply cache_vacio_coherente.
  - apply cache_vacio_coherente.
  - apply cache_vacio_coherente.
  - lia.
Defined.
